(** * NanoPoor-er: hybrid MLA/NSA attention and the load-balanced expert router

    A shallow embedding of [src/model.py].  Tensors are nested lists whose
    nesting follows the tensor axes; scalars are the real numbers, so that the
    cosine, sine and exponential of the source are the functions of the
    Standard Library.  Python exceptions are values of [exn] carried by
    [result].  The array library turns a quotient by zero into a number that
    is not finite instead of raising: where the divisor depends on the data
    (the normalisation of the router, the mean over an empty sequence) such
    a number is the value [NonFinite] of [xreal], or [None]; the other
    divisors are positive for a positive [eps], a positive base of the
    rotary frequencies and at least one head. *)

From Stdlib Require Import Reals Lra Lia List Arith Bool ZArith.
From Stdlib Require Import Sorting.Sorted Sorting.Permutation.
From Stdlib Require Strings.String.
Import ListNotations.
Import String.StringSyntax.
Delimit Scope string_scope with string.

Open Scope R_scope.

(** ** Exceptions *)

Inductive exn : Type :=
| RuntimeError   (* raised by the array library: shapes that do not broadcast,
                    a selection count out of range *)
| ValueError     (* raised by Python: tuple unpacking of the wrong arity *)
| IndexError     (* raised by Python: list index out of range *)
| ZeroDivisionError.  (* raised by Python: integer division by zero *)

Inductive result (A : Type) : Type :=
| Ok (a : A)
| Raise (e : exn).

Arguments Ok {A} a.
Arguments Raise {A} e.

Definition bind {A B : Type} (m : result A) (k : A -> result B) : result B :=
  match m with
  | Ok a => k a
  | Raise e => Raise e
  end.

Notation "x <- m ;; k" := (bind m (fun x => k))
  (at level 61, m at next level, right associativity).
Notation "' p <- m ;; k" := (bind m (fun p => k))
  (at level 61, p pattern, m at next level, right associativity).

Fixpoint mapM {A B : Type} (f : A -> result B) (l : list A) : result (list B) :=
  match l with
  | [] => Ok []
  | a :: l' => b <- f a ;; bs <- mapM f l' ;; Ok (b :: bs)
  end.

Fixpoint mapM2 {A B C : Type} (f : A -> B -> result C)
         (xs : list A) (ys : list B) : result (list C) :=
  match xs, ys with
  | x :: xs', y :: ys' => c <- f x y ;; cs <- mapM2 f xs' ys' ;; Ok (c :: cs)
  | _, _ => Ok []
  end.

(** ** Tensors *)

Abbreviation vec := (list R) (only parsing).
Abbreviation mat := (list (list R)) (only parsing).

Fixpoint zipWith {A B C : Type} (f : A -> B -> C) (xs : list A) (ys : list B) : list C :=
  match xs, ys with
  | x :: xs', y :: ys' => f x y :: zipWith f xs' ys'
  | _, _ => []
  end.

Definition sum (l : list R) : R := fold_right Rplus 0 l.

(** One axis of an elementwise binary operation.  Two sizes are compatible
    when they are equal or one of them is 1, in which case the single entry
    is repeated along the other operand; any other pair of sizes raises. *)
Definition broadcast2 {A B C : Type} (f : A -> B -> result C)
           (xs : list A) (ys : list B) : result (list C) :=
  if Nat.eqb (length xs) (length ys) then mapM2 f xs ys
  else match xs, ys with
       | [x], _ => mapM (f x) ys
       | _, [y] => mapM (fun x => f x y) xs
       | _, _ => Raise RuntimeError
       end.

(** Elementwise operations on the last two axes. *)
Definition ew (op : R -> R -> R) (x y : mat) : result mat :=
  broadcast2 (broadcast2 (fun a b => Ok (op a b))) x y.

(** [t.chunk(2, dim=-1)] followed by unpacking into two names: pieces of size
    ceil(D/2); a row of width 1 yields a single piece and the unpacking
    raises. *)
Definition chunk2_row (r : vec) : result (vec * vec) :=
  if Nat.eqb (length r) 1 then Raise ValueError
  else Ok (firstn (Nat.div (length r + 1) 2) r, skipn (Nat.div (length r + 1) 2) r).

Definition chunk2 (x : mat) : result (mat * mat) :=
  ps <- mapM chunk2_row x ;; Ok (map fst ps, map snd ps).

(** [torch.cat([a, b], dim=-1)]: the row counts must agree. *)
Definition cat_last (a b : mat) : result mat :=
  if Nat.eqb (length a) (length b) then Ok (zipWith (@app R) a b)
  else Raise RuntimeError.

(** ** Rotary encoder *)

(** [torch.arange(0, dim, 2)] *)
Definition arange2 (dim : nat) : list nat :=
  map (fun k => (2 * k)%nat) (seq 0 (Nat.div (dim + 1) 2)).

(** [precompute_freqs_cis(dim, end, device, theta)] *)
Definition precompute_freqs_cis (dim end_ : nat) (theta : R) : mat * mat :=
  let freqs := map (fun i => 1 / Rpower theta (INR i / INR dim)) (arange2 dim) in
  let t := map INR (seq 0 end_) in
  let freqs := map (fun ti => map (fun f => ti * f) freqs) t in
  (map (map cos) freqs, map (map sin) freqs).

(** [apply_rope(x, y, freqs_cis)] on one (batch, head) slice: [x] and [y] are
    the last two axes, sequence position by channel.  The two leading axes of
    the source broadcast against the two unit axes that [unsqueeze] puts in
    front of the table, which never fails. *)
Definition apply_rope (x y : mat) (freqs_cis : mat * mat) : result (mat * mat) :=
  let '(cos_freqs, sin_freqs) := freqs_cis in
  let seq_len := length x in
  let cos_seq := firstn seq_len cos_freqs in
  let sin_seq := firstn seq_len sin_freqs in
  '(x_real, x_imag) <- chunk2 x ;;
  '(y_real, y_imag) <- chunk2 y ;;
  xrc <- ew Rmult x_real cos_seq ;;
  xis <- ew Rmult x_imag sin_seq ;;
  x_rotated_real <- ew Rminus xrc xis ;;
  xrs <- ew Rmult x_real sin_seq ;;
  xic <- ew Rmult x_imag cos_seq ;;
  x_rotated_imag <- ew Rplus xrs xic ;;
  yrc <- ew Rmult y_real cos_seq ;;
  yis <- ew Rmult y_imag sin_seq ;;
  y_rotated_real <- ew Rminus yrc yis ;;
  yrs <- ew Rmult y_real sin_seq ;;
  yic <- ew Rmult y_imag cos_seq ;;
  y_rotated_imag <- ew Rplus yrs yic ;;
  x_rotated <- cat_last x_rotated_real x_rotated_imag ;;
  y_rotated <- cat_last y_rotated_real y_rotated_imag ;;
  Ok (x_rotated, y_rotated).

(** ** Layers used by the attention module *)

(* [batch][position][channel] *)
Abbreviation tensor3 := (list (list (list R))) (only parsing).
(* [batch][head][position][channel] *)
Abbreviation tensor4 := (list (list (list (list R)))) (only parsing).

Definition dot (u v : vec) : R := sum (zipWith Rmult u v).

(** [nn.Linear(in, out, bias=False)] on a vector of [in] entries: the weight
    has one row per output.  On a vector of another width [nn.Linear]
    raises; the properties of calls that return take the widths of the
    weights and of the input as hypotheses ([Attn_shapes], [input_shaped]). *)
Definition linear (W : mat) (v : vec) : vec := map (fun w => dot w v) W.
Definition linear3 (W : mat) (x : tensor3) : tensor3 := map (map (linear W)) x.

(** [nn.RMSNorm(d, eps)] on the last axis. *)
Definition rms_norm (eps : R) (w : vec) (v : vec) : vec :=
  let ms := sum (map (fun a => a * a) v) / INR (length v) in
  zipWith Rmult (map (fun a => a / sqrt (ms + eps)) v) w.
Definition rms_norm3 (eps : R) (w : vec) (x : tensor3) : tensor3 :=
  map (map (rms_norm eps w)) x.

(** [F.softmax(v, dim=-1)] *)
Definition softmax (v : vec) : vec :=
  map (fun a => exp a / sum (map exp v)) v.

(** [t.mean(dim=1)] of one batch item, whose rows have [width] channels: the
    quotient of the column sums by the number of rows.  With no rows the
    array library divides zero by zero and every mean is not a number, which
    is [None] here. *)
Definition mean_rows (width : nat) (rows : mat) : option vec :=
  match rows with
  | [] => None
  | _ => Some (map (fun j => sum (map (fun r => nth j r 0) rows) / INR (length rows))
                   (seq 0 width))
  end.

(** [t.view(B, T, n_head, d).transpose(1, 2)] *)
Definition split_heads (n_head d : nat) (x : tensor3) : tensor4 :=
  map (fun xb => map (fun h => map (fun row => firstn d (skipn (h * d) row)) xb)
                     (seq 0 n_head)) x.

(** [t.transpose(1, 2).contiguous().view(B, T, n_head * d)] *)
Definition merge_heads (T : nat) (x : tensor4) : tensor3 :=
  map (fun xb => map (fun t => concat (map (fun xh => nth t xh []) xb)) (seq 0 T)) x.

(** [apply_rope] over the batch and head axes. *)
Definition apply_rope4 (x y : tensor4) (freqs_cis : mat * mat) : result (tensor4 * tensor4) :=
  ps <- mapM2 (fun xb yb =>
                 qs <- mapM2 (fun xh yh => apply_rope xh yh freqs_cis) xb yb ;;
                 Ok (map fst qs, map snd qs)) x y ;;
  Ok (map fst ps, map snd ps).

(** [out[..., :a] = x; out[..., a:] = y] into an empty tensor of matching
    shape: concatenation along the last axis.  [y] may have a single head,
    which the assignment repeats for every head of [x]. *)
Definition recombine (x y : tensor4) : tensor4 :=
  zipWith (fun xb yb =>
             match yb with
             | [yh] => map (fun xh => zipWith (@app R) xh yh) xb
             | _ => zipWith (zipWith (@app R)) xb yb
             end) x y.

Definition scale4 (c : R) (x : tensor4) : tensor4 := map (map (map (map (Rmult c)))) x.

(** The entries of a tensor in row-major order. *)
Definition flatten4 (t : tensor4) : vec := concat (concat (concat t)).

(** The leading entries of [flat], laid out in the shape of [t]. *)
Fixpoint refill1 (t : mat) (flat : vec) : mat :=
  match t with
  | [] => []
  | r :: t' => firstn (length r) flat :: refill1 t' (skipn (length r) flat)
  end.

Fixpoint refill2 (t : tensor3) (flat : vec) : tensor3 :=
  match t with
  | [] => []
  | a :: t' => refill1 a flat :: refill2 t' (skipn (length (concat a)) flat)
  end.

Fixpoint refill3 (t : tensor4) (flat : vec) : tensor4 :=
  match t with
  | [] => []
  | a :: t' => refill2 a flat :: refill3 t' (skipn (length (concat (concat a))) flat)
  end.

(** [v.view_as(t)]: the entries of [v] in the shape of [t]; the two must
    have the same number of entries.  A tensor that already has the shape of
    [t] is returned as it is; one of another shape is read in row-major
    order, as the array library does for a contiguous tensor. *)
Definition view_as (v t : tensor4) : result tensor4 :=
  if Nat.eqb (length (flatten4 v)) (length (flatten4 t))
  then Ok (refill3 t (flatten4 v))
  else Raise RuntimeError.
Definition add4 (x y : tensor4) : tensor4 := zipWith (zipWith (zipWith (zipWith Rplus))) x y.

(** ** Hyperparameters and module state *)

Record config : Type := {
  n_embd : nat;
  n_head : nat;
  dropout : R;
  ctx_len : nat;
  rms_norm_eps : R;
  block_size : nat;
  window_size : nat;
  num_tokens_to_keep : Z
}.

Definition v_head_dim : nat := 32.
Definition kv_lora_rank : nat := 32.
Definition q_lora_rank : nat := 3 * kv_lora_rank.
Definition rope_head_dim : nat := 64.
Definition nope_head_dim : nat := 32.

(** The attributes of [Attn] that [forward] and its helpers read or assign.
    A linear layer is its weight matrix; [__init__] fixes the shapes of the
    weights from the hyperparameters. *)
Record Attn : Type := {
  cfg : config;
  training : bool;
  lamb_v : R;
  compress_q_linear : mat;
  q_norm : vec;
  decompress_q_nope : mat;
  decompress_q_rope : mat;
  compress_kv_linear : mat;
  kv_norm : vec;
  decompress_k_nope : mat;
  decompress_v_linear : mat;
  k_rope_linear : mat;
  importance_scorer : mat;
  selection_k : mat;
  selection_v : mat;
  window_k : mat;
  window_v : mat;
  block_compressor : mat * mat;
  intra_block_pos_encoding : mat;
  branch_gate : mat;
  proj : mat;
  k_cache : option tensor4;
  v_cache : option tensor4;
  cache_filled : nat;
  freqs_cis : mat * mat
}.

Definition value_dim (c : config) : nat := n_head c * v_head_dim.
Definition nope_dim (c : config) : nat := n_head c * nope_head_dim.
Definition rope_dim (c : config) : nat := n_head c * rope_head_dim.

(** [x.size(1)] *)
Definition size1 {A : Type} (x : list (list A)) : nat := length (hd [] x).

Definition set_cache (m : Attn) (kc vc : option tensor4) (filled : nat) : Attn :=
  {| cfg := cfg m; training := training m; lamb_v := lamb_v m;
     compress_q_linear := compress_q_linear m; q_norm := q_norm m;
     decompress_q_nope := decompress_q_nope m; decompress_q_rope := decompress_q_rope m;
     compress_kv_linear := compress_kv_linear m; kv_norm := kv_norm m;
     decompress_k_nope := decompress_k_nope m; decompress_v_linear := decompress_v_linear m;
     k_rope_linear := k_rope_linear m; importance_scorer := importance_scorer m;
     selection_k := selection_k m; selection_v := selection_v m;
     window_k := window_k m; window_v := window_v m;
     block_compressor := block_compressor m;
     intra_block_pos_encoding := intra_block_pos_encoding m;
     branch_gate := branch_gate m; proj := proj m;
     k_cache := kc; v_cache := vc; cache_filled := filled;
     freqs_cis := freqs_cis m |}.

(** The same module with other token-compression parameters. *)
Definition set_compression (m : Attn) (bc : mat * mat) (pe : mat) : Attn :=
  {| cfg := cfg m; training := training m; lamb_v := lamb_v m;
     compress_q_linear := compress_q_linear m; q_norm := q_norm m;
     decompress_q_nope := decompress_q_nope m; decompress_q_rope := decompress_q_rope m;
     compress_kv_linear := compress_kv_linear m; kv_norm := kv_norm m;
     decompress_k_nope := decompress_k_nope m; decompress_v_linear := decompress_v_linear m;
     k_rope_linear := k_rope_linear m; importance_scorer := importance_scorer m;
     selection_k := selection_k m; selection_v := selection_v m;
     window_k := window_k m; window_v := window_v m;
     block_compressor := bc;
     intra_block_pos_encoding := pe;
     branch_gate := branch_gate m; proj := proj m;
     k_cache := k_cache m; v_cache := v_cache m; cache_filled := cache_filled m;
     freqs_cis := freqs_cis m |}.

(** [torch.sort] of a row of indices, ascending. *)
Fixpoint insert_sorted (n : nat) (l : list nat) : list nat :=
  match l with
  | [] => [n]
  | m :: l' => if Nat.leb n m then n :: l else m :: insert_sorted n l'
  end.

Definition torch_sort (l : list nat) : list nat := fold_right insert_sorted [] l.

(** [t[a:b]] along the first axis, for bounds that are not negative. *)
Definition slice {A : Type} (a b : nat) (l : list A) : list A :=
  firstn (b - a) (skipn a l).

(** [dst[a:b] = src] along the first axis: the slot, clipped to [dst], and
    [src] must have the same number of rows. *)
Definition assign_rows {A : Type} (dst : list A) (a b : nat) (src : list A) : result (list A) :=
  if Nat.eqb (length (slice a b dst)) (length src)
  then Ok (firstn a dst ++ src ++ skipn (Nat.max a b) dst)
  else Raise RuntimeError.

(** A zip that insists on equal lengths, for axes that never broadcast. *)
Definition mapM2s {A B C : Type} (f : A -> B -> result C)
           (xs : list A) (ys : list B) : result (list C) :=
  if Nat.eqb (length xs) (length ys) then mapM2 f xs ys else Raise RuntimeError.

(** [torch.zeros(B, H, L, D)] *)
Definition zeros4 (B H L D : nat) : tensor4 :=
  repeat (repeat (repeat (repeat 0 D) L) H) B.

(** ** The class [RoPE]

    The module holds its two tables in [cos_cached] and [sin_cached], which
    [_build_cache] assigns together; they are one optional pair here.  The
    input has four axes. *)

Module RoPE.

Record t : Type := {
  base : R;
  d : Z;
  cached : option (mat * mat)
}.

(** [x.shape[-1]] *)
Definition size3 (x : tensor4) : nat := length (hd [] (hd [] (hd [] x))).

(** [RoPE._build_cache]: nothing is done when the tables are there; the
    tables have one row for every index of the leading axis of [x]. *)
Definition _build_cache (s : t) (x : tensor4) : t :=
  match cached s with
  | Some _ => s
  | None =>
    let head_dim := size3 x in
    let theta := map (fun i => 1 / Rpower (base s) (INR i / IZR (d s))) (arange2 head_dim) in
    let seq_idx := map INR (seq 0 (length x)) in
    let idx_theta := map (fun n => map (fun th => n * th) theta) seq_idx in
    let cos_cache := map (map cos) idx_theta in
    let sin_cache := map (map sin) idx_theta in
    {| base := base s; d := d s;
       cached := Some (map (fun r => r ++ r) cos_cache, map (fun r => r ++ r) sin_cache) |}
  end.

(** [RoPE._neg_half] *)
Definition _neg_half (x : tensor4) : tensor4 :=
  let head_dim := size3 x in
  let d_2 := Nat.div head_dim 2 in
  map (map (map (fun r => map Ropp (skipn d_2 r) ++ firstn d_2 r))) x.

(** An elementwise operation of a tensor of four axes with a table that has
    two unit axes in front. *)
Definition ew4 (op : R -> R -> R) (x : tensor4) (table : mat) : result tensor4 :=
  mapM (mapM (fun xs => ew op xs table)) x.

(** [RoPE.forward]: the module after the call and the result.  The tables
    are built before anything can raise. *)
Definition forward (s : t) (x : tensor4) : t * result tensor4 :=
  let s :=
    match cached s with
    | None => _build_cache s x
    | Some (cos_cached, _) =>
      if negb (Nat.eqb (length cos_cached) (size1 x)) then _build_cache s x else s
    end in
  (s,
   match cached s with
   | None => Raise RuntimeError (* not reached: the tables are set above *)
   | Some (cos_cached, sin_cached) =>
     let x_rope := x in
     let neg_half_x := _neg_half x_rope in
     a <- ew4 Rmult x_rope (firstn (size1 x) cos_cached) ;;
     b <- ew4 Rmult neg_half_x (firstn (size1 x) sin_cached) ;;
     mapM2 (mapM2 (ew Rplus)) a b
   end).

End RoPE.

(** ** The attention module *)

Section AttnModule.

(** Primitives of the array library that the module calls.  [topk scores k]
    is the index half of [torch.topk] for a count within range; which of
    several equal scores it prefers is left open.  The attention primitive
    and the dropout layers draw from the library's random generator, whose
    state is held fixed; they are functions here, as they return on the
    shapes that [forward] hands them. *)
Variable topk : vec -> nat -> list nat.
Variable scaled_dot_product_attention :
  tensor4 -> tensor4 -> tensor4 -> bool (* is_causal *) -> R (* dropout_p *) -> tensor4.
Variable nn_dropout : R -> bool (* training *) -> tensor3 -> tensor3.
Variable gelu : R -> R.

(** [torch.topk(scores, k)]: values and indices; a count that is negative or
    exceeds the number of scores raises. *)
Definition torch_topk (scores : vec) (k : Z) : result (vec * list nat) :=
  if (k <? 0)%Z || (Z.of_nat (length scores) <? k)%Z then Raise RuntimeError
  else let indices := topk scores (Z.to_nat k) in
       Ok (map (fun i => nth i scores 0) indices, indices).

(** [Attn._compress_tokens] *)
Definition _compress_tokens (m : Attn) (x : tensor3) : result tensor3 :=
  let T := size1 x in
  let C := size1 (hd [] x) in
  let bs := block_size (cfg m) in
  if Nat.eqb bs 0 then Raise ZeroDivisionError else
  let padded_len := (Nat.div (T + bs - 1) bs * bs)%nat in
  let x_padded :=
    if Nat.ltb T padded_len
    then map (fun xb => xb ++ repeat (repeat 0 C) (padded_len - T)) x
    else x in
  let blocks : tensor4 :=
    map (fun xb => map (fun j => slice (j * bs) (j * bs + bs) xb)
                       (seq 0 (Nat.div padded_len bs))) x_padded in
  pos_encoded_blocks <- mapM (mapM (fun blk => ew Rplus blk (intra_block_pos_encoding m))) blocks ;;
  let blocks_flat : tensor3 := map (map (@concat R)) pos_encoded_blocks in
  let compressed_blocks :=
    linear3 (snd (block_compressor m))
            (map (map (map gelu)) (linear3 (fst (block_compressor m)) blocks_flat)) in
  Ok compressed_blocks.

(** [Attn._select_important_tokens] *)
Definition _select_important_tokens (m : Attn) (x importance_scores : tensor3)
  : result (tensor3 * list (list nat)) :=
  let T := size1 x in
  let k := Z.min (num_tokens_to_keep (cfg m)) (Z.of_nat T) in
  indices <- mapM (fun sb => '(_, indices) <- torch_topk (map (fun r => nth 0 r 0) sb) k ;;
                             Ok (torch_sort indices)) importance_scores ;;
  let selected_tokens := zipWith (fun xb ib => map (fun i => nth i xb []) ib) x indices in
  Ok (selected_tokens, indices).

(** The indices that [_select_important_tokens] returns for one batch item. *)
Definition selected_indices_of (m : Attn) (T : nat) (sb : mat) : list nat :=
  torch_sort (topk (map (fun r => nth 0 r 0) sb)
                   (Z.to_nat (Z.min (num_tokens_to_keep (cfg m)) (Z.of_nat T)))).

(** [Attn._get_sliding_window_tokens] *)
Definition _get_sliding_window_tokens (m : Attn) (x : tensor3) (current_pos : option Z) : tensor3 :=
  match current_pos with
  | None => x
  | Some current_pos =>
    if training m then x
    else
      let T := size1 x in
      let window_start := Z.max 0 (current_pos - Z.of_nat (window_size (cfg m)) / 2) in
      let window_end := Z.min (Z.of_nat T) (window_start + Z.of_nat (window_size (cfg m))) in
      map (slice (Z.to_nat window_start) (Z.to_nat window_end)) x
  end.

(** The gate of [forward]:
    [F.softmax(self.branch_gate(x).mean(dim=1), dim=-1)], one row per batch
    item; [None] stands for a row that is not a number. *)
Definition branch_weights (m : Attn) (x : tensor3) : list (option vec) :=
  map (fun xb => option_map softmax
                   (mean_rows (length (branch_gate m)) (map (linear (branch_gate m)) xb))) x.

(** [w[:, i].view(B, 1, 1, 1)] as a factor of a branch output.  A row of the
    gate is not a number only for an empty sequence, where the branch output
    has no entry to scale. *)
Definition weight_at (w : option vec) (i : nat) : R :=
  match w with
  | Some l => nth i l 0
  | None => 0
  end.

Definition blend (ws : list (option vec)) (o1 o2 o3 : tensor4) : tensor4 :=
  let scaled (i : nat) (o : tensor4) : tensor4 :=
    zipWith (fun w ob => map (map (map (Rmult (weight_at w i)))) ob) ws o in
  add4 (add4 (scaled 0%nat o1) (scaled 1%nat o2)) (scaled 2%nat o3).

(** Queries of [forward]. *)
Definition queries (m : Attn) (x : tensor3) : result tensor4 :=
  let c := cfg m in
  let compressed_q := linear3 (compress_q_linear m) x in
  let norm_q := rms_norm3 (rms_norm_eps c) (q_norm m) compressed_q in
  let query_nope := linear3 (decompress_q_nope m) norm_q in
  let query_rope := linear3 (decompress_q_rope m) norm_q in
  let query_nope := split_heads (n_head c) nope_head_dim query_nope in
  let query_rope := split_heads (n_head c) rope_head_dim query_rope in
  '(q_rope, _) <- apply_rope4 query_rope query_rope (freqs_cis m) ;;
  Ok (recombine query_nope q_rope).

(** Branch 1 of [forward]: keys and values of the compressed branch. *)
Definition global_branch (m : Attn) (x : tensor3) (v1 : option tensor4)
  : result (tensor4 * tensor4) :=
  let c := cfg m in
  let compressed_kv := linear3 (compress_kv_linear m) x in
  let norm_kv := rms_norm3 (rms_norm_eps c) (kv_norm m) compressed_kv in
  let key_nope_1 := linear3 (decompress_k_nope m) norm_kv in
  let value_1 := linear3 (decompress_v_linear m) norm_kv in
  let key_rope_1 := linear3 (k_rope_linear m) x in
  let key_nope_1 := split_heads (n_head c) nope_head_dim key_nope_1 in
  let key_rope_1 := split_heads 1 rope_head_dim key_rope_1 in
  let value_1 := split_heads (n_head c) v_head_dim value_1 in
  value_1 <- match v1 with
             | Some v1 =>
               v1 <- view_as v1 value_1 ;;
               Ok (add4 (scale4 (1 - lamb_v m) value_1) (scale4 (lamb_v m) v1))
             | None => Ok value_1
             end ;;
  let key_rope_1 := map (map (map (map (fun a => a / INR (n_head c))))) key_rope_1 in
  '(_, k_rope_1) <- apply_rope4 key_rope_1 key_rope_1 (freqs_cis m) ;;
  Ok (recombine key_nope_1 k_rope_1, value_1).

(** Branch 2 of [forward]: keys and values of the selected tokens, with the
    indices that [_select_important_tokens] chose. *)
Definition selection_branch (m : Attn) (x : tensor3)
  : result (tensor4 * tensor4 * list (list nat)) :=
  let c := cfg m in
  let importance_scores := linear3 (importance_scorer m) x in
  '(selected_tokens, selected_indices) <- _select_important_tokens m x importance_scores ;;
  let k_selected := linear3 (selection_k m) selected_tokens in
  let v_selected := linear3 (selection_v m) selected_tokens in
  let k_selected := split_heads (n_head c) (rope_head_dim + nope_head_dim) k_selected in
  let v_selected := split_heads (n_head c) v_head_dim v_selected in
  let k_selected_rope := map (map (map (skipn nope_head_dim))) k_selected in
  let k_selected_nope := map (map (map (firstn nope_head_dim))) k_selected in
  '(_, k_selected_rope) <- apply_rope4 k_selected_rope k_selected_rope (freqs_cis m) ;;
  Ok (recombine k_selected_nope k_selected_rope, v_selected, selected_indices).

(** Branch 3 of [forward]: keys and values of the window branch. *)
Definition window_branch (m : Attn) (x : tensor3) : result (tensor4 * tensor4) :=
  let c := cfg m in
  let window_tokens := _get_sliding_window_tokens m x None in
  let k_window := linear3 (window_k m) window_tokens in
  let v_window := linear3 (window_v m) window_tokens in
  let k_window := split_heads (n_head c) (rope_head_dim + nope_head_dim) k_window in
  let v_window := split_heads (n_head c) v_head_dim v_window in
  let k_window_rope := map (map (map (skipn nope_head_dim))) k_window in
  let k_window_nope := map (map (map (firstn nope_head_dim))) k_window in
  '(_, k_window_rope) <- apply_rope4 k_window_rope k_window_rope (freqs_cis m) ;;
  Ok (recombine k_window_nope k_window_rope, v_window).

(** The cache that an inference call of batch size [B] appends to: the
    module's own, or a fresh one when there is none or its batch size
    differs. *)
Definition cache_for_batch (m : Attn) (B : nat) : tensor4 * tensor4 * nat :=
  let c := cfg m in
  match k_cache m, v_cache m with
  | Some kc, Some vc =>
    if Nat.eqb (length kc) B then (kc, vc, cache_filled m)
    else (zeros4 B (n_head c) (ctx_len c) (rope_head_dim + nope_head_dim),
          zeros4 B (n_head c) (ctx_len c) v_head_dim, 0%nat)
  | _, _ => (zeros4 B (n_head c) (ctx_len c) (rope_head_dim + nope_head_dim),
             zeros4 B (n_head c) (ctx_len c) v_head_dim, 0%nat)
  end.

(** The inference cache step of [forward]: (re)allocation, then the clipped
    append.  The module it returns holds the new caches and fill pointer. *)
Definition cache_update (m : Attn) (B T : nat) (k_recombined_1 value_1 : tensor4)
  : result Attn :=
  let c := cfg m in
  let '(k_cache0, v_cache0, cache_filled0) := cache_for_batch m B in
  let new_cache_filled := Nat.min (cache_filled0 + T) (ctx_len c) in
  let k_to_cache := map (map (firstn (new_cache_filled - cache_filled0))) k_recombined_1 in
  let v_to_cache := map (map (firstn (new_cache_filled - cache_filled0))) value_1 in
  k_cache1 <- mapM2s (mapM2s (fun dst src => assign_rows dst cache_filled0 new_cache_filled src))
                     k_cache0 k_to_cache ;;
  v_cache1 <- mapM2s (mapM2s (fun dst src => assign_rows dst cache_filled0 new_cache_filled src))
                     v_cache0 v_to_cache ;;
  Ok (set_cache m (Some k_cache1) (Some v_cache1) new_cache_filled).

(** [Attn.forward]: the output, the value tensor of the compressed branch and
    the module after the call. *)
Definition forward (m : Attn) (x : tensor3) (v1 : option tensor4)
  : result (tensor3 * tensor4 * Attn) :=
  let c := cfg m in
  let B := length x in
  let T := size1 x in
  q_recombined <- queries m x ;;
  let branch_weights := branch_weights m x in
  '(k_recombined_1, value_1) <- global_branch m x v1 ;;
  '(k_selected, v_selected, _) <- selection_branch m x ;;
  '(k_window, v_window) <- window_branch m x ;;
  '(blended_output, m') <-
    (if training m then
       let m' := set_cache m (k_cache m) (v_cache m) 0 in
       let output_1 := scaled_dot_product_attention q_recombined k_recombined_1 value_1 true (dropout c) in
       let output_2 := scaled_dot_product_attention q_recombined k_selected v_selected false (dropout c) in
       let output_3 := scaled_dot_product_attention q_recombined k_window v_window true (dropout c) in
       Ok (blend branch_weights output_1 output_2 output_3, m')
     else
       m' <- cache_update m B T k_recombined_1 value_1 ;;
       let k1 := match k_cache m' with
                 | Some kc => map (map (firstn (cache_filled m'))) kc
                 | None => []
                 end in
       let v1_cache := match v_cache m' with
                       | Some vc => map (map (firstn (cache_filled m'))) vc
                       | None => []
                       end in
       let output_1 := scaled_dot_product_attention q_recombined k1 v1_cache true 0 in
       let output_2 := scaled_dot_product_attention q_recombined k_selected v_selected false 0 in
       let output_3 := scaled_dot_product_attention q_recombined k_window v_window true 0 in
       Ok (blend branch_weights output_1 output_2 output_3, m')) ;;
  let output := merge_heads T blended_output in
  let output := linear3 (proj m) output in
  let output := nn_dropout (dropout c) (training m') output in
  Ok (output, value_1, m').

(** The module that a raising cache step leaves behind: the (re)allocation
    is done before the slice assignments, the key cache is written before
    the value cache, and the fill pointer is assigned last. *)
Definition cache_update_raised (m : Attn) (B T : nat) (k_recombined_1 : tensor4) : Attn :=
  let c := cfg m in
  let '(k_cache0, v_cache0, cache_filled0) := cache_for_batch m B in
  let new_cache_filled := Nat.min (cache_filled0 + T) (ctx_len c) in
  let k_to_cache := map (map (firstn (new_cache_filled - cache_filled0))) k_recombined_1 in
  match mapM2s (mapM2s (fun dst src => assign_rows dst cache_filled0 new_cache_filled src))
               k_cache0 k_to_cache with
  | Ok k_cache1 => set_cache m (Some k_cache1) (Some v_cache0) cache_filled0
  | Raise _ => set_cache m (Some k_cache0) (Some v_cache0) cache_filled0
  end.

(** What a call of [forward] leaves in the module: the module it returns
    or, when the call raises, the module at the point of the exception.  A
    call that raises before the attention step has assigned no attribute; in
    inference mode the only later operations that can raise are the slice
    assignments of the cache step. *)
Definition module_after (m : Attn) (x : tensor3) (v1 : option tensor4) : Attn :=
  match forward m x v1 with
  | Ok (_, _, m') => m'
  | Raise _ =>
    match (_ <- queries m x ;;
           kv <- global_branch m x v1 ;;
           _ <- selection_branch m x ;;
           _ <- window_branch m x ;;
           Ok kv) with
    | Ok (k_recombined_1, _) =>
      if training m then m
      else cache_update_raised m (length x) (size1 x) k_recombined_1
    | Raise _ => m
    end
  end.

(** The module after a sequence of calls, each with its input and its
    optional carried value tensor. *)
Fixpoint forward_calls (m : Attn) (calls : list (tensor3 * option tensor4)) : Attn :=
  match calls with
  | [] => m
  | (x, v1) :: rest => forward_calls (module_after m x v1) rest
  end.

End AttnModule.

(** ** Mixture of experts *)

(** A number of the array library: a real, or a value that is not finite
    (the quotient of anything by zero and whatever is computed from it). *)
Inductive xreal : Type :=
| Finite (r : R)
| NonFinite.

Definition xdiv (a b : R) : xreal :=
  if Req_dec_T b 0 then NonFinite else Finite (a / b).

Definition xadd (a b : xreal) : xreal :=
  match a, b with
  | Finite u, Finite v => Finite (u + v)
  | _, _ => NonFinite
  end.

Definition xscale (a : xreal) (c : R) : xreal :=
  match a with
  | Finite u => Finite (u * c)
  | NonFinite => NonFinite
  end.





Record MLP : Type := {
  c_fc : mat;
  c_proj : mat
}.

Record DSMoE : Type := {
  num_experts : nat;
  num_exp : Z;
  experts : list MLP;
  gate : mat;
  noise_scaling : R;
  expert_bias : vec;
  moe_training : bool
}.

Definition set_expert_bias (m : DSMoE) (b : vec) : DSMoE :=
  {| num_experts := num_experts m; num_exp := num_exp m; experts := experts m;
     gate := gate m; noise_scaling := noise_scaling m; expert_bias := b;
     moe_training := moe_training m |}.

(** A 2-axis tensor with its number of columns, which a tensor without rows
    still has. *)
Record tensor2 : Type := {
  ncols : nat;
  rows : mat
}.

(** [row.scatter_add_(0, [j], [v])] on one row: an index past the end raises. *)
Definition scatter_add (row : list xreal) (j : nat) (v : xreal) : result (list xreal) :=
  if Nat.ltb j (length row)
  then Ok (firstn j row ++ xadd (nth j row (Finite 0)) v :: skipn (S j) row)
  else Raise RuntimeError.

Section MoE.

Variable topk : vec -> nat -> list nat.
Variable nn_dropout2 : bool (* training *) -> mat -> mat.
(** [torch.rand] of [UnitCenteredNoise]: the draw for each entry. *)
Variable noise : nat -> nat -> R.

(** [MLP.forward] *)
Definition MLP_forward (e : MLP) (training : bool) (x : mat) : mat :=
  let x := map (linear (c_fc e)) x in
  let x := map (map (fun a => Rmax a 0 * Rmax a 0)) x in
  let x := map (linear (c_proj e)) x in
  nn_dropout2 training x.

(** [UnitCenteredNoise.forward] on row [n] *)
Definition UnitCenteredNoise_forward (scaling : R) (training : bool) (n : nat) (x : vec) : vec :=
  let base := 1 - scaling * (5 / 10) in
  if training
  then zipWith (fun j a => a * (noise n j * scaling + base)) (seq 0 (length x)) x
  else x.

(** [self.gate] on row [n]: linear scorer, noise, softmax *)
Definition gate_forward (m : DSMoE) (n : nat) (x : vec) : vec :=
  softmax (UnitCenteredNoise_forward (noise_scaling m) (moe_training m) n (linear (gate m) x)).

(** The routing of one token of [DSMoE.forward]: the normalised weights of the
    shared and the selected experts, with their columns. *)
Definition route_token (m : DSMoE) (n : nat) (x : vec) : result (list xreal * list nat) :=
  let gate_val_continuous := gate_forward m n x in
  biased_gate_vals <- broadcast2 (fun a b => Ok (a + b)) gate_val_continuous (expert_bias m) ;;
  '(gate_vals, gate_val_indices) <- torch_topk topk biased_gate_vals (num_exp m - 1) ;;
  let gate_vals := map (fun v => xdiv v (sum gate_vals)) gate_vals in
  let shared_expert_weight := map (fun _ => xdiv 1 (IZR (num_exp m))) (firstn 1 gate_vals) in
  let gate_vals :=
    shared_expert_weight
      ++ map (fun v => match xscale v (IZR (num_exp m - 1)) with
                       | Finite u => xdiv u (IZR (num_exp m))
                       | NonFinite => NonFinite
                       end) gate_vals in
  let gate_val_indices := map (fun _ => 0%nat) (firstn 1 gate_val_indices) ++ map S gate_val_indices in
  Ok (gate_vals, gate_val_indices).

(** The row of [router_weights] of one token: [num_exp] rounds of
    [scatter_add_] into a row of zeros. *)
Fixpoint scatter_rounds (row : list xreal) (gate_vals : list xreal) (gate_val_indices : list nat)
         (rounds : list nat) : result (list xreal) :=
  match rounds with
  | [] => Ok row
  | i :: rounds' =>
    row' <- match nth_error gate_val_indices i, nth_error gate_vals i with
            | Some idx, Some val => scatter_add row idx val
            | _, _ => Ok row
            end ;;
    scatter_rounds row' gate_vals gate_val_indices rounds'
  end.

Definition router_row (m : DSMoE) (n : nat) (x : vec) : result (list xreal) :=
  '(gate_vals, gate_val_indices) <- route_token m n x ;;
  scatter_rounds (repeat (Finite 0) (num_experts m)) gate_vals gate_val_indices
                 (seq 0 (Z.to_nat (num_exp m))).

(** [DSMoE.forward]: the output and [router_weights], one row per token of the
    flattened batch. *)
Definition DSMoE_forward (m : DSMoE) (x : tensor3) : result (list (list xreal) * list (list xreal)) :=
  let x_flat := concat x in
  router_weights <- mapM2 (router_row m) (seq 0 (length x_flat)) x_flat ;;
  let expert_outputs := map (fun e => MLP_forward e (moe_training m) x_flat) (experts m) in
  let output :=
    zipWith (fun n w =>
               fold_right (zipWith xadd) (repeat (Finite 0) (size1 x_flat))
                          (zipWith (fun eo we => map (xscale we) (nth n eo [])) expert_outputs w))
            (seq 0 (length x_flat)) router_weights in
  Ok (output, router_weights).

(** The scores from which the experts of token [n] are chosen, and the scores
    of the chosen experts. *)
Definition biased_scores (m : DSMoE) (n : nat) (x : list R) : list R :=
  zipWith Rplus (gate_forward m n x) (expert_bias m).

Definition selected_scores (m : DSMoE) (n : nat) (x : list R) : list R :=
  map (fun i => nth i (biased_scores m n x) 0)
      (topk (biased_scores m n x) (Z.to_nat (num_exp m - 1))).

End MoE.

(** ** Bias balancer *)

Inductive ffn_layer : Type :=
| FfnMLP (e : MLP)
| FfnMoE (m : DSMoE).

(** A block, with its attention module and its feed-forward layer. *)
Record Block : Type := {
  attn : Attn;
  ffn : ffn_layer
}.

(** [torch.sign] *)
Definition sign (x : R) : R :=
  if Rlt_dec 0 x then 1 else if Rlt_dec x 0 then -1 else 0.

(** [dst.add_(src)]: [src] must broadcast to the shape of [dst]. *)
Definition add_ (dst src : vec) : result vec :=
  if Nat.eqb (length src) (length dst) then Ok (zipWith Rplus dst src)
  else match src with
       | [s] => Ok (map (fun d => d + s) dst)
       | _ => Raise RuntimeError
       end.

(** The body of the loop of [Transformer.update_expert_biases] for one
    mixture-of-experts block.  The router weights are finite here.  The
    quotient by [num_experts - 1] is by zero only for a module with a single
    expert, whose bias has no component. *)
Definition update_expert_bias (m : DSMoE) (router_weights : tensor2) (update_rate : R)
  : result DSMoE :=
  let c_i := map (fun j => sum (map (fun r => nth j r 0) (rows router_weights)))
                 (seq 1 (ncols router_weights - 1)) in
  let total_routed_tokens := sum c_i in
  let c_i_bar := total_routed_tokens / INR (num_experts m - 1) in
  let e_i := map (fun c => c - c_i_bar) c_i in
  b <- add_ (expert_bias m) (map (fun e => update_rate * sign e) e_i) ;;
  Ok (set_expert_bias m b).

(** [Transformer.update_expert_biases]: [j] counts the mixture-of-experts
    blocks met so far. *)
Fixpoint update_expert_biases_from (j : nat) (blocks : list Block)
         (all_router_weights : list tensor2) (update_rate : R) : result (list Block) :=
  match blocks with
  | [] => Ok []
  | block :: blocks' =>
    match ffn block with
    | FfnMoE m =>
      match nth_error all_router_weights j with
      | None => Raise IndexError
      | Some router_weights =>
        m' <- update_expert_bias m router_weights update_rate ;;
        rest <- update_expert_biases_from (S j) blocks' all_router_weights update_rate ;;
        Ok ({| attn := attn block; ffn := FfnMoE m' |} :: rest)
      end
    | FfnMLP _ =>
      rest <- update_expert_biases_from j blocks' all_router_weights update_rate ;;
      Ok (block :: rest)
    end
  end.

Definition update_expert_biases (blocks : list Block) (all_router_weights : list tensor2)
           (update_rate : R) : result (list Block) :=
  update_expert_biases_from 0 blocks all_router_weights update_rate.

(** ** Generation

    [Transformer.generate].  A logit is a real number or, once masked, the
    [-float('Inf')] of the source.  The model that [generate] calls, with
    all that it holds (weights, caches, the state of the random generator),
    is a state of type [St]; the forward pass and [torch.multinomial] act on
    it.  The logits that the forward pass returns are taken to be real
    numbers, as its last step, [30 * tanh(x / 30)], gives on every input
    that is a number. *)

Inductive logit : Type :=
| Fin (r : R)
| NegInf.

Definition logit_lt (a b : logit) : Prop :=
  match a, b with
  | Fin x, Fin y => x < y
  | NegInf, Fin _ => True
  | _, NegInf => False
  end.

Definition logit_lt_dec (a b : logit) : {logit_lt a b} + {~ logit_lt a b}.
Proof.
  destruct a as [x|], b as [y|]; simpl; [apply Rlt_dec|right; tauto|left; exact I|right; tauto].
Defined.

(** The values of [torch.topk(row, k)]: the [k] largest, from the largest
    down. *)
Fixpoint insert_logit (a : logit) (l : list logit) : list logit :=
  match l with
  | [] => [a]
  | b :: l' => if logit_lt_dec b a then a :: l else b :: insert_logit a l'
  end.

Definition sort_logits (l : list logit) : list logit := fold_right insert_logit [] l.

Definition topk_values (row : list logit) (k : nat) : list logit := firstn k (sort_logits row).

(** The first index of the slice [row[s:]] of a row of [n] entries. *)
Definition slice_start (s : Z) (n : nat) : nat :=
  if (s <? 0)%Z then Z.to_nat (Z.max 0 (Z.of_nat n + s)) else Z.to_nat s.

(** [row[start:] = -float('Inf')] *)
Definition mask_from (start : nat) (row : list logit) : list logit :=
  firstn start row ++ map (fun _ => NegInf) (skipn start row).

Definition exp_logit (a : logit) : R :=
  match a with
  | Fin r => exp r
  | NegInf => 0
  end.

(** [F.softmax(row, dim=-1)]; [None] is a row that is not a number, which a
    row without a finite logit gives. *)
Definition softmax_logits (row : list logit) : option (list R) :=
  let z := sum (map exp_logit row) in
  if Req_dec_T z 0 then None else Some (map (fun a => exp_logit a / z) row).

(** [idx[:, start_pos:]] with [start_pos = max(0, idx.size(1) - ctx_len)] *)
Definition idx_cond (ctx_len : nat) (idx : list (list nat)) : list (list nat) :=
  let start_pos := (size1 idx - ctx_len)%nat in
  map (skipn start_pos) idx.

(** [logits[:, -1, :]] *)
Definition last_position (logits : tensor3) : result mat :=
  mapM (fun lb => match lb with
                  | [] => Raise IndexError
                  | _ => Ok (last lb [])
                  end) logits.

(** The top-k step of [generate], on a batch that is not empty. *)
Definition apply_top_k (top_k : option Z) (logits : list (list logit))
  : result (list (list logit)) :=
  match top_k with
  | Some top_k =>
    if (0 <? top_k)%Z then
      let k := Z.to_nat (Z.min top_k (Z.of_nat (size1 logits))) in
      if Nat.eqb k 0 then Raise IndexError
      else Ok (map (fun row =>
                      let kth_logit_value := last (topk_values row k) NegInf in
                      map (fun a => if logit_lt_dec a kth_logit_value then NegInf else a) row)
                   logits)
    else Ok logits
  | None => Ok logits
  end.

(** [torch.cat((idx, idx_next), dim=1)] *)
Definition cat_tokens (idx : list (list nat)) (idx_next : list nat) : result (list (list nat)) :=
  if Nat.eqb (length idx) (length idx_next)
  then Ok (zipWith (fun row t => row ++ [t]) idx idx_next)
  else Raise RuntimeError.

Section Generate.

Variable St : Type.
(** [self(idx_cond)]: the logits and the model after the call. *)
Variable self_forward : St -> list (list nat) -> result (tensor3 * St).
(** [torch.multinomial(probs, num_samples=1)] on rows that are distributions. *)
Variable multinomial : St -> mat -> list nat * St.
(** [self.blocks] *)
Variable blocks : St -> list Block.
(** [element_size()] of the cache tensors *)
Variable element_size : nat.
(** [config['vocab_size']] and [config['ctx_len']] *)
Variable vocab_size : Z.
Variable config_ctx_len : nat.

(** The logits of one step, from the division by the temperature to the
    top-k step.  The quotient is a real number, as it is in the program for
    logits within the bound of the forward pass and a temperature of at
    least [1e-6], the value that [generate] itself puts in place of a
    temperature that is not positive; the property that [generate] returns
    takes both as hypotheses ([logits_bounded]). *)
Definition step_logits (use_vocab_mask : bool) (tiktoken_vocab_size : Z) (top_k : option Z)
           (temperature : R) (logits : mat) : result (list (list logit)) :=
  let logits := map (map (fun a => Fin (a / temperature))) logits in
  let logits :=
    if use_vocab_mask
    then map (fun row => mask_from (slice_start tiktoken_vocab_size (length row)) row) logits
    else logits in
  apply_top_k top_k logits.

(** [torch.multinomial] of the softmax: a row that is not a number makes
    the sampling raise. *)
Definition sample (st : St) (logits : list (list logit)) : result (list nat * St) :=
  probs <- mapM (fun row => match softmax_logits row with
                            | Some p => Ok p
                            | None => Raise RuntimeError
                            end) logits ;;
  Ok (multinomial st probs).

(** One round of the loop of [generate]. *)
Definition generate_step (use_vocab_mask : bool) (tiktoken_vocab_size : Z) (top_k : option Z)
           (temperature : R) (st : St) (idx : list (list nat))
  : result (list (list nat) * St) :=
  '(logits, st) <- self_forward st (idx_cond config_ctx_len idx) ;;
  logits <- last_position logits ;;
  logits <- step_logits use_vocab_mask tiktoken_vocab_size top_k temperature logits ;;
  '(idx_next, st) <- sample st logits ;;
  idx <- cat_tokens idx idx_next ;;
  Ok (idx, st).

Fixpoint generate_loop (n : nat) (use_vocab_mask : bool) (tiktoken_vocab_size : Z)
         (top_k : option Z) (temperature : R) (st : St) (idx : list (list nat))
  : result (list (list nat) * St) :=
  match n with
  | O => Ok (idx, st)
  | S n' =>
    '(idx, st) <- generate_step use_vocab_mask tiktoken_vocab_size top_k temperature st idx ;;
    generate_loop n' use_vocab_mask tiktoken_vocab_size top_k temperature st idx
  end.

(** The size of one cache in GiB. *)
Definition cache_size_gb (cache : option tensor4) : R :=
  match cache with
  | Some c => INR (length (flatten4 c) * element_size) / 1024 ^ 3
  | None => 0
  end.

Definition total_size_gb (st : St) : R :=
  fold_left (fun total block =>
               total + cache_size_gb (k_cache (attn block))
               + cache_size_gb (v_cache (attn block)))
            (blocks st) 0.

(** [Transformer.generate]: the tokens, the size of the caches and the model
    after the call. *)
Definition generate (st : St) (idx : list (list nat)) (max_new_tokens : Z) (temperature : R)
           (top_k : option Z) (tiktoken_vocab_size : option Z)
  : result (list (list nat) * R * St) :=
  let temperature := if Rle_dec temperature 0 then 1 / 1000000 else temperature in
  let use_vocab_mask :=
    match tiktoken_vocab_size with
    | Some t => (t <? vocab_size)%Z
    | None => false
    end in
  let t := match tiktoken_vocab_size with
           | Some t => t
           | None => 0%Z
           end in
  '(idx, st) <- generate_loop (Z.to_nat max_new_tokens) use_vocab_mask t top_k temperature
                              st idx ;;
  Ok (idx, total_size_gb st, st).

End Generate.

(** ** The optimizers

    [Transformer.configure_optimizers].  A parameter is what the function
    reads of it: its name in [named_parameters()], [ndim] and
    [requires_grad]; the two counts that the function prints are left out,
    and so is [device], which it does not use. *)

Record parameter : Type := {
  name : String.string;
  ndim : nat;
  requires_grad : bool
}.

Inductive optimizer : Type :=
| Muon (params : list parameter) (lr momentum : R)
| AdamW (params : list parameter) (lr : R) (betas : R * R) (weight_decay : R).

(** [pattern in s] *)
Fixpoint contains (pattern s : String.string) : bool :=
  String.prefix pattern s
  || match s with
     | String.EmptyString => false
     | String.String _ s' => contains pattern s'
     end.

Definition muon_exclude_patterns : list String.string :=
  ["attn.intra_block_pos_encoding"%string;
   "attn.importance_scorer.weight"%string;
   "attn.importance_scorer.bias"%string;
   "attn.block_compressor"%string].

(** One round of the loop over [named_parameters()]. *)
Definition assign_parameter (lists : list parameter * list parameter) (param : parameter)
  : list parameter * list parameter :=
  let '(muon_params, adamw_params) := lists in
  if negb (requires_grad param) then lists
  else
    let is_excluded :=
      existsb (fun pattern => contains pattern (name param)) muon_exclude_patterns in
    if contains "blocks"%string (name param) && (2 <=? ndim param)%nat && negb is_excluded
    then (muon_params ++ [param], adamw_params)
    else (muon_params, adamw_params ++ [param]).

Definition configure_optimizers (named_parameters : list parameter)
           (weight_decay learning_rate : R) : list optimizer :=
  let '(muon_params, adamw_params) := fold_left assign_parameter named_parameters ([], []) in
  match muon_params with
  | [] => [AdamW adamw_params learning_rate (90 / 100, 95 / 100) weight_decay]
  | _ => [Muon muon_params (2 / 100) (95 / 100);
          AdamW adamw_params learning_rate (90 / 100, 95 / 100) weight_decay]
  end.

(** ** A selection primitive

    One function that meets what the module asks of [torch.topk]: the scores
    are ordered from the largest down, equal scores in the order of their
    indices, and the first [k] indices are returned. *)

Fixpoint insert_desc (p : nat * R) (l : list (nat * R)) : list (nat * R) :=
  match l with
  | [] => [p]
  | q :: l' => if Rlt_dec (snd q) (snd p) then p :: l else q :: insert_desc p l'
  end.

Definition sort_desc (l : list (nat * R)) : list (nat * R) := fold_right insert_desc [] l.

Definition topk_first (scores : vec) (k : nat) : list nat :=
  map fst (firstn k (sort_desc (combine (seq 0 (length scores)) scores))).

(** ** The rotation in the words of the specification

    The subspace is split into a real and an imaginary half, and position [p]
    is rotated by the table row [p]. *)

Definition rotate_row (cos_p sin_p v : vec) : vec :=
  let real := firstn (Nat.div (length v) 2) v in
  let imag := skipn (Nat.div (length v) 2) v in
  zipWith Rminus (zipWith Rmult real cos_p) (zipWith Rmult imag sin_p)
    ++ zipWith Rplus (zipWith Rmult real sin_p) (zipWith Rmult imag cos_p).

(** Row [j] of [x] rotated by the table row [nth j positions]. *)
Definition rotate_at (positions : list nat) (table : mat * mat) (x : mat) : mat :=
  zipWith (fun p v => rotate_row (nth p (fst table) []) (nth p (snd table) []) v) positions x.

Definition rotate_spec (table : mat * mat) (x : mat) : mat :=
  rotate_at (seq 0 (length x)) table x.

Definition negate_sin (table : mat * mat) : mat * mat :=
  (fst table, map (map Ropp) (snd table)).

(** * Shapes, invariants and examples *)

(** The predicates in which the properties below are stated, and small
    modules on which they are evaluated. *)

(** Two matrices of the same shape. *)
Definition same_shape (x y : mat) : Prop :=
  Forall2 (fun r s => length r = length s) x y.

(** A slice [x] of rows of width [2 * h] and a table of rows of width [h]
    that has a row for every position of [x]. *)
Definition rope_shaped (h : nat) (x : mat) (table : mat * mat) : Prop :=
  Forall (fun r => length r = (2 * h)%nat) x /\
  Forall (fun r => length r = h) (fst table) /\
  Forall (fun r => length r = h) (snd table) /\
  (length x <= length (fst table))%nat /\
  (length x <= length (snd table))%nat.

(** The rotation that [apply_rope] computes on well-shaped operands, before
    it is read position by position. *)
Definition rotated (x c s : mat) (h : nat) : mat :=
  zipWith (@app R)
    (zipWith (zipWith Rminus)
       (zipWith (zipWith Rmult) (map (firstn h) x) c)
       (zipWith (zipWith Rmult) (map (skipn h) x) s))
    (zipWith (zipWith Rplus)
       (zipWith (zipWith Rmult) (map (firstn h) x) s)
       (zipWith (zipWith Rmult) (map (skipn h) x) c)).

(** Every pair of entries of the table lies on the unit circle. *)
Definition unit_table (table : mat * mat) : Prop :=
  forall p j, nth j (nth p (fst table) []) 0 * nth j (nth p (fst table) []) 0
              + nth j (nth p (snd table) []) 0 * nth j (nth p (snd table) []) 0 = 1
              \/ (length (nth p (fst table) []) <= j)%nat.

(** The requirement in the words of the specification: a request longer
    than the table raises. *)
Definition raises_beyond_capacity (x y : mat) (table : mat * mat) : Prop :=
  (length (fst table) < length x)%nat -> exists e, apply_rope x y table = Raise e.

(** A configuration of one head over one input channel. *)
Definition example_config (T keep window : nat) : config :=
  {| n_embd := 1; n_head := 1; dropout := 0; ctx_len := T; rms_norm_eps := 1 / 1000000;
     block_size := 16; window_size := window; num_tokens_to_keep := Z.of_nat keep |}.

(** A weight matrix that reads the input channel into its first output. *)
Definition unit_rows (n : nat) : mat := [1] :: repeat [0] (n - 1).

(** A module of one head over one input channel: every projection reads the
    channel into its first output, and the rotary part of a key carries 1 in
    the first imaginary entry. *)
Definition example_attn (c : config) (train : bool) : Attn :=
  {| cfg := c; training := train; lamb_v := 5 / 10;
     compress_q_linear := unit_rows q_lora_rank; q_norm := repeat 1 q_lora_rank;
     decompress_q_nope := repeat (repeat 0 q_lora_rank) nope_head_dim;
     decompress_q_rope := repeat (repeat 0 q_lora_rank) rope_head_dim;
     compress_kv_linear := unit_rows kv_lora_rank; kv_norm := repeat 1 kv_lora_rank;
     decompress_k_nope := repeat (repeat 0 kv_lora_rank) nope_head_dim;
     decompress_v_linear := repeat (repeat 0 kv_lora_rank) v_head_dim;
     k_rope_linear := unit_rows rope_head_dim;
     importance_scorer := [[1]];
     selection_k := repeat [0] (nope_head_dim + 32) ++ [1] :: repeat [0] 31;
     selection_v := unit_rows v_head_dim;
     window_k := unit_rows (rope_head_dim + nope_head_dim);
     window_v := unit_rows v_head_dim;
     block_compressor := ([], []);
     intra_block_pos_encoding := [];
     branch_gate := [[1]; [0]; [0]];
     proj := [repeat 1 v_head_dim];
     k_cache := None; v_cache := None; cache_filled := 0;
     freqs_cis := precompute_freqs_cis rope_head_dim (ctx_len c) 10000 |}.

(** The keys of the selected tokens before the rotation, head by head. *)
Definition selected_keys (m : Attn) (x : tensor3) (indices : list (list nat)) : tensor4 :=
  split_heads (n_head (cfg m)) (rope_head_dim + nope_head_dim)
    (linear3 (selection_k m)
       (zipWith (fun xb ib => map (fun i => nth i xb []) ib) x indices)).

(** Keys whose rotary part is rotated by the positions [0 .. S-1] that the
    tokens have inside the selected set. *)
Definition keys_rotated_compacted (m : Attn) (K : tensor4) : tensor4 :=
  recombine (map (map (map (firstn nope_head_dim))) K)
            (map (map (rotate_spec (freqs_cis m))) (map (map (map (skipn nope_head_dim))) K)).

(** Keys whose rotary part is rotated by the indices that the selected tokens
    have in the input sequence, as the specification words it. *)
Definition keys_rotated_original (m : Attn) (indices : list (list nat)) (K : tensor4) : tensor4 :=
  recombine (map (map (map (firstn nope_head_dim))) K)
            (zipWith (fun ib kb => map (rotate_at ib (freqs_cis m)) kb) indices
                     (map (map (map (skipn nope_head_dim))) K)).

(** A tensor of [B] batch items, [H] heads and [L] positions. *)
Definition kv_shaped (B H L : nat) (t : tensor4) : Prop :=
  length t = B /\
  Forall (fun tb : tensor3 => length tb = H /\ Forall (fun th : mat => length th = L) tb) t.

(** A tensor of [B] batch items, [H] heads, [L] positions and [D] channels. *)
Definition shaped4 (B H L D : nat) (t : tensor4) : Prop :=
  length t = B /\
  Forall (fun tb : tensor3 =>
            length tb = H /\
            Forall (fun th : mat => length th = L /\ Forall (fun r : vec => length r = D) th) tb) t.

(** The invariant of the cache: the fill pointer is within the capacity, and
    the caches, when allocated, have one row per position of the context. *)
Definition cache_ok (m : Attn) : Prop :=
  (cache_filled m <= ctx_len (cfg m))%nat /\
  match k_cache m, v_cache m with
  | Some kc, Some vc =>
    kv_shaped (length kc) (n_head (cfg m)) (ctx_len (cfg m)) kc /\
    kv_shaped (length kc) (n_head (cfg m)) (ctx_len (cfg m)) vc
  | _, _ => True
  end.

(** The cache after rows [f0 .. nf-1] were overwritten by the first
    [nf - f0] new timesteps. *)
Definition cache_write (f0 nf : nat) (cache new : tensor4) : tensor4 :=
  zipWith (zipWith (fun dst src : mat => firstn f0 dst ++ firstn (nf - f0) src ++ skipn nf dst))
          cache new.

(** What [__init__] establishes and the calls of [forward] rely on: the
    output widths of the projections whose results are rotated or carried,
    the rotary table, a selection count that is not negative, and a positive
    [eps], with which the normalisation layers divide by a positive number. *)
Definition Attn_wf (m : Attn) : Prop :=
  length (decompress_q_rope m) = (n_head (cfg m) * rope_head_dim)%nat /\
  length (k_rope_linear m) = (1 * rope_head_dim)%nat /\
  length (selection_k m) = (n_head (cfg m) * (rope_head_dim + nope_head_dim))%nat /\
  length (window_k m) = (n_head (cfg m) * (rope_head_dim + nope_head_dim))%nat /\
  freqs_cis m = precompute_freqs_cis rope_head_dim (ctx_len (cfg m)) 10000 /\
  (0 <= num_tokens_to_keep (cfg m))%Z /\
  length (decompress_v_linear m) = (n_head (cfg m) * v_head_dim)%nat /\
  0 < rms_norm_eps (cfg m).

(** A batch of [T] positions within the context. *)
Definition input_ok (m : Attn) (x : tensor3) : Prop :=
  Forall (fun xb : mat => length xb = size1 x) x /\ (size1 x <= ctx_len (cfg m))%nat.

(** The value tensor of the compressed branch, as [forward] returns it for
    a carried tensor of the same shape. *)
Definition value_1_of (m : Attn) (x : tensor3) (v1 : option tensor4) : tensor4 :=
  let value_1 :=
    split_heads (n_head (cfg m)) v_head_dim
      (linear3 (decompress_v_linear m)
         (rms_norm3 (rms_norm_eps (cfg m)) (kv_norm m) (linear3 (compress_kv_linear m) x))) in
  match v1 with
  | Some v1 => add4 (scale4 (1 - lamb_v m) value_1) (scale4 (lamb_v m) v1)
  | None => value_1
  end.

(** The carried value tensor, when there is one, has the shape of the value
    tensor of the call. *)
Definition carried_ok (m : Attn) (x : tensor3) (v1 : option tensor4) : Prop :=
  match v1 with
  | Some t => shaped4 (length x) (n_head (cfg m)) (size1 x) v_head_dim t
  | None => True
  end.

(** Number of timesteps of a sequence of calls. *)
Fixpoint timesteps (calls : list (tensor3 * option tensor4)) : nat :=
  match calls with
  | [] => 0
  | (x, _) :: rest => size1 x + timesteps rest
  end.

(** A call of batch size [B] on a well-formed input. *)
Definition call_ok (m : Attn) (B : nat) (c : tensor3 * option tensor4) : Prop :=
  input_ok m (fst c) /\ carried_ok m (fst c) (snd c) /\ length (fst c) = B.

(** What a call returns to its caller. *)
Definition outputs (r : result (tensor3 * tensor4 * Attn)) : result (tensor3 * tensor4) :=
  match r with
  | Ok (out, value_1, _) => Ok (out, value_1)
  | Raise e => Raise e
  end.


(** A router over three routable experts and the shared one, with a scorer
    of zero weights, in evaluation mode. *)
Definition example_moe (bias : list R) (k : Z) : DSMoE :=
  {| num_experts := 4; num_exp := k;
     experts := repeat {| c_fc := [[1]]; c_proj := [[1]] |} 4;
     gate := [[0]; [0]; [0]]; noise_scaling := 2 / 100;
     expert_bias := bias; moe_training := false |}.

(** Observed load of routable expert [i]: the sum over all tokens of its
    routing weight, which sits in column [i + 1] (column 0 is the shared
    expert). *)
Definition expert_load (router_weights : tensor2) (i : nat) : R :=
  sum (map (fun r => nth (S i) r 0) (rows router_weights)).

(** Mean target load: the total routed weight over [num_experts - 1]. *)
Definition mean_load (router_weights : tensor2) (num_experts : nat) : R :=
  sum (map (expert_load router_weights) (seq 0 (num_experts - 1))) / INR (num_experts - 1).

(** How the loop of [update_expert_biases] relates a block to the block it
    leaves: a mixture-of-experts block gets the update for some entry of the
    router weights, any other block is left as it is. *)
Definition block_updated (all_router_weights : list tensor2) (update_rate : R)
           (b b' : Block) : Prop :=
  attn b' = attn b /\
  match ffn b, ffn b' with
  | FfnMLP e, FfnMLP e' => e' = e
  | FfnMoE mo, FfnMoE mo' =>
    exists rw, In rw all_router_weights /\ update_expert_bias mo rw update_rate = Ok mo'
  | _, _ => False
  end.

(** Number of mixture-of-experts blocks. *)
Fixpoint moe_count (blocks : list Block) : nat :=
  match blocks with
  | [] => 0
  | b :: rest => match ffn b with
                 | FfnMoE _ => S (moe_count rest)
                 | FfnMLP _ => moe_count rest
                 end
  end.

(** The inverse frequency of the [j]-th pair of a rotary subspace of [dim]
    channels, as [precompute_freqs_cis] computes it. *)
Definition inv_freq (dim : nat) (theta : R) (j : nat) : R :=
  1 / Rpower theta (INR (2 * j) / INR dim).

(** The rank of block [i] among the mixture-of-experts blocks: the number
    of such blocks before it. *)
Definition moe_rank (blocks : list Block) (i : nat) : nat :=
  moe_count (firstn i blocks).

(** The weight of [nn.Linear(n_in, n_out, bias=False)]. *)
Definition weight_shape (n_out n_in : nat) (W : mat) : Prop :=
  length W = n_out /\ Forall (fun w => length w = n_in) W.

(** The shapes that [__init__] gives to the weights that [forward] reads. *)
Definition Attn_shapes (m : Attn) : Prop :=
  weight_shape q_lora_rank (n_embd (cfg m)) (compress_q_linear m) /\
  length (q_norm m) = q_lora_rank /\
  weight_shape (n_head (cfg m) * nope_head_dim) q_lora_rank (decompress_q_nope m) /\
  weight_shape (n_head (cfg m) * rope_head_dim) q_lora_rank (decompress_q_rope m) /\
  weight_shape kv_lora_rank (n_embd (cfg m)) (compress_kv_linear m) /\
  length (kv_norm m) = kv_lora_rank /\
  weight_shape (n_head (cfg m) * nope_head_dim) kv_lora_rank (decompress_k_nope m) /\
  weight_shape (n_head (cfg m) * v_head_dim) kv_lora_rank (decompress_v_linear m) /\
  weight_shape rope_head_dim (n_embd (cfg m)) (k_rope_linear m) /\
  weight_shape 1 (n_embd (cfg m)) (importance_scorer m) /\
  weight_shape (n_head (cfg m) * (rope_head_dim + nope_head_dim)) (n_embd (cfg m))
               (selection_k m) /\
  weight_shape (n_head (cfg m) * v_head_dim) (n_embd (cfg m)) (selection_v m) /\
  weight_shape (n_head (cfg m) * (rope_head_dim + nope_head_dim)) (n_embd (cfg m))
               (window_k m) /\
  weight_shape (n_head (cfg m) * v_head_dim) (n_embd (cfg m)) (window_v m) /\
  weight_shape 3 (n_embd (cfg m)) (branch_gate m) /\
  weight_shape (n_embd (cfg m)) (n_head (cfg m) * v_head_dim) (proj m) /\
  (1 <= n_head (cfg m))%nat.

(** An input of [C] channels at every position. *)
Definition channels (C : nat) (x : tensor3) : Prop :=
  Forall (Forall (fun r : vec => length r = C)) x.

(** An input of at least one batch item and one position, with the
    [n_embd] channels that the projections of the module take. *)
Definition input_shaped (m : Attn) (x : tensor3) : Prop :=
  x <> [] /\ (1 <= size1 x)%nat /\ channels (n_embd (cfg m)) x.

(** The caches, when allocated, have the channels that [forward] gives
    them: the width of a key and the width of a value. *)
Definition cache_channels (m : Attn) : Prop :=
  match k_cache m, v_cache m with
  | Some kc, Some vc =>
    Forall (Forall (Forall (fun r : vec => length r = (rope_head_dim + nope_head_dim)%nat))) kc /\
    Forall (Forall (Forall (fun r : vec => length r = v_head_dim))) vc
  | _, _ => True
  end.


(** A batch of rows of [T] entries. *)
Definition rectangular {A : Type} (T : nat) (x : list (list A)) : Prop :=
  Forall (fun row => length row = T) x.

(** A logit that the masks have not set to [-float('Inf')]. *)
Definition is_finite (a : logit) : Prop :=
  match a with
  | Fin _ => True
  | NegInf => False
  end.

(** A forward pass that takes every batch of 1 to [ctx_len] tokens per row
    and returns one row of [V] logits per position. *)
Definition model_accepts (St : Type) (self_forward : St -> list (list nat) -> result (tensor3 * St))
           (ctx_len V : nat) : Prop :=
  forall st idx T,
    idx <> [] -> (1 <= T <= ctx_len)%nat -> rectangular T idx ->
    exists logits st',
      self_forward st idx = Ok (logits, st') /\
      length logits = length idx /\
      Forall (fun lb : mat => length lb = T /\ rectangular V lb) logits.

(** A sampler that returns one token per row. *)
Definition sampler_one_per_row (St : Type) (multinomial : St -> mat -> list nat * St) : Prop :=
  forall st probs, length (fst (multinomial st probs)) = length probs.

(** A sampler that, on rows that are distributions, returns for every row
    the index of an entry of positive probability. *)
Definition sampler_in_support (St : Type) (multinomial : St -> mat -> list nat * St) : Prop :=
  forall st probs,
    Forall (fun p => sum p = 1 /\ Forall (fun a => 0 <= a) p) probs ->
    Forall2 (fun p tok => 0 < nth tok p 0) probs (fst (multinomial st probs)).

(** A model without state whose logits, at every position, are
    [0, 1, ..., V - 1]. *)
Definition example_self_forward (V : nat) (st : unit) (idx : list (list nat))
  : result (tensor3 * unit) :=
  Ok (map (map (fun _ => map INR (seq 0 V))) idx, st).

(** The first index of positive probability. *)
Fixpoint first_positive (p : vec) : nat :=
  match p with
  | [] => 0
  | a :: p' => if Rlt_dec 0 a then 0 else S (first_positive p')
  end.

(** A sampler that picks, in every row, the first index of positive
    probability. *)
Definition example_multinomial (st : unit) (probs : mat) : list nat * unit :=
  (map first_positive probs, st).

(** The parameters that a list of optimizers gives to Muon, and to AdamW. *)
Definition muon_of (optimizers : list optimizer) : list parameter :=
  concat (map (fun o => match o with
                        | Muon params _ _ => params
                        | AdamW _ _ _ _ => []
                        end) optimizers).

Definition adamw_of (optimizers : list optimizer) : list parameter :=
  concat (map (fun o => match o with
                        | Muon _ _ _ => []
                        | AdamW params _ _ _ => params
                        end) optimizers).

(** * Properties *)

(** ** Lists and the exception monad *)

Lemma zipWith_length {A B C : Type} (f : A -> B -> C) (xs : list A) (ys : list B) :
  length (zipWith f xs ys) = Nat.min (length xs) (length ys).
Proof.
  revert ys; induction xs as [|x xs IH]; intros [|y ys]; simpl; auto.
Qed.

Lemma nth_zipWith {A B C : Type} (f : A -> B -> C) (xs : list A) (ys : list B)
      (i : nat) (dc : C) (da : A) (db : B) :
  (i < length xs)%nat -> (i < length ys)%nat ->
  nth i (zipWith f xs ys) dc = f (nth i xs da) (nth i ys db).
Proof.
  revert ys i; induction xs as [|x xs IH]; intros [|y ys] [|i]; simpl; intros; try lia; auto.
  apply IH; lia.
Qed.

Lemma mapM_Ok {A B : Type} (f : A -> result B) (g : A -> B) (l : list A) :
  (forall a, In a l -> f a = Ok (g a)) -> mapM f l = Ok (map g l).
Proof.
  induction l as [|a l IH]; simpl; intros H; auto.
  rewrite (H a) by auto; simpl. rewrite IH by auto. reflexivity.
Qed.

Lemma mapM2_Ok {A B C : Type} (P : A -> B -> Prop) (f : A -> B -> result C)
      (g : A -> B -> C) (xs : list A) (ys : list B) :
  (forall a b, P a b -> f a b = Ok (g a b)) ->
  Forall2 P xs ys -> mapM2 f xs ys = Ok (zipWith g xs ys).
Proof.
  intros Hf H; induction H as [|x y xs ys Hxy _ IH]; simpl; auto.
  rewrite (Hf _ _ Hxy); simpl. rewrite IH. reflexivity.
Qed.

Lemma Forall2_length_eq {A B : Type} (P : A -> B -> Prop) (xs : list A) (ys : list B) :
  Forall2 P xs ys -> length xs = length ys.
Proof. induction 1; simpl; congruence. Qed.

Lemma Forall2_same_length {A B : Type} (xs : list A) (ys : list B) :
  length xs = length ys -> Forall2 (fun _ _ => True) xs ys.
Proof.
  revert ys; induction xs as [|x xs IH]; intros [|y ys]; simpl; intros; try discriminate; auto.
Qed.

Lemma Forall2_nth {A B : Type} (P : A -> B -> Prop) (xs : list A) (ys : list B) (da : A) (db : B) :
  length xs = length ys ->
  (forall i, (i < length xs)%nat -> P (nth i xs da) (nth i ys db)) ->
  Forall2 P xs ys.
Proof.
  revert ys; induction xs as [|x xs IH]; intros [|y ys]; simpl; intros Hl H; try discriminate; auto.
  constructor.
  - apply (H 0%nat); lia.
  - apply IH; [lia|]. intros i Hi. apply (H (S i)); lia.
Qed.

Lemma broadcast2_same {A B C : Type} (P : A -> B -> Prop) (f : A -> B -> result C)
      (g : A -> B -> C) (xs : list A) (ys : list B) :
  (forall a b, P a b -> f a b = Ok (g a b)) ->
  Forall2 P xs ys -> broadcast2 f xs ys = Ok (zipWith g xs ys).
Proof.
  intros Hf H. unfold broadcast2.
  rewrite (Forall2_length_eq _ _ _ H), Nat.eqb_refl.
  eapply mapM2_Ok; eauto.
Qed.

Lemma ew_same_shape (op : R -> R -> R) (x y : mat) :
  same_shape x y -> ew op x y = Ok (zipWith (zipWith op) x y).
Proof.
  intros H. unfold ew.
  apply (broadcast2_same (fun r s => length r = length s)); auto.
  intros r s Hrs.
  apply (broadcast2_same (fun _ _ => True)); auto.
  apply Forall2_same_length; auto.
Qed.

Lemma same_shape_zipWith (op : R -> R -> R) (x y z : mat) :
  same_shape x y -> same_shape x z -> same_shape (zipWith (zipWith op) x y) z.
Proof.
  intros H; revert z; induction H as [|r s x y Hrs _ IH]; intros z Hz; inversion Hz; subst; simpl.
  - constructor.
  - constructor; [rewrite zipWith_length; lia|]. apply IH; assumption.
Qed.

Lemma same_shape_sym (x y : mat) : same_shape x y -> same_shape y x.
Proof. induction 1; constructor; auto. Qed.

Lemma same_shape_trans (x y z : mat) : same_shape x y -> same_shape y z -> same_shape x z.
Proof.
  intros H; revert z; induction H as [|r s x y Hrs _ IH]; intros z Hz; inversion Hz; subst.
  - constructor.
  - constructor; [congruence|]. apply IH; assumption.
Qed.

(** ** Rotary encoder *)

Lemma chunk2_even (h : nat) (x : mat) :
  Forall (fun r => length r = (2 * h)%nat) x ->
  chunk2 x = Ok (map (firstn h) x, map (skipn h) x).
Proof.
  intros H. unfold chunk2.
  rewrite (mapM_Ok chunk2_row (fun r => (firstn h r, skipn h r))).
  - simpl. rewrite !map_map. simpl. reflexivity.
  - intros r Hr. rewrite Forall_forall in H. specialize (H r Hr).
    unfold chunk2_row. rewrite H.
    replace (Nat.div (2 * h + 1) 2) with h.
    + destruct (Nat.eqb_spec (2 * h) 1); [lia|reflexivity].
    + apply (Nat.div_unique (2 * h + 1) 2 h 1); lia.
Qed.

Lemma same_shape_rows (h1 h2 : nat) (x y : mat) :
  h1 = h2 -> length x = length y ->
  Forall (fun r => length r = h1) x -> Forall (fun r => length r = h2) y ->
  same_shape x y.
Proof.
  intros -> Hl Hx Hy. revert y Hl Hy.
  induction Hx as [|r x Hr _ IH]; intros [|s y] Hl Hy; simpl in *; try discriminate.
  - constructor.
  - inversion Hy; subst. constructor; [congruence|]. apply IH; auto.
Qed.

Lemma Forall_firstn {A : Type} (P : A -> Prop) (n : nat) (l : list A) :
  Forall P l -> Forall P (firstn n l).
Proof.
  intros H; revert n; induction H; intros [|n]; simpl; auto.
Qed.

Lemma Forall_map_length_firstn (h : nat) (x : mat) :
  Forall (fun r => length r = (2 * h)%nat) x ->
  Forall (fun r => length r = h) (map (firstn h) x).
Proof.
  induction 1 as [|r x Hr _ IH]; simpl; constructor; auto.
  rewrite length_firstn. lia.
Qed.

Lemma Forall_map_length_skipn (h : nat) (x : mat) :
  Forall (fun r => length r = (2 * h)%nat) x ->
  Forall (fun r => length r = h) (map (skipn h) x).
Proof.
  induction 1 as [|r x Hr _ IH]; simpl; constructor; auto.
  rewrite length_skipn. lia.
Qed.

Lemma Forall_zipWith_length (op : R -> R -> R) (h : nat) (x y : mat) :
  Forall (fun r => length r = h) x -> Forall (fun r => length r = h) y ->
  Forall (fun r => length r = h) (zipWith (zipWith op) x y).
Proof.
  intros Hx; revert y; induction Hx as [|r x Hr _ IH]; intros [|s y] Hy; simpl; auto.
  inversion Hy; subst. constructor; auto. rewrite zipWith_length. lia.
Qed.

Lemma apply_rope_rotated (h : nat) (x y : mat) (table : mat * mat) :
  rope_shaped h x table -> Forall (fun r => length r = (2 * h)%nat) y ->
  length y = length x ->
  apply_rope x y table =
  Ok (rotated x (firstn (length x) (fst table)) (firstn (length x) (snd table)) h,
      rotated y (firstn (length x) (fst table)) (firstn (length x) (snd table)) h).
Proof.
  destruct table as [c s]. intros (Hx & Hc & Hs & Lc & Ls) Hy Ly. simpl in *.
  unfold apply_rope.
  set (cs := firstn (length x) c). set (ss := firstn (length x) s).
  assert (Lcs : length cs = length x) by (unfold cs; rewrite length_firstn; lia).
  assert (Lss : length ss = length x) by (unfold ss; rewrite length_firstn; lia).
  assert (Fcs : Forall (fun r => length r = h) cs) by (apply Forall_firstn; auto).
  assert (Fss : Forall (fun r => length r = h) ss) by (apply Forall_firstn; auto).
  rewrite (chunk2_even h x Hx), (chunk2_even h y Hy). simpl.
  pose proof (Forall_map_length_firstn h x Hx) as Fxr.
  pose proof (Forall_map_length_skipn h x Hx) as Fxi.
  pose proof (Forall_map_length_firstn h y Hy) as Fyr.
  pose proof (Forall_map_length_skipn h y Hy) as Fyi.
  assert (SS : forall a b : mat, length a = length x -> length b = length x ->
                 Forall (fun r => length r = h) a -> Forall (fun r => length r = h) b ->
                 same_shape a b)
    by (intros a b La Lb Fa Fb; apply (same_shape_rows h h); auto; congruence).
  assert (LZ : forall (op : R -> R -> R) (a b : mat), length a = length x -> length b = length x ->
                 length (zipWith (zipWith op) a b) = length x)
    by (intros op a b La Lb; rewrite zipWith_length; lia).
  assert (Lm : forall (f : vec -> vec) (a : mat), length a = length x -> length (map f a) = length x)
    by (intros f a La; rewrite length_map; exact La).
  repeat (rewrite ew_same_shape;
          [simpl bind
          | apply SS; auto using Forall_zipWith_length]).
  unfold cat_last.
  rewrite !LZ by auto. rewrite Nat.eqb_refl. simpl.
  reflexivity.
Qed.

Lemma rotate_at_shift (x : mat) (k n : nat) (c0 s0 : list R) (c s : mat) :
  rotate_at (seq (S k) n) (c0 :: c, s0 :: s) x = rotate_at (seq k n) (c, s) x.
Proof.
  unfold rotate_at. revert k x; induction n as [|n IH]; intros k [|r x]; simpl; auto.
  f_equal. apply IH.
Qed.

Lemma rotated_rotate_spec (h : nat) (x c s : mat) :
  Forall (fun r => length r = (2 * h)%nat) x ->
  (length x <= length c)%nat -> (length x <= length s)%nat ->
  rotated x (firstn (length x) c) (firstn (length x) s) h = rotate_spec (c, s) x.
Proof.
  intros Hx; revert c s; induction Hx as [|r x Hr _ IH]; intros c s Lc Ls.
  - reflexivity.
  - destruct c as [|c0 c]; [simpl in Lc; lia|].
    destruct s as [|s0 s]; [simpl in Ls; lia|].
    simpl in Lc, Ls.
    unfold rotate_spec. simpl length. simpl seq.
    unfold rotate_at at 1. simpl zipWith.
    change (zipWith _ (seq 1 (length x)) x) with (rotate_at (seq 1 (length x)) (c0 :: c, s0 :: s) x).
    rewrite rotate_at_shift.
    change (rotate_at (seq 0 (length x)) (c, s) x) with (rotate_spec (c, s) x).
    rewrite <- IH by lia.
    unfold rotated. simpl. f_equal.
    unfold rotate_row. rewrite Hr.
    replace (Nat.div (2 * h) 2) with h; [reflexivity|].
    apply (Nat.div_unique (2 * h) 2 h 0); lia.
Qed.

Lemma apply_rope_spec (h : nat) (x y : mat) (table : mat * mat) :
  rope_shaped h x table -> Forall (fun r => length r = (2 * h)%nat) y ->
  length y = length x ->
  apply_rope x y table = Ok (rotate_spec table x, rotate_spec table y).
Proof.
  intros Hs Hy Ly. rewrite (apply_rope_rotated h) by assumption.
  destruct table as [c s]. destruct Hs as (Hx & Hc & Hsn & Lc & Ls). simpl in *.
  rewrite (rotated_rotate_spec h x) by assumption.
  rewrite <- Ly. rewrite (rotated_rotate_spec h y) by (try assumption; lia).
  reflexivity.
Qed.

Lemma rotate_row_length (h : nat) (cr sr v : list R) :
  length cr = h -> length sr = h -> length v = (2 * h)%nat ->
  length (rotate_row cr sr v) = (2 * h)%nat.
Proof.
  intros Hc Hs Hv. unfold rotate_row.
  rewrite Hv. replace (Nat.div (2 * h) 2) with h by (apply (Nat.div_unique (2 * h) 2 h 0); lia).
  rewrite length_app, !zipWith_length, length_firstn, length_skipn. lia.
Qed.

(** The two formulas of the rotation, entry by entry. *)
Lemma rotate_row_entries (h : nat) (cr sr v : list R) (j : nat) :
  length cr = h -> length sr = h -> length v = (2 * h)%nat -> (j < h)%nat ->
  nth j (rotate_row cr sr v) 0 = nth j v 0 * nth j cr 0 - nth (j + h) v 0 * nth j sr 0 /\
  nth (j + h) (rotate_row cr sr v) 0 = nth j v 0 * nth j sr 0 + nth (j + h) v 0 * nth j cr 0.
Proof.
  intros Hc Hs Hv Hj. unfold rotate_row.
  rewrite Hv. replace (Nat.div (2 * h) 2) with h by (apply (Nat.div_unique (2 * h) 2 h 0); lia).
  assert (Lf : length (firstn h v) = h) by (rewrite length_firstn; lia).
  assert (Lk : length (skipn h v) = h) by (rewrite length_skipn; lia).
  assert (Nf : nth j (firstn h v) 0 = nth j v 0)
    by (rewrite nth_firstn; destruct (Nat.ltb_spec j h); [reflexivity|lia]).
  assert (Nk : nth j (skipn h v) 0 = nth (j + h) v 0)
    by (rewrite nth_skipn; f_equal; lia).
  split.
  - rewrite app_nth1 by (rewrite !zipWith_length; lia).
    rewrite (nth_zipWith Rminus _ _ j 0 0 0) by (rewrite zipWith_length; lia).
    rewrite !(nth_zipWith Rmult _ _ j 0 0 0) by lia.
    rewrite Nf, Nk. reflexivity.
  - rewrite app_nth2 by (rewrite !zipWith_length; lia).
    replace (j + h - _)%nat with j by (rewrite !zipWith_length; lia).
    rewrite (nth_zipWith Rplus _ _ j 0 0 0) by (rewrite zipWith_length; lia).
    rewrite !(nth_zipWith Rmult _ _ j 0 0 0) by lia.
    rewrite Nf, Nk. reflexivity.
Qed.

Lemma nth_map_Ropp (l : list R) (j : nat) : nth j (map Ropp l) 0 = - nth j l 0.
Proof.
  replace 0 with (- 0) at 1 by lra. apply map_nth.
Qed.

(** Rotating back with the sine negated restores a row, when each pair of
    table entries lies on the unit circle. *)
Lemma rotate_row_inverse (h : nat) (cr sr v : list R) :
  length cr = h -> length sr = h -> length v = (2 * h)%nat ->
  (forall j, (j < h)%nat -> nth j cr 0 * nth j cr 0 + nth j sr 0 * nth j sr 0 = 1) ->
  rotate_row cr (map Ropp sr) (rotate_row cr sr v) = v.
Proof.
  intros Hc Hs Hv Hu.
  pose proof (rotate_row_length h cr sr v Hc Hs Hv) as Lw.
  assert (Hs' : length (map Ropp sr) = h) by (rewrite length_map; exact Hs).
  apply (nth_ext _ _ 0 0).
  - rewrite (rotate_row_length h); auto.
  - rewrite (rotate_row_length h) by auto. intros i Hi.
    destruct (Nat.lt_ge_cases i h) as [Hlt|Hge].
    + destruct (rotate_row_entries h cr (map Ropp sr) (rotate_row cr sr v) i Hc Hs' Lw Hlt) as [E _].
      destruct (rotate_row_entries h cr sr v i Hc Hs Hv Hlt) as [E1 E2].
      rewrite E, E1, E2, nth_map_Ropp.
      transitivity (nth i v 0 * (nth i cr 0 * nth i cr 0 + nth i sr 0 * nth i sr 0)); [ring|].
      rewrite Hu by assumption. ring.
    + assert (Hj : (i - h < h)%nat) by lia.
      destruct (rotate_row_entries h cr (map Ropp sr) (rotate_row cr sr v) (i - h) Hc Hs' Lw Hj) as [_ E].
      destruct (rotate_row_entries h cr sr v (i - h) Hc Hs Hv Hj) as [E1 E2].
      replace (i - h + h)%nat with i in * by lia.
      rewrite E, E1, E2, nth_map_Ropp.
      transitivity (nth i v 0 * (nth (i - h) cr 0 * nth (i - h) cr 0
                                 + nth (i - h) sr 0 * nth (i - h) sr 0)); [ring|].
      rewrite Hu by assumption. ring.
Qed.

Lemma nth_map_rows (f : R -> R) (F : mat) (p : nat) :
  nth p (map (map f) F) [] = map f (nth p F []).
Proof. exact (map_nth (map f) F [] p). Qed.

Lemma rotate_spec_length (table : mat * mat) (x : mat) :
  length (rotate_spec table x) = length x.
Proof.
  unfold rotate_spec, rotate_at. rewrite zipWith_length, length_seq. lia.
Qed.

Lemma rotate_at_nth (positions : list nat) (table : mat * mat) (x : mat) (p : nat) :
  (p < length positions)%nat -> (p < length x)%nat ->
  nth p (rotate_at positions table x) [] =
  rotate_row (nth (nth p positions 0%nat) (fst table) [])
             (nth (nth p positions 0%nat) (snd table) []) (nth p x []).
Proof.
  intros Hp Hx. unfold rotate_at.
  rewrite (nth_zipWith _ positions x p [] 0%nat []) by assumption. reflexivity.
Qed.

Lemma rotate_spec_nth (table : mat * mat) (x : mat) (p : nat) :
  (p < length x)%nat ->
  nth p (rotate_spec table x) [] =
  rotate_row (nth p (fst table) []) (nth p (snd table) []) (nth p x []).
Proof.
  intros Hp. unfold rotate_spec.
  rewrite rotate_at_nth by (rewrite ?length_seq; assumption).
  rewrite seq_nth by assumption. reflexivity.
Qed.

Lemma rotate_spec_rows (h : nat) (table : mat * mat) (x : mat) :
  rope_shaped h x table ->
  Forall (fun r => length r = (2 * h)%nat) (rotate_spec table x).
Proof.
  intros (Hx & Hc & Hs & Lc & Ls).
  apply Forall_nth. intros p d Hp. rewrite rotate_spec_length in Hp.
  rewrite (nth_indep _ d []) by (rewrite rotate_spec_length; assumption).
  rewrite rotate_spec_nth by assumption.
  apply rotate_row_length.
  - apply (proj1 (Forall_nth _ _) Hc). lia.
  - apply (proj1 (Forall_nth _ _) Hs). lia.
  - apply (proj1 (Forall_nth _ _) Hx). lia.
Qed.

Lemma rotate_spec_inverse (h : nat) (table : mat * mat) (x : mat) :
  rope_shaped h x table -> unit_table table ->
  rotate_spec (negate_sin table) (rotate_spec table x) = x.
Proof.
  intros Hsh Hu. pose proof Hsh as (Hx & Hc & Hs & Lc & Ls).
  apply (nth_ext _ _ [] []).
  - rewrite !rotate_spec_length. reflexivity.
  - rewrite !rotate_spec_length. intros p Hp.
    rewrite rotate_spec_nth by (rewrite rotate_spec_length; assumption).
    rewrite rotate_spec_nth by assumption.
    unfold negate_sin; simpl fst; simpl snd.
    rewrite nth_map_rows.
    assert (Lcp : length (nth p (fst table) []) = h)
      by (apply (proj1 (Forall_nth _ _) Hc); lia).
    apply (rotate_row_inverse h); auto.
    + apply (proj1 (Forall_nth _ _) Hs). lia.
    + apply (proj1 (Forall_nth _ _) Hx). lia.
    + intros j Hj. destruct (Hu p j) as [E|E]; [exact E|lia].
Qed.

Lemma rope_shaped_negate_sin (h : nat) (table : mat * mat) (x : mat) :
  rope_shaped h x table -> rope_shaped h (rotate_spec table x) (negate_sin table).
Proof.
  intros Hsh. pose proof Hsh as (Hx & Hc & Hs & Lc & Ls).
  unfold rope_shaped, negate_sin; simpl fst; simpl snd.
  rewrite rotate_spec_length, length_map.
  repeat split; auto.
  - apply (rotate_spec_rows h); assumption.
  - clear -Hs. induction Hs; simpl; constructor; auto. rewrite length_map; assumption.
Qed.

(** The table of [precompute_freqs_cis]. *)
Lemma arange2_length (h : nat) : length (arange2 (2 * h)) = h.
Proof.
  unfold arange2. rewrite length_map, length_seq.
  symmetry. apply (Nat.div_unique (2 * h + 1) 2 h 1); lia.
Qed.

Lemma precompute_freqs_cis_shape (h end_ : nat) (theta : R) :
  let table := precompute_freqs_cis (2 * h) end_ theta in
  length (fst table) = end_ /\ length (snd table) = end_ /\
  Forall (fun r => length r = h) (fst table) /\
  Forall (fun r => length r = h) (snd table).
Proof.
  unfold precompute_freqs_cis; simpl fst; simpl snd.
  rewrite !length_map, length_seq. repeat split.
  - apply Forall_forall. intros r Hr.
    apply in_map_iff in Hr as (r1 & <- & Hr).
    apply in_map_iff in Hr as (ti & <- & _).
    rewrite !length_map. apply arange2_length.
  - apply Forall_forall. intros r Hr.
    apply in_map_iff in Hr as (r1 & <- & Hr).
    apply in_map_iff in Hr as (ti & <- & _).
    rewrite !length_map. apply arange2_length.
Qed.

Lemma precompute_freqs_cis_unit (dim end_ : nat) (theta : R) :
  unit_table (precompute_freqs_cis dim end_ theta).
Proof.
  unfold unit_table, precompute_freqs_cis; simpl fst; simpl snd. intros p j.
  set (F := map _ (map INR (seq 0 end_))).
  rewrite !nth_map_rows, length_map.
  destruct (Nat.lt_ge_cases j (length (nth p F []))) as [Hj|Hj]; [left|right; assumption].
  rewrite (nth_indep (map cos _) 0 (cos 0)) by (rewrite length_map; assumption).
  rewrite (nth_indep (map sin _) 0 (sin 0)) by (rewrite length_map; assumption).
  rewrite !map_nth.
  pose proof (sin2_cos2 (nth j (nth p F []) 0)) as E. unfold Rsqr in E. lra.
Qed.

Lemma precompute_freqs_cis_rope_shaped (h end_ : nat) (theta : R) (x : mat) :
  Forall (fun r => length r = (2 * h)%nat) x -> (length x <= end_)%nat ->
  rope_shaped h x (precompute_freqs_cis (2 * h) end_ theta).
Proof.
  intros Hx Hl. destruct (precompute_freqs_cis_shape h end_ theta) as (L1 & L2 & F1 & F2).
  unfold rope_shaped. rewrite L1, L2. auto.
Qed.

(** C7.  On a slice whose rows split into a real and an imaginary half,
    [apply_rope] with the table of [precompute_freqs_cis] computes, at every
    position within the table, [real * cos - imag * sin] for the real half
    and [real * sin + imag * cos] for the imaginary half; applying it again
    with the sine table negated returns the original slice (exactly, the
    scalars being real numbers).  The base [theta] is positive, as its
    default 10000 is: the power of the source is the real power then. *)
Theorem apply_rope_rotation_round_trip (h end_ : nat) (theta : R) (x y : mat) :
  0 < theta ->
  Forall (fun r => length r = (2 * h)%nat) x ->
  Forall (fun r => length r = (2 * h)%nat) y ->
  length y = length x ->
  (length x <= end_)%nat ->
  let table := precompute_freqs_cis (2 * h) end_ theta in
  apply_rope x y table = Ok (rotate_spec table x, rotate_spec table y) /\
  (forall p j, (p < length x)%nat -> (j < h)%nat ->
     nth j (nth p (rotate_spec table x) []) 0 =
       nth j (nth p x []) 0 * nth j (nth p (fst table) []) 0
       - nth (j + h) (nth p x []) 0 * nth j (nth p (snd table) []) 0 /\
     nth (j + h) (nth p (rotate_spec table x) []) 0 =
       nth j (nth p x []) 0 * nth j (nth p (snd table) []) 0
       + nth (j + h) (nth p x []) 0 * nth j (nth p (fst table) []) 0) /\
  apply_rope (rotate_spec table x) (rotate_spec table y) (negate_sin table) = Ok (x, y).
Proof.
  intros _ Hx Hy Ly Le table.
  pose proof (precompute_freqs_cis_rope_shaped h end_ theta x Hx Le) as Sx.
  assert (Sy : rope_shaped h y table)
    by (apply precompute_freqs_cis_rope_shaped; [assumption|lia]).
  fold table in Sx.
  pose proof (precompute_freqs_cis_unit (2 * h) end_ theta) as Hu. fold table in Hu.
  split; [|split].
  - apply (apply_rope_spec h); assumption.
  - intros p j Hp Hj. rewrite rotate_spec_nth by assumption.
    destruct Sx as (Hx' & Hc & Hs & Lc & Ls).
    apply (rotate_row_entries h); auto.
    + apply (proj1 (Forall_nth _ _) Hc). lia.
    + apply (proj1 (Forall_nth _ _) Hs). lia.
    + apply (proj1 (Forall_nth _ _) Hx). lia.
  - rewrite (apply_rope_spec h).
    + rewrite (rotate_spec_inverse h table x), (rotate_spec_inverse h table y) by assumption.
      reflexivity.
    + apply rope_shaped_negate_sin; assumption.
    + apply (rotate_spec_rows h); assumption.
    + rewrite !rotate_spec_length. assumption.
Qed.

Lemma apply_rope_rotation_round_trip_witness :
  let x := [[1; 0]; [0; 1]] in
  let table := precompute_freqs_cis 2 2 10000 in
  apply_rope x x table = Ok (rotate_spec table x, rotate_spec table x) /\
  apply_rope (rotate_spec table x) (rotate_spec table x) (negate_sin table) = Ok (x, x).
Proof.
  intros x table.
  assert (Hx : Forall (fun r => length r = (2 * 1)%nat) x)
    by (repeat constructor).
  assert (Ht : 0 < 10000) by lra.
  destruct (apply_rope_rotation_round_trip 1 2 10000 x x Ht Hx Hx eq_refl (le_n 2))
    as (H1 & _ & H3).
  split; [exact H1|exact H3].
Defined.

(** ** Capacity of the rotary table *)

Lemma mapM_length {A B : Type} (f : A -> result B) (l : list A) (l' : list B) :
  mapM f l = Ok l' -> length l' = length l.
Proof.
  revert l'; induction l as [|a l IH]; simpl; intros l' H.
  - injection H as <-. reflexivity.
  - destruct (f a) as [b|e]; simpl in H; [|discriminate].
    destruct (mapM f l) as [bs|e]; simpl in H; [|discriminate].
    injection H as <-. simpl. f_equal. apply IH. reflexivity.
Qed.

Lemma chunk2_length (x xr xi : mat) :
  chunk2 x = Ok (xr, xi) -> length xr = length x /\ length xi = length x.
Proof.
  unfold chunk2. destruct (mapM chunk2_row x) as [ps|e] eqn:E; simpl; [|discriminate].
  intros H; injection H as <- <-. rewrite !length_map.
  rewrite (mapM_length _ _ _ E). auto.
Qed.

Lemma chunk2_not_one (x : mat) :
  Forall (fun r => length r <> 1%nat) x -> exists xr xi, chunk2 x = Ok (xr, xi).
Proof.
  intros H. unfold chunk2.
  rewrite (mapM_Ok chunk2_row
             (fun r => (firstn (Nat.div (length r + 1) 2) r, skipn (Nat.div (length r + 1) 2) r))).
  - simpl. eauto.
  - intros r Hr. rewrite Forall_forall in H. specialize (H r Hr).
    unfold chunk2_row. destruct (Nat.eqb_spec (length r) 1); [contradiction|reflexivity].
Qed.

Lemma broadcast2_mismatch {A B C : Type} (f : A -> B -> result C) (xs : list A) (ys : list B) :
  length xs <> length ys -> length xs <> 1%nat -> length ys <> 1%nat ->
  broadcast2 f xs ys = Raise RuntimeError.
Proof.
  intros Hne Hx Hy. unfold broadcast2.
  destruct (Nat.eqb_spec (length xs) (length ys)); [contradiction|].
  destruct xs as [|x [|x' xs]]; destruct ys as [|y [|y' ys]]; simpl in *;
    try reflexivity; try contradiction; congruence.
Qed.

(** C3, as stated, fails: with a table of one row, a request of two positions
    is served; the single row is repeated for both positions. *)
Lemma apply_rope_one_row_table_no_error :
  ~ raises_beyond_capacity [[1; 0]; [0; 1]] [[1; 0]; [0; 1]] (precompute_freqs_cis 2 1 10000).
Proof.
  unfold raises_beyond_capacity. intros H.
  destruct H as [e He]; [simpl; lia|].
  discriminate He.
Qed.

(** C3, amended.  When the request is longer than a table of two rows or
    more, [apply_rope] raises: the slice of the table is clipped to the table,
    never grown, and the first elementwise product meets two row counts that
    do not broadcast.  The exception is the array library's [RuntimeError]
    whenever the rows of the operands can be split in two halves. *)
Theorem apply_rope_beyond_capacity_raises (x y : mat) (table : mat * mat) :
  (2 <= length (fst table))%nat ->
  (length (fst table) < length x)%nat ->
  (exists e, apply_rope x y table = Raise e) /\
  (Forall (fun r => length r <> 1%nat) x -> Forall (fun r => length r <> 1%nat) y ->
   apply_rope x y table = Raise RuntimeError).
Proof.
  intros H2 Hlt. destruct table as [c s]. simpl in H2, Hlt.
  assert (Hew : forall xr xi yr yi, chunk2 x = Ok (xr, xi) -> chunk2 y = Ok (yr, yi) ->
                                    apply_rope x y (c, s) = Raise RuntimeError).
  { intros xr xi yr yi Ex Ey. unfold apply_rope. rewrite Ex, Ey. simpl.
    destruct (chunk2_length _ _ _ Ex) as [Lr _].
    unfold ew at 1. rewrite broadcast2_mismatch; [reflexivity| | |];
      rewrite ?Lr, ?length_firstn; lia. }
  split.
  - destruct (chunk2 x) as [[xr xi]|e] eqn:Ex.
    + destruct (chunk2 y) as [[yr yi]|e] eqn:Ey.
      * exists RuntimeError. apply (Hew xr xi yr yi); reflexivity.
      * exists e. unfold apply_rope. rewrite Ex, Ey. reflexivity.
    + exists e. unfold apply_rope. rewrite Ex. reflexivity.
  - intros Fx Fy.
    destruct (chunk2_not_one x Fx) as (xr & xi & Ex).
    destruct (chunk2_not_one y Fy) as (yr & yi & Ey).
    apply (Hew xr xi yr yi); assumption.
Qed.

Lemma apply_rope_beyond_capacity_raises_witness :
  apply_rope [[1; 0]; [0; 1]; [1; 1]] [[1; 0]; [0; 1]; [1; 1]] (precompute_freqs_cis 2 2 10000)
  = Raise RuntimeError.
Proof.
  apply (apply_rope_beyond_capacity_raises
           [[1; 0]; [0; 1]; [1; 1]] [[1; 0]; [0; 1]; [1; 1]] (precompute_freqs_cis 2 2 10000)).
  - simpl. lia.
  - simpl. lia.
  - repeat constructor; simpl; lia.
  - repeat constructor; simpl; lia.
Defined.

(** ** The selection primitive meets its contract *)

Lemma In_firstn {A : Type} (k : nat) (l : list A) (a : A) :
  In a (firstn k l) -> In a l.
Proof.
  revert k; induction l as [|b l IH]; intros [|k]; simpl; try tauto.
  intros [H|H]; eauto.
Qed.

Lemma NoDup_firstn {A : Type} (k : nat) (l : list A) :
  NoDup l -> NoDup (firstn k l).
Proof.
  intros H; revert k; induction H as [|a l Ha _ IH]; intros [|k]; simpl; try constructor; auto.
  intros Hin. apply Ha. eapply In_firstn; eauto.
Qed.

Lemma map_fst_combine {A B : Type} (l : list A) (l' : list B) :
  length l = length l' -> map fst (combine l l') = l.
Proof.
  revert l'; induction l as [|a l IH]; intros [|b l']; simpl; intros H; try discriminate; auto.
  f_equal. apply IH. lia.
Qed.

Lemma insert_desc_perm (p : nat * R) (l : list (nat * R)) :
  Permutation (insert_desc p l) (p :: l).
Proof.
  induction l as [|q l IH]; simpl.
  - apply Permutation_refl.
  - destruct (Rlt_dec (snd q) (snd p)).
    + apply Permutation_refl.
    + eapply Permutation_trans; [apply perm_skip; exact IH|apply perm_swap].
Qed.

Lemma sort_desc_perm (l : list (nat * R)) : Permutation (sort_desc l) l.
Proof.
  induction l as [|p l IH]; simpl.
  - constructor.
  - eapply Permutation_trans; [apply insert_desc_perm|]. apply perm_skip. exact IH.
Qed.

Lemma sorted_indices_perm (s : list R) :
  Permutation (map fst (sort_desc (combine (seq 0 (length s)) s))) (seq 0 (length s)).
Proof.
  eapply Permutation_trans; [apply Permutation_map, sort_desc_perm|].
  rewrite map_fst_combine by (rewrite length_seq; reflexivity).
  apply Permutation_refl.
Qed.

Lemma topk_first_length (s : list R) (k : nat) :
  (k <= length s)%nat -> length (topk_first s k) = k.
Proof.
  intros Hk. unfold topk_first. rewrite <- firstn_map, length_firstn.
  rewrite (Permutation_length (sorted_indices_perm s)), length_seq. lia.
Qed.

Lemma topk_first_NoDup (s : list R) (k : nat) :
  (k <= length s)%nat -> NoDup (topk_first s k).
Proof.
  intros _. unfold topk_first. rewrite <- firstn_map. apply NoDup_firstn.
  apply (Permutation_NoDup (Permutation_sym (sorted_indices_perm s))). apply seq_NoDup.
Qed.

Lemma topk_first_bound (s : list R) (k i : nat) :
  (k <= length s)%nat -> In i (topk_first s k) -> (i < length s)%nat.
Proof.
  intros _. unfold topk_first. rewrite <- firstn_map. intros H.
  apply In_firstn in H. apply (Permutation_in _ (sorted_indices_perm s)) in H.
  apply in_seq in H. lia.
Qed.

(** ** Sorting the selected indices *)

Lemma insert_sorted_In (n : nat) (l : list nat) (a : nat) :
  In a (insert_sorted n l) <-> a = n \/ In a l.
Proof.
  induction l as [|m l IH]; simpl.
  - intuition.
  - destruct (Nat.leb n m); simpl; [intuition|]. rewrite IH. intuition.
Qed.

Lemma insert_sorted_length (n : nat) (l : list nat) :
  length (insert_sorted n l) = S (length l).
Proof.
  induction l as [|m l IH]; simpl; auto. destruct (Nat.leb n m); simpl; auto.
Qed.

Lemma insert_sorted_strict (n : nat) (l : list nat) :
  StronglySorted lt l -> ~ In n l -> StronglySorted lt (insert_sorted n l).
Proof.
  induction 1 as [|m l Hs IH Hm]; simpl; intros Hn.
  - repeat constructor.
  - destruct (Nat.leb_spec n m) as [Hle|Hgt].
    + assert (Hlt : (n < m)%nat) by (destruct (Nat.eq_dec n m); [subst; tauto|lia]).
      constructor; [constructor; assumption|].
      constructor; [assumption|].
      rewrite Forall_forall in *. intros a Ha. specialize (Hm a Ha). lia.
    + constructor; [apply IH; tauto|].
      rewrite Forall_forall in *. intros a Ha.
      apply insert_sorted_In in Ha as [->|Ha]; [assumption|auto].
Qed.

Lemma torch_sort_In (l : list nat) (a : nat) : In a (torch_sort l) <-> In a l.
Proof.
  induction l as [|n l IH]; simpl; [tauto|].
  rewrite insert_sorted_In, IH. intuition.
Qed.

Lemma torch_sort_length (l : list nat) : length (torch_sort l) = length l.
Proof.
  induction l as [|n l IH]; simpl; auto. rewrite insert_sorted_length, IH. reflexivity.
Qed.

Lemma torch_sort_strict (l : list nat) : NoDup l -> StronglySorted lt (torch_sort l).
Proof.
  induction 1 as [|n l Hn _ IH]; simpl.
  - constructor.
  - apply insert_sorted_strict; [assumption|]. rewrite torch_sort_In. assumption.
Qed.

(** ** Selection branch *)

Section SelectionProperties.

Variable topk : list R -> nat -> list nat.
Hypothesis topk_length : forall s k, (k <= length s)%nat -> length (topk s k) = k.
Hypothesis topk_NoDup : forall s k, (k <= length s)%nat -> NoDup (topk s k).
Hypothesis topk_bound : forall s k i, (k <= length s)%nat -> In i (topk s k) -> (i < length s)%nat.

Lemma select_important_tokens_Ok (m : Attn) (x scores : tensor3) :
  (0 <= num_tokens_to_keep (cfg m))%Z ->
  Forall (fun sb => length sb = size1 x) scores ->
  _select_important_tokens topk m x scores =
  Ok (zipWith (fun xb ib => map (fun i => nth i xb []) ib) x
              (map (selected_indices_of topk m (size1 x)) scores),
      map (selected_indices_of topk m (size1 x)) scores).
Proof.
  intros Hk Hs. unfold _select_important_tokens.
  rewrite (mapM_Ok _ (selected_indices_of topk m (size1 x))).
  - simpl. reflexivity.
  - intros sb Hsb. rewrite Forall_forall in Hs. specialize (Hs sb Hsb).
    unfold torch_topk. rewrite length_map, Hs.
    destruct (Z.ltb_spec (Z.min (num_tokens_to_keep (cfg m)) (Z.of_nat (size1 x))) 0); [lia|].
    destruct (Z.ltb_spec (Z.of_nat (size1 x))
                         (Z.min (num_tokens_to_keep (cfg m)) (Z.of_nat (size1 x)))); [lia|].
    reflexivity.
Qed.

(** C9.  For an input of sequence length [T] and a selection count that is
    not negative, [_select_important_tokens] raises nothing and returns, for
    every batch item, a strictly increasing sequence of
    [min(num_tokens_to_keep, T)] indices, all below [T]. *)
Theorem select_important_tokens_indices (m : Attn) (x scores : tensor3) :
  (0 <= num_tokens_to_keep (cfg m))%Z ->
  Forall (fun sb => length sb = size1 x) scores ->
  exists selected indices,
    _select_important_tokens topk m x scores = Ok (selected, indices) /\
    length indices = length scores /\
    Forall (fun ib =>
              Z.of_nat (length ib) = Z.min (num_tokens_to_keep (cfg m)) (Z.of_nat (size1 x)) /\
              StronglySorted lt ib /\
              Forall (fun i => (i < size1 x)%nat) ib) indices.
Proof.
  intros Hk Hs. eexists; eexists.
  split; [apply select_important_tokens_Ok; assumption|].
  split; [apply length_map|].
  apply Forall_forall. intros ib Hib.
  apply in_map_iff in Hib as (sb & <- & Hsb).
  rewrite Forall_forall in Hs. specialize (Hs sb Hsb).
  unfold selected_indices_of.
  set (k := Z.to_nat (Z.min (num_tokens_to_keep (cfg m)) (Z.of_nat (size1 x)))).
  set (s := map (fun r => nth 0 r 0) sb).
  assert (Ls : length s = size1 x) by (unfold s; rewrite length_map; exact Hs).
  assert (Hks : (k <= length s)%nat) by (unfold k; lia).
  split; [|split].
  - rewrite torch_sort_length, topk_length by assumption. unfold k. lia.
  - apply torch_sort_strict, topk_NoDup. assumption.
  - apply Forall_forall. intros i Hi. apply (proj1 (torch_sort_In _ _)) in Hi.
    rewrite <- Ls. exact (topk_bound s k i Hks Hi).
Qed.

End SelectionProperties.

Lemma select_important_tokens_indices_witness :
  exists selected indices,
    _select_important_tokens topk_first (example_attn (example_config 4 1 128) false) [[[0]; [1]]] [[[0]; [1]]]
    = Ok (selected, indices) /\
    length indices = 1%nat /\
    Forall (fun ib => Z.of_nat (length ib) = Z.min 1 2 /\
                      StronglySorted lt ib /\ Forall (fun i => (i < 2)%nat) ib) indices.
Proof.
  apply (select_important_tokens_indices topk_first topk_first_length topk_first_NoDup
           topk_first_bound (example_attn (example_config 4 1 128) false) [[[0]; [1]]] [[[0]; [1]]]).
  - simpl. lia.
  - repeat constructor.
Defined.

Lemma mapM2_diag {A C : Type} (f : A -> A -> result C) (g : A -> C) (l : list A) :
  (forall a, In a l -> f a a = Ok (g a)) -> mapM2 f l l = Ok (map g l).
Proof.
  induction l as [|a l IH]; simpl; intros H; auto.
  rewrite (H a) by auto; simpl. rewrite IH by auto. reflexivity.
Qed.

Lemma apply_rope4_spec (h : nat) (x : tensor4) (table : mat * mat) :
  (forall xb, In xb x -> forall xh, In xh xb -> rope_shaped h xh table) ->
  apply_rope4 x x table =
  Ok (map (map (rotate_spec table)) x, map (map (rotate_spec table)) x).
Proof.
  intros H. unfold apply_rope4.
  rewrite (mapM2_diag _ (fun xb => (map (rotate_spec table) xb, map (rotate_spec table) xb))).
  - simpl. rewrite !map_map. simpl. reflexivity.
  - intros xb Hxb.
    rewrite (mapM2_diag _ (fun xh => (rotate_spec table xh, rotate_spec table xh))).
    + simpl. rewrite !map_map. simpl. reflexivity.
    + intros xh Hxh. specialize (H xb Hxb xh Hxh).
      apply (apply_rope_spec h); auto. destruct H as (Hx & _). exact Hx.
Qed.

Lemma in_zipWith {A B C : Type} (f : A -> B -> C) (xs : list A) (ys : list B) (c : C) :
  In c (zipWith f xs ys) -> exists a b, In a xs /\ In b ys /\ c = f a b.
Proof.
  revert ys; induction xs as [|x xs IH]; intros [|y ys]; simpl; try tauto.
  intros [<-|H].
  - exists x, y. auto.
  - destruct (IH ys H) as (a & b & Ha & Hb & E). exists a, b. auto.
Qed.

Lemma linear_length (W : mat) (v : list R) : length (linear W v) = length W.
Proof. unfold linear. apply length_map. Qed.

(** The rotary part of every head slice of a projected tensor. *)
Lemma rope_part_shape (n d a : nat) (W : mat) (toks : tensor3) (xb : tensor3) (xh : mat) :
  length W = (n * (a + d))%nat ->
  In xb (map (map (map (skipn d))) (split_heads n (a + d) (linear3 W toks))) ->
  In xh xb ->
  Forall (fun r => length r = a) xh /\ exists tb, In tb toks /\ length xh = length tb.
Proof.
  intros HW Hxb Hxh.
  unfold split_heads, linear3 in Hxb. rewrite !map_map in Hxb.
  apply in_map_iff in Hxb as (tb & <- & Htb).
  rewrite map_map in Hxh.
  apply in_map_iff in Hxh as (hd & <- & Hhd). apply in_seq in Hhd.
  split.
  - apply Forall_forall. intros r Hr. rewrite !map_map in Hr.
    apply in_map_iff in Hr as (tok & <- & _).
    rewrite length_skipn, length_firstn, length_skipn, linear_length, HW. nia.
  - exists tb. split; [assumption|]. rewrite !length_map. reflexivity.
Qed.

Lemma recombine_item_nth (xb yb : tensor3) (h : nat) :
  length xb = length yb -> (h < length xb)%nat ->
  nth h (match yb with
         | [yh] => map (fun xh => zipWith (@app R) xh yh) xb
         | _ => zipWith (zipWith (@app R)) xb yb
         end) [] = zipWith (@app R) (nth h xb []) (nth h yb []).
Proof.
  intros Hl Hh.
  assert (E : nth h (zipWith (zipWith (@app R)) xb yb) []
              = zipWith (@app R) (nth h xb []) (nth h yb []))
    by (apply (nth_zipWith _ xb yb h [] [] []); lia).
  destruct yb as [|yh [|yh' yb]]; try exact E.
  destruct xb as [|xh [|xh' xb]]; simpl in Hl, Hh; try lia.
  destruct h; [reflexivity|lia].
Qed.

Section SelectionRope.

Variable topk : list R -> nat -> list nat.
Hypothesis topk_length : forall s k, (k <= length s)%nat -> length (topk s k) = k.

Lemma selection_branch_Ok (m : Attn) (x : tensor3) :
  (0 <= num_tokens_to_keep (cfg m))%Z ->
  Forall (fun xb => length xb = size1 x) x ->
  length (selection_k m) = (n_head (cfg m) * (rope_head_dim + nope_head_dim))%nat ->
  freqs_cis m = precompute_freqs_cis rope_head_dim (ctx_len (cfg m)) 10000 ->
  (Z.min (num_tokens_to_keep (cfg m)) (Z.of_nat (size1 x)) <= Z.of_nat (ctx_len (cfg m)))%Z ->
  let indices := map (selected_indices_of topk m (size1 x)) (linear3 (importance_scorer m) x) in
  exists v_selected,
    selection_branch topk m x =
    Ok (keys_rotated_compacted m (selected_keys m x indices), v_selected, indices).
Proof.
  intros Hk Hx HW Ht Hc indices.
  assert (Hs : Forall (fun sb : mat => length sb = size1 x) (linear3 (importance_scorer m) x)).
  { unfold linear3. apply Forall_forall. intros sb Hsb.
    apply in_map_iff in Hsb as (xb & <- & Hxb). rewrite length_map.
    rewrite Forall_forall in Hx. auto. }
  unfold selection_branch.
  rewrite (select_important_tokens_Ok topk m x _ Hk Hs). fold indices. simpl bind.
  rewrite (apply_rope4_spec 32).
  - simpl bind. eexists. reflexivity.
  - intros xb Hxb xh Hxh.
    destruct (rope_part_shape (n_head (cfg m)) nope_head_dim rope_head_dim _ _ xb xh HW Hxb Hxh)
      as (Fr & tb & Htb & Ltb).
    apply in_zipWith in Htb as (xb0 & ib & _ & Hib & ->).
    rewrite length_map in Ltb.
    apply in_map_iff in Hib as (sb & <- & Hsb).
    rewrite Forall_forall in Hs. specialize (Hs sb Hsb).
    assert (Lib : (length (selected_indices_of topk m (size1 x) sb) <= ctx_len (cfg m))%nat).
    { unfold selected_indices_of. rewrite torch_sort_length, topk_length.
      - lia.
      - rewrite length_map, Hs. lia. }
    rewrite Ht.
    destruct (precompute_freqs_cis_shape 32 (ctx_len (cfg m)) 10000) as (L1 & L2 & F1 & F2).
    unfold rope_shaped.
    change rope_head_dim with (2 * 32)%nat in *.
    rewrite L1, L2, Ltb. auto.
Qed.

(** C1, amended.  The selection branch rotates the rotary part of the key of
    the [j]-th selected token by the table row [j], its position inside the
    selected set [0 .. S-1]; the indices of the selected tokens in the input
    sequence are returned but take no part in the rotation. *)
Theorem selection_branch_rope_positions (m : Attn) (x : tensor3) :
  (0 <= num_tokens_to_keep (cfg m))%Z ->
  Forall (fun xb => length xb = size1 x) x ->
  length (selection_k m) = (n_head (cfg m) * (rope_head_dim + nope_head_dim))%nat ->
  freqs_cis m = precompute_freqs_cis rope_head_dim (ctx_len (cfg m)) 10000 ->
  (Z.min (num_tokens_to_keep (cfg m)) (Z.of_nat (size1 x)) <= Z.of_nat (ctx_len (cfg m)))%Z ->
  let indices := map (selected_indices_of topk m (size1 x)) (linear3 (importance_scorer m) x) in
  exists k_selected v_selected,
    selection_branch topk m x = Ok (k_selected, v_selected, indices) /\
    k_selected = keys_rotated_compacted m (selected_keys m x indices) /\
    forall b h j,
      (b < length x)%nat -> (h < n_head (cfg m))%nat ->
      (j < length (nth b indices []))%nat ->
      skipn nope_head_dim (nth j (nth h (nth b k_selected []) []) []) =
      rotate_row (nth j (fst (freqs_cis m)) []) (nth j (snd (freqs_cis m)) [])
        (skipn nope_head_dim
           (nth j (nth h (nth b (selected_keys m x indices) []) []) [])).
Proof.
  intros Hk Hx HW Ht Hc indices.
  destruct (selection_branch_Ok m x Hk Hx HW Ht Hc) as [v Hv]. fold indices in Hv.
  eexists. exists v. split; [exact Hv|]. split; [reflexivity|].
  intros b h j Hb Hh Hj.
  set (K := selected_keys m x indices).
  assert (Li : length indices = length x)
    by (unfold indices, linear3; rewrite !length_map; reflexivity).
  assert (LK : length K = length x).
  { unfold K, selected_keys, split_heads, linear3. rewrite !length_map, zipWith_length. lia. }
  set (rows_b := map (linear (selection_k m))
                     (map (fun i => nth i (nth b x []) []) (nth b indices []))).
  assert (EKb : nth b K [] =
                map (fun hd => map (fun row => firstn (rope_head_dim + nope_head_dim)
                                                 (skipn (hd * (rope_head_dim + nope_head_dim)) row))
                                   rows_b) (seq 0 (n_head (cfg m)))).
  { unfold K, selected_keys, split_heads, linear3. rewrite !map_map.
    rewrite (nth_indep _ [] (map (fun hd => map (fun row : list R =>
               firstn (rope_head_dim + nope_head_dim)
                      (skipn (hd * (rope_head_dim + nope_head_dim)) row))
               (map (linear (selection_k m)) [])) (seq 0 (n_head (cfg m)))))
      by (rewrite length_map, zipWith_length; lia).
    rewrite (map_nth (fun tb => map (fun hd => map (fun row : list R =>
               firstn (rope_head_dim + nope_head_dim)
                      (skipn (hd * (rope_head_dim + nope_head_dim)) row))
               (map (linear (selection_k m)) tb)) (seq 0 (n_head (cfg m))))).
    rewrite (nth_zipWith _ x indices b [] [] []) by lia. reflexivity. }
  assert (EKh : nth h (nth b K []) [] =
                map (fun row => firstn (rope_head_dim + nope_head_dim)
                                  (skipn (h * (rope_head_dim + nope_head_dim)) row)) rows_b).
  { rewrite EKb.
    rewrite (nth_indep _ [] (map (fun row : list R =>
               firstn (rope_head_dim + nope_head_dim)
                      (skipn (0 * (rope_head_dim + nope_head_dim)) row)) rows_b))
      by (rewrite length_map, length_seq; exact Hh).
    rewrite (map_nth (fun hd => map (fun row : list R =>
               firstn (rope_head_dim + nope_head_dim)
                      (skipn (hd * (rope_head_dim + nope_head_dim)) row)) rows_b)).
    rewrite seq_nth by exact Hh. reflexivity. }
  assert (LKh : length (nth h (nth b K []) []) = length (nth b indices []))
    by (rewrite EKh; unfold rows_b; rewrite !length_map; reflexivity).
  assert (Lrow : length (nth j (nth h (nth b K []) []) []) = (rope_head_dim + nope_head_dim)%nat).
  { rewrite EKh.
    rewrite (nth_indep _ [] (firstn (rope_head_dim + nope_head_dim)
                                    (skipn (h * (rope_head_dim + nope_head_dim)) [])))
      by (rewrite length_map; unfold rows_b; rewrite !length_map; exact Hj).
    rewrite (map_nth (fun row : list R => firstn (rope_head_dim + nope_head_dim)
                                            (skipn (h * (rope_head_dim + nope_head_dim)) row))).
    rewrite length_firstn, length_skipn.
    assert (Lr : length (nth j rows_b []) = length (selection_k m)).
    { unfold rows_b.
      rewrite (nth_indep _ [] (linear (selection_k m) []))
        by (rewrite !length_map; exact Hj).
      rewrite (map_nth (linear (selection_k m))). apply linear_length. }
    rewrite Lr, HW. nia. }
  unfold keys_rotated_compacted. fold K.
  unfold recombine.
  rewrite (nth_zipWith _ _ _ b [] [] []) by (rewrite !length_map; lia).
  rewrite !(map_nth (map (map (firstn nope_head_dim))) K [] b : nth b (map _ K) [] = _).
  rewrite (map_nth (map (rotate_spec (freqs_cis m)))
                   (map (map (map (skipn nope_head_dim))) K) [] b
           : nth b (map _ _) [] = _).
  rewrite (map_nth (map (map (skipn nope_head_dim))) K [] b : nth b (map _ K) [] = _).
  rewrite recombine_item_nth
    by (rewrite !length_map; try reflexivity; rewrite EKb, length_map, length_seq; exact Hh).
  rewrite (map_nth (map (firstn nope_head_dim)) (nth b K []) [] h : nth h (map _ _) [] = _).
  rewrite (nth_indep (map (rotate_spec (freqs_cis m))
                          (map (map (skipn nope_head_dim)) (nth b K [])))
                     [] (rotate_spec (freqs_cis m) []))
    by (rewrite !length_map, EKb, length_map, length_seq; exact Hh).
  rewrite (map_nth (rotate_spec (freqs_cis m))).
  rewrite (map_nth (map (skipn nope_head_dim)) (nth b K []) [] h : nth h (map _ _) [] = _).
  rewrite (nth_zipWith (@app R) _ _ j [] [] [])
    by (rewrite ?rotate_spec_length, !length_map; lia).
  rewrite (map_nth (firstn nope_head_dim) (nth h (nth b K []) []) [] j
           : nth j (map _ _) [] = _).
  rewrite rotate_spec_nth by (rewrite length_map; lia).
  rewrite (map_nth (skipn nope_head_dim) (nth h (nth b K []) []) [] j
           : nth j (map _ _) [] = _).
  rewrite skipn_app, skipn_all2 by (rewrite length_firstn; lia).
  rewrite length_firstn, Lrow.
  replace (nope_head_dim - Nat.min nope_head_dim (rope_head_dim + nope_head_dim))%nat
    with 0%nat by (unfold nope_head_dim, rope_head_dim; lia).
  reflexivity.
Qed.

End SelectionRope.

Lemma selection_branch_rope_positions_witness :
  exists k_selected v_selected,
    selection_branch topk_first (example_attn (example_config 4 1 128) false) [[[0]; [1]]] =
    Ok (k_selected, v_selected,
        map (selected_indices_of topk_first (example_attn (example_config 4 1 128) false) 2)
            (linear3 [[1]] [[[0]; [1]]])).
Proof.
  destruct (selection_branch_rope_positions topk_first topk_first_length
              (example_attn (example_config 4 1 128) false) [[[0]; [1]]])
    as (k & v & H & _).
  - simpl. lia.
  - repeat constructor.
  - reflexivity.
  - reflexivity.
  - simpl. lia.
  - exists k, v. exact H.
Defined.

Lemma example_indices :
  map (selected_indices_of topk_first (example_attn (example_config 4 1 128) false) 2)
      (linear3 (importance_scorer (example_attn (example_config 4 1 128) false)) [[[0]; [1]]]) = [[1%nat]].
Proof.
  unfold selected_indices_of, topk_first. simpl.
  unfold dot, sum; simpl.
  destruct (Rlt_dec (1 * 1 + 0) (1 * 0 + 0)) as [H|H]; [lra|]. reflexivity.
Qed.

Lemma first_frequency (d : R) : 1 / Rpower 10000 (0 / d) = 1.
Proof.
  unfold Rdiv at 2. rewrite Rmult_0_l, Rpower_O by lra. lra.
Qed.

Lemma sin_1_pos : 0 < sin 1.
Proof.
  apply sin_gt_0; [lra|]. pose proof PI2_1. lra.
Qed.

(** C1, as stated, fails.  With two tokens of which the second is selected,
    the key of the selected token is rotated by the table row 0, its position
    in the selected set, and not by the row 1 of its index in the input: the
    first rotary entry is 0 where the rotation by row 1 gives [- sin 1]. *)
Lemma selection_branch_not_original_positions :
  exists k_selected v_selected indices,
    selection_branch topk_first (example_attn (example_config 4 1 128) false) [[[0]; [1]]]
    = Ok (k_selected, v_selected, indices) /\
    indices = [[1%nat]] /\
    k_selected <>
    keys_rotated_original (example_attn (example_config 4 1 128) false) indices
      (selected_keys (example_attn (example_config 4 1 128) false) [[[0]; [1]]] indices).
Proof.
  destruct (selection_branch_Ok topk_first topk_first_length
              (example_attn (example_config 4 1 128) false) [[[0]; [1]]]) as [v Hv].
  - simpl. lia.
  - repeat constructor.
  - reflexivity.
  - reflexivity.
  - simpl. lia.
  - cbv zeta in Hv. change (size1 [[[0]; [1]]]) with 2%nat in Hv.
    rewrite example_indices in Hv.
    eexists; eexists; eexists. split; [exact Hv|]. split; [reflexivity|].
    intros Heq.
    apply (f_equal (fun t => nth 32 (nth 0 (nth 0 (nth 0 t []) []) []) 0)) in Heq.
    simpl in Heq. rewrite !first_frequency in Heq.
    unfold dot, sum in Heq. simpl in Heq.
    rewrite Rmult_0_l, Rmult_1_l, sin_0 in Heq.
    pose proof sin_1_pos. lra.
Qed.

(** ** Window branch *)

(** C2 (the code departs from the specification).  [forward] asks for the window
    tokens without a decoding position, so the window branch is built from
    every token of the input in inference mode as well: with a window of 2 and
    an input of 4 tokens the branch has keys and values for 4 positions.
    The helper itself, given a position, returns the 2 tokens of the window. *)
Theorem window_branch_uses_whole_sequence :
  (forall (m : Attn) (x : tensor3), _get_sliding_window_tokens m x None = x) /\
  (let m := example_attn (example_config 8 1 2) false in
   let x := [[[1]; [2]; [3]; [4]]] in
   window_size (cfg m) = 2%nat /\ training m = false /\
   (exists k_window v_window,
      window_branch m x = Ok (k_window, v_window) /\
      map (map (@length (list R))) k_window = [[4%nat]] /\
      map (map (@length (list R))) v_window = [[4%nat]]) /\
   _get_sliding_window_tokens m x (Some 3%Z) = [[[3]; [4]]]).
Proof.
  split; [reflexivity|].
  intros m x. split; [reflexivity|]. split; [reflexivity|]. split.
  - eexists; eexists. split; [reflexivity|]. split; reflexivity.
  - reflexivity.
Qed.

(** ** Inference cache *)

Lemma zeros4_shaped (B H L D : nat) : kv_shaped B H L (zeros4 B H L D).
Proof.
  unfold kv_shaped, zeros4. split; [apply repeat_length|].
  apply Forall_forall. intros tb Htb. apply repeat_spec in Htb as ->.
  split; [apply repeat_length|].
  apply Forall_forall. intros th Hth. apply repeat_spec in Hth as ->. apply repeat_length.
Qed.

Lemma cache_for_batch_shaped (m : Attn) (B : nat) :
  cache_ok m ->
  kv_shaped B (n_head (cfg m)) (ctx_len (cfg m)) (fst (fst (cache_for_batch m B))) /\
  kv_shaped B (n_head (cfg m)) (ctx_len (cfg m)) (snd (fst (cache_for_batch m B))) /\
  (snd (cache_for_batch m B) <= ctx_len (cfg m))%nat.
Proof.
  intros [Hf Hc]. unfold cache_for_batch.
  destruct (k_cache m) as [kc|]; [destruct (v_cache m) as [vc|]|];
    try (simpl; repeat split; try apply zeros4_shaped; lia).
  destruct (Nat.eqb_spec (length kc) B) as [<-|Hne]; simpl.
  - destruct Hc as [Hk Hv]. repeat split; try apply Hk; try apply Hv; assumption.
  - repeat split; try apply zeros4_shaped; lia.
Qed.

Lemma mapM2s_Ok {A B C : Type} (P : A -> B -> Prop) (f : A -> B -> result C)
      (g : A -> B -> C) (xs : list A) (ys : list B) :
  (forall a b, P a b -> f a b = Ok (g a b)) ->
  Forall2 P xs ys -> mapM2s f xs ys = Ok (zipWith g xs ys).
Proof.
  intros Hf H. unfold mapM2s.
  rewrite (Forall2_length_eq _ _ _ H), Nat.eqb_refl.
  eapply mapM2_Ok; eauto.
Qed.

Lemma Forall2_of_Forall {A B : Type} (P : A -> Prop) (Q : B -> Prop) (xs : list A) (ys : list B) :
  length xs = length ys -> Forall P xs -> Forall Q ys ->
  Forall2 (fun a b => P a /\ Q b) xs ys.
Proof.
  intros Hl Hx; revert ys Hl; induction Hx as [|x xs Hp _ IH]; intros [|y ys] Hl Hy;
    simpl in Hl; try discriminate; constructor.
  - inversion Hy; auto.
  - inversion Hy; subst. apply IH; [lia|assumption].
Qed.

Lemma assign_rows_Ok {A : Type} (dst src : list A) (f0 nf : nat) :
  (f0 <= nf)%nat -> (nf <= length dst)%nat -> length src = (nf - f0)%nat ->
  assign_rows dst f0 nf src = Ok (firstn f0 dst ++ src ++ skipn nf dst).
Proof.
  intros H1 H2 H3. unfold assign_rows, slice.
  rewrite length_firstn, length_skipn, H3.
  replace (Nat.min (nf - f0) (length dst - f0)) with (nf - f0)%nat by lia.
  rewrite Nat.eqb_refl. replace (Nat.max f0 nf) with nf by lia. reflexivity.
Qed.

Lemma cache_write_Ok (B H L T f0 nf : nat) (cache new : tensor4) :
  kv_shaped B H L cache -> kv_shaped B H T new ->
  (f0 <= nf)%nat -> (nf <= L)%nat -> (nf - f0 <= T)%nat ->
  mapM2s (mapM2s (fun dst src => assign_rows dst f0 nf src))
         cache (map (map (firstn (nf - f0))) new)
  = Ok (cache_write f0 nf cache new) /\
  kv_shaped B H L (cache_write f0 nf cache new).
Proof.
  intros [Lc Fc] [Ln Fn] H1 H2 H3.
  assert (F2 : Forall2 (fun cb nb : tensor3 =>
                          (length cb = H /\ Forall (fun th : mat => length th = L) cb) /\
                          (length nb = H /\ Forall (fun th : mat => length th = T) nb)) cache new)
    by (apply Forall2_of_Forall; [congruence|assumption|assumption]).
  clear Fc Fn. split.
  - unfold cache_write.
    assert (E : forall (cb nb : tensor3),
               (length cb = H /\ Forall (fun th : mat => length th = L) cb) /\
               (length nb = H /\ Forall (fun th : mat => length th = T) nb) ->
               mapM2s (fun dst src => assign_rows dst f0 nf src) cb
                      (map (firstn (nf - f0)) nb)
               = Ok (zipWith (fun dst src : mat =>
                                firstn f0 dst ++ firstn (nf - f0) src ++ skipn nf dst) cb nb)).
    { intros cb nb [[Lcb Fcb] [Lnb Fnb]].
      pose proof (Forall2_of_Forall _ _ cb nb (eq_trans Lcb (eq_sym Lnb)) Fcb Fnb) as F2'.
      clear -F2' H1 H2 H3. unfold mapM2s. rewrite length_map.
      rewrite (Forall2_length_eq _ _ _ F2'), Nat.eqb_refl.
      induction F2' as [|dst src cb nb [Hd Hs] _ IH]; simpl; auto.
      rewrite assign_rows_Ok by (rewrite ?length_firstn; lia). simpl.
      rewrite IH. reflexivity. }
    clear -F2 E. unfold mapM2s at 1. rewrite length_map.
    rewrite (Forall2_length_eq _ _ _ F2), Nat.eqb_refl.
    induction F2 as [|cb nb cache new Hcn _ IH]; simpl; auto.
    rewrite (E cb nb Hcn). simpl. rewrite IH. reflexivity.
  - unfold kv_shaped, cache_write. split.
    + rewrite zipWith_length. lia.
    + clear Lc Ln. induction F2 as [|cb nb cache new [[Lcb Fcb] [Lnb Fnb]] _ IH]; simpl; constructor; auto.
      split; [rewrite zipWith_length; lia|].
      pose proof (Forall2_of_Forall _ _ cb nb (eq_trans Lcb (eq_sym Lnb)) Fcb Fnb) as F2'.
      clear -F2' H1 H2 H3.
      induction F2' as [|dst src cb nb [Hd Hs] _ IH]; simpl; constructor; auto.
      rewrite !length_app, !length_firstn, length_skipn. lia.
Qed.

Lemma cache_update_append (m : Attn) (B T : nat) (k v : tensor4) :
  cache_ok m ->
  kv_shaped B (n_head (cfg m)) T k -> kv_shaped B (n_head (cfg m)) T v ->
  let k0 := fst (fst (cache_for_batch m B)) in
  let v0 := snd (fst (cache_for_batch m B)) in
  let f0 := snd (cache_for_batch m B) in
  let nf := Nat.min (f0 + T) (ctx_len (cfg m)) in
  cache_update m B T k v =
  Ok (set_cache m (Some (cache_write f0 nf k0 k)) (Some (cache_write f0 nf v0 v)) nf) /\
  kv_shaped B (n_head (cfg m)) (ctx_len (cfg m)) (cache_write f0 nf k0 k) /\
  kv_shaped B (n_head (cfg m)) (ctx_len (cfg m)) (cache_write f0 nf v0 v).
Proof.
  intros Hok Hk Hv k0 v0 f0 nf.
  destruct (cache_for_batch_shaped m B Hok) as (Sk & Sv & Hf).
  fold k0 in Sk. fold v0 in Sv. fold f0 in Hf.
  destruct (cache_write_Ok B (n_head (cfg m)) (ctx_len (cfg m)) T f0 nf k0 k Sk Hk)
    as [Ek Sk']; try (unfold nf; lia).
  destruct (cache_write_Ok B (n_head (cfg m)) (ctx_len (cfg m)) T f0 nf v0 v Sv Hv)
    as [Ev Sv']; try (unfold nf; lia).
  split; [|split; assumption].
  unfold cache_update.
  destruct (cache_for_batch m B) as [[k0' v0'] f0'] eqn:E. simpl in k0, v0, f0.
  subst k0 v0 f0. fold nf. rewrite Ek. simpl. rewrite Ev. reflexivity.
Qed.

Lemma cache_update_filled (m m' : Attn) (B T : nat) (k v : tensor4) :
  cache_update m B T k v = Ok m' ->
  cache_filled m' = Nat.min (snd (cache_for_batch m B) + T) (ctx_len (cfg m)) /\
  cfg m' = cfg m.
Proof.
  unfold cache_update.
  destruct (cache_for_batch m B) as [[k0 v0] f0]. simpl.
  destruct (mapM2s _ k0 _) as [k1|e]; simpl; [|discriminate].
  destruct (mapM2s _ v0 _) as [v1|e]; simpl; [|discriminate].
  intros H; injection H as <-. split; reflexivity.
Qed.

(** ** Shapes inside [forward] *)

Lemma split_heads_shaped (n d T : nat) (x : tensor3) :
  Forall (fun xb : mat => length xb = T) x ->
  kv_shaped (length x) n T (split_heads n d x).
Proof.
  intros Hx. unfold kv_shaped, split_heads. split; [apply length_map|].
  apply Forall_forall. intros tb Htb. apply in_map_iff in Htb as (xb & <- & Hxb).
  rewrite length_map, length_seq. split; [reflexivity|].
  apply Forall_forall. intros th Hth. apply in_map_iff in Hth as (hd & <- & _).
  rewrite length_map. rewrite Forall_forall in Hx. auto.
Qed.

Lemma linear3_rows (W : mat) (T : nat) (x : tensor3) :
  Forall (fun xb : mat => length xb = T) x ->
  Forall (fun xb : mat => length xb = T) (linear3 W x).
Proof.
  intros Hx. unfold linear3. apply Forall_forall. intros tb Htb.
  apply in_map_iff in Htb as (xb & <- & Hxb). rewrite length_map.
  rewrite Forall_forall in Hx. auto.
Qed.

Lemma rms_norm3_rows (eps : R) (w : list R) (T : nat) (x : tensor3) :
  Forall (fun xb : mat => length xb = T) x ->
  Forall (fun xb : mat => length xb = T) (rms_norm3 eps w x).
Proof.
  intros Hx. unfold rms_norm3. apply Forall_forall. intros tb Htb.
  apply in_map_iff in Htb as (xb & <- & Hxb). rewrite length_map.
  rewrite Forall_forall in Hx. auto.
Qed.

Lemma kv_shaped_map_slices (f : mat -> mat) (B H T : nat) (t : tensor4) :
  (forall th, length (f th) = length th) ->
  kv_shaped B H T t -> kv_shaped B H T (map (map f) t).
Proof.
  intros Hf [Lt Ft]. unfold kv_shaped. rewrite length_map. split; [assumption|].
  apply Forall_forall. intros tb Htb. apply in_map_iff in Htb as (tb0 & <- & Htb0).
  rewrite Forall_forall in Ft. destruct (Ft tb0 Htb0) as [Lh Fh].
  rewrite length_map. split; [assumption|].
  apply Forall_forall. intros th Hth. apply in_map_iff in Hth as (th0 & <- & Hth0).
  rewrite Hf. rewrite Forall_forall in Fh. auto.
Qed.

Lemma recombine_shaped (B H T : nat) (x y : tensor4) :
  kv_shaped B H T x -> (kv_shaped B 1 T y \/ kv_shaped B H T y) ->
  kv_shaped B H T (recombine x y).
Proof.
  intros [Lx Fx] Hy.
  assert (Ly : length y = B) by (destruct Hy as [[L _]|[L _]]; exact L).
  assert (Fy : Forall (fun yb : tensor3 =>
                         (length yb = 1%nat \/ length yb = H) /\
                         Forall (fun th : mat => length th = T) yb) y).
  { destruct Hy as [[_ F]|[_ F]]; apply Forall_forall; intros yb Hyb;
      rewrite Forall_forall in F; destruct (F yb Hyb); auto. }
  clear Hy. unfold kv_shaped, recombine. split; [rewrite zipWith_length; lia|].
  pose proof (Forall2_of_Forall _ _ x y (eq_trans Lx (eq_sym Ly)) Fx Fy) as F2.
  clear -F2. induction F2 as [|xb yb x y [[Lxb Fxb] [Lyb Fyb]] _ IH]; simpl; constructor; auto.
  assert (Hz : length (zipWith (zipWith (@app R)) xb yb) = H ->
               (length (zipWith (zipWith (@app R)) xb yb) = H /\
                Forall (fun th : mat => length th = T) (zipWith (zipWith (@app R)) xb yb))).
  { intros Hl. split; [assumption|].
    clear -Fxb Fyb. revert yb Fyb. induction Fxb as [|xh xb Hxh _ IHx]; intros [|yh yb] Fyb;
      simpl; constructor.
    - inversion Fyb; subst. rewrite zipWith_length. lia.
    - inversion Fyb; subst. apply IHx. assumption. }
  destruct yb as [|yh [|yh' yb]].
  - apply Hz. rewrite zipWith_length. simpl in *. lia.
  - rewrite length_map. split; [assumption|].
    inversion Fyb; subst.
    apply Forall_forall. intros th Hth. apply in_map_iff in Hth as (xh & <- & Hxh).
    rewrite zipWith_length. rewrite Forall_forall in Fxb. rewrite (Fxb xh Hxh). lia.
  - apply Hz. rewrite zipWith_length. simpl in *. lia.
Qed.

Lemma split_heads_slices (n d : nat) (W : mat) (toks : tensor3) (xb : tensor3) (xh : mat) :
  length W = (n * d)%nat ->
  In xb (split_heads n d (linear3 W toks)) -> In xh xb ->
  Forall (fun r => length r = d) xh /\ exists tb, In tb toks /\ length xh = length tb.
Proof.
  intros HW Hxb Hxh.
  unfold split_heads, linear3 in Hxb. rewrite !map_map in Hxb.
  apply in_map_iff in Hxb as (tb & <- & Htb).
  apply in_map_iff in Hxh as (hd & <- & Hhd). apply in_seq in Hhd.
  split.
  - apply Forall_forall. intros r Hr. rewrite !map_map in Hr.
    apply in_map_iff in Hr as (tok & <- & _).
    rewrite length_firstn, length_skipn, linear_length, HW. nia.
  - exists tb. split; [assumption|]. rewrite !length_map. reflexivity.
Qed.

Lemma table_rope_shaped (m : Attn) (xh : mat) :
  freqs_cis m = precompute_freqs_cis rope_head_dim (ctx_len (cfg m)) 10000 ->
  Forall (fun r => length r = rope_head_dim) xh ->
  (length xh <= ctx_len (cfg m))%nat ->
  rope_shaped 32 xh (freqs_cis m).
Proof.
  intros Ht Fr Hl. rewrite Ht.
  destruct (precompute_freqs_cis_shape 32 (ctx_len (cfg m)) 10000) as (L1 & L2 & F1 & F2).
  unfold rope_shaped. change rope_head_dim with (2 * 32)%nat in *.
  rewrite L1, L2. auto.
Qed.

Lemma queries_Ok (m : Attn) (x : tensor3) :
  Attn_wf m -> input_ok m x ->
  exists q, queries m x = Ok q.
Proof.
  intros (Hq & _ & _ & _ & Ht & _) [Hx HT]. unfold queries.
  rewrite (apply_rope4_spec 32).
  - simpl. eauto.
  - intros xb Hxb xh Hxh.
    destruct (split_heads_slices _ _ _ _ xb xh Hq Hxb Hxh) as (Fr & tb & Htb & Ltb).
    apply table_rope_shaped; auto.
    rewrite Ltb. unfold rms_norm3, linear3 in Htb. rewrite !map_map in Htb.
    apply in_map_iff in Htb as (xb0 & <- & Hxb0). rewrite !length_map.
    rewrite Forall_forall in Hx. rewrite (Hx xb0 Hxb0). assumption.
Qed.

Lemma scale4_shaped (c : R) (B H T : nat) (t : tensor4) :
  kv_shaped B H T t -> kv_shaped B H T (scale4 c t).
Proof.
  intros Ht. unfold scale4. apply kv_shaped_map_slices; [|assumption].
  intros th. apply length_map.
Qed.

Lemma add4_shaped (B H T : nat) (a b : tensor4) :
  kv_shaped B H T a -> kv_shaped B H T b -> kv_shaped B H T (add4 a b).
Proof.
  intros [La Fa] [Lb Fb]. unfold kv_shaped, add4. split; [rewrite zipWith_length; lia|].
  pose proof (Forall2_of_Forall _ _ a b (eq_trans La (eq_sym Lb)) Fa Fb) as F2.
  clear -F2. induction F2 as [|ab bb a b [[Lab Fab] [Lbb Fbb]] _ IH]; simpl; constructor; auto.
  split; [rewrite zipWith_length; lia|].
  pose proof (Forall2_of_Forall _ _ ab bb (eq_trans Lab (eq_sym Lbb)) Fab Fbb) as F2'.
  clear -F2'. induction F2' as [|ah bh ab bb [Ha Hb] _ IH]; simpl; constructor; auto.
  rewrite zipWith_length. lia.
Qed.

Lemma shaped4_kv_shaped (B H L D : nat) (t : tensor4) :
  shaped4 B H L D t -> kv_shaped B H L t.
Proof.
  intros [Lt Ft]. split; [assumption|].
  eapply Forall_impl; [|exact Ft]. intros tb [Lh Fh]. split; [assumption|].
  eapply Forall_impl; [|exact Fh]. intros th [Ll _]. assumption.
Qed.

Lemma split_heads_shaped4 (n d T : nat) (W : mat) (x : tensor3) :
  length W = (n * d)%nat ->
  Forall (fun xb : mat => length xb = T) x ->
  shaped4 (length x) n T d (split_heads n d (linear3 W x)).
Proof.
  intros HW Hx. unfold shaped4, split_heads, linear3.
  split; [rewrite !length_map; reflexivity|].
  rewrite map_map. apply Forall_forall. intros tb Htb.
  apply in_map_iff in Htb as (xb & <- & Hxb).
  rewrite length_map, length_seq. split; [reflexivity|].
  apply Forall_forall. intros th Hth. apply in_map_iff in Hth as (h & <- & Hh).
  apply in_seq in Hh. rewrite !length_map. rewrite Forall_forall in Hx.
  split; [auto|].
  apply Forall_forall. intros r Hr. rewrite map_map in Hr.
  apply in_map_iff in Hr as (tok & <- & _).
  rewrite length_firstn, length_skipn, linear_length, HW. nia.
Qed.

Lemma refill1_same (D : nat) (v t : mat) (rest : list R) :
  Forall (fun r => length r = D) v -> Forall (fun r => length r = D) t ->
  length v = length t ->
  refill1 t (concat v ++ rest) = v.
Proof.
  intros Hv; revert t; induction Hv as [|r v Hr _ IH]; intros [|s t] Ht Hl;
    simpl in *; try discriminate; [reflexivity|].
  apply Forall_cons_iff in Ht as [Hs Ht'].
  rewrite <- app_assoc, Hs, <- Hr.
  rewrite firstn_app, Nat.sub_diag, firstn_all, firstn_O, app_nil_r.
  rewrite skipn_app, Nat.sub_diag, skipn_all, skipn_O. simpl.
  rewrite IH; [reflexivity|assumption|lia].
Qed.

Lemma concat_length_rows (D : nat) (v : mat) :
  Forall (fun r => length r = D) v -> length (concat v) = (length v * D)%nat.
Proof.
  induction 1 as [|r v Hr _ IH]; simpl; [reflexivity|]. rewrite length_app, IH, Hr. lia.
Qed.

Lemma refill2_same (L D : nat) (v t : tensor3) (rest : list R) :
  Forall (fun th : mat => length th = L /\ Forall (fun r => length r = D) th) v ->
  Forall (fun th : mat => length th = L /\ Forall (fun r => length r = D) th) t ->
  length v = length t ->
  refill2 t (concat (concat v) ++ rest) = v.
Proof.
  intros Hv; revert t; induction Hv as [|a v [La Fa] _ IH]; intros [|b t] Ht Hl;
    simpl in *; try discriminate; [reflexivity|].
  apply Forall_cons_iff in Ht as [[Lb Fb] Ht'].
  rewrite concat_app, <- app_assoc.
  rewrite (refill1_same D a b) by (try assumption; lia).
  rewrite (concat_length_rows D b Fb), Lb, <- La, <- (concat_length_rows D a Fa).
  rewrite skipn_app, Nat.sub_diag, skipn_all, skipn_O. simpl.
  rewrite IH; [reflexivity|assumption|lia].
Qed.

Lemma concat_length_slices (L D : nat) (v : tensor3) :
  Forall (fun th : mat => length th = L /\ Forall (fun r => length r = D) th) v ->
  length (concat (concat v)) = (length v * (L * D))%nat.
Proof.
  induction 1 as [|a v [La Fa] _ IH]; simpl; [reflexivity|].
  rewrite concat_app, length_app, IH, (concat_length_rows D a Fa), La. lia.
Qed.

Lemma refill3_same (H L D : nat) (v t : tensor4) (rest : list R) :
  Forall (fun tb : tensor3 =>
            length tb = H /\
            Forall (fun th : mat => length th = L /\ Forall (fun r => length r = D) th) tb) v ->
  Forall (fun tb : tensor3 =>
            length tb = H /\
            Forall (fun th : mat => length th = L /\ Forall (fun r => length r = D) th) tb) t ->
  length v = length t ->
  refill3 t (concat (concat (concat v)) ++ rest) = v.
Proof.
  intros Hv; revert t; induction Hv as [|a v [La Fa] _ IH]; intros [|b t] Ht Hl;
    simpl in *; try discriminate; [reflexivity|].
  apply Forall_cons_iff in Ht as [[Lb Fb] Ht'].
  rewrite !concat_app, <- app_assoc.
  rewrite (refill2_same L D a b) by (try assumption; lia).
  rewrite (concat_length_slices L D b Fb), Lb, <- La, <- (concat_length_slices L D a Fa).
  rewrite skipn_app, Nat.sub_diag, skipn_all, skipn_O. simpl.
  rewrite IH; [reflexivity|assumption|lia].
Qed.

Lemma flatten4_length (B H L D : nat) (t : tensor4) :
  shaped4 B H L D t -> length (flatten4 t) = (B * (H * (L * D)))%nat.
Proof.
  intros [Lt Ft]. unfold flatten4. subst B.
  induction Ft as [|a t [La Fa] _ IH]; simpl; [reflexivity|].
  rewrite !concat_app, length_app, IH, (concat_length_slices L D a Fa), La. lia.
Qed.

(** A carried tensor that has the shape of the value tensor is viewed as it
    is. *)
Lemma view_as_same (B H L D : nat) (v t : tensor4) :
  shaped4 B H L D v -> shaped4 B H L D t -> view_as v t = Ok v.
Proof.
  intros Sv St. unfold view_as.
  rewrite (flatten4_length B H L D v Sv), (flatten4_length B H L D t St), Nat.eqb_refl.
  destruct Sv as [Lv Fv], St as [Lt Ft].
  rewrite <- (app_nil_r (flatten4 v)). unfold flatten4.
  rewrite (refill3_same H L D v t); [reflexivity|assumption|assumption|congruence].
Qed.

Lemma fresh_value_shaped4 (m : Attn) (x : tensor3) :
  Attn_wf m -> input_ok m x ->
  shaped4 (length x) (n_head (cfg m)) (size1 x) v_head_dim
    (split_heads (n_head (cfg m)) v_head_dim
       (linear3 (decompress_v_linear m)
          (rms_norm3 (rms_norm_eps (cfg m)) (kv_norm m) (linear3 (compress_kv_linear m) x)))).
Proof.
  intros (_ & _ & _ & _ & _ & _ & Hv & _) [Hx _].
  replace (length x) with
    (length (rms_norm3 (rms_norm_eps (cfg m)) (kv_norm m) (linear3 (compress_kv_linear m) x)))
    by (unfold linear3, rms_norm3; rewrite !length_map; reflexivity).
  apply split_heads_shaped4; [assumption|].
  apply rms_norm3_rows, linear3_rows. assumption.
Qed.

Lemma value_1_shaped (m : Attn) (x : tensor3) (v1 : option tensor4) :
  input_ok m x -> carried_ok m x v1 ->
  kv_shaped (length x) (n_head (cfg m)) (size1 x) (value_1_of m x v1).
Proof.
  intros [Hx _] Hv. unfold value_1_of.
  assert (S0 : kv_shaped (length x) (n_head (cfg m)) (size1 x)
                 (split_heads (n_head (cfg m)) v_head_dim
                    (linear3 (decompress_v_linear m)
                       (rms_norm3 (rms_norm_eps (cfg m)) (kv_norm m)
                          (linear3 (compress_kv_linear m) x))))).
  { replace (length x) with
      (length (linear3 (decompress_v_linear m)
                 (rms_norm3 (rms_norm_eps (cfg m)) (kv_norm m)
                    (linear3 (compress_kv_linear m) x))))
      by (unfold linear3, rms_norm3; rewrite !length_map; reflexivity).
    apply split_heads_shaped. apply linear3_rows, rms_norm3_rows, linear3_rows. assumption. }
  destruct v1 as [t|]; [|assumption].
  apply add4_shaped; apply scale4_shaped; [assumption|].
  exact (shaped4_kv_shaped _ _ _ _ _ Hv).
Qed.

Lemma global_branch_Ok (m : Attn) (x : tensor3) (v1 : option tensor4) :
  Attn_wf m -> input_ok m x -> carried_ok m x v1 ->
  exists k, global_branch m x v1 = Ok (k, value_1_of m x v1) /\
            kv_shaped (length x) (n_head (cfg m)) (size1 x) k.
Proof.
  intros Hwf Hin Hv. pose proof Hwf as (_ & Hkr & _ & _ & Ht & _).
  pose proof Hin as [Hx HT]. unfold global_branch.
  assert (Hval : match v1 with
                 | Some t =>
                   t' <- view_as t
                           (split_heads (n_head (cfg m)) v_head_dim
                              (linear3 (decompress_v_linear m)
                                 (rms_norm3 (rms_norm_eps (cfg m)) (kv_norm m)
                                    (linear3 (compress_kv_linear m) x)))) ;;
                   Ok (add4 (scale4 (1 - lamb_v m)
                               (split_heads (n_head (cfg m)) v_head_dim
                                  (linear3 (decompress_v_linear m)
                                     (rms_norm3 (rms_norm_eps (cfg m)) (kv_norm m)
                                        (linear3 (compress_kv_linear m) x)))))
                            (scale4 (lamb_v m) t'))
                 | None =>
                   Ok (split_heads (n_head (cfg m)) v_head_dim
                         (linear3 (decompress_v_linear m)
                            (rms_norm3 (rms_norm_eps (cfg m)) (kv_norm m)
                               (linear3 (compress_kv_linear m) x))))
                 end = Ok (value_1_of m x v1)).
  { destruct v1 as [t|]; [|reflexivity]. simpl in Hv.
    rewrite (view_as_same _ _ _ _ t _ Hv (fresh_value_shaped4 m x Hwf Hin)). reflexivity. }
  cbv zeta. rewrite Hval. cbn [bind].
  rewrite (apply_rope4_spec 32).
  - simpl. eexists. split; [reflexivity|].
    apply recombine_shaped.
    + replace (length x) with
        (length (linear3 (decompress_k_nope m)
                   (rms_norm3 (rms_norm_eps (cfg m)) (kv_norm m)
                      (linear3 (compress_kv_linear m) x))))
        by (unfold linear3, rms_norm3; rewrite !length_map; reflexivity).
      apply split_heads_shaped. apply linear3_rows, rms_norm3_rows, linear3_rows. assumption.
    + left. apply kv_shaped_map_slices; [intros th; apply rotate_spec_length|].
      apply kv_shaped_map_slices; [intros th; apply length_map|].
      replace (length x) with (length (linear3 (k_rope_linear m) x))
        by (unfold linear3; rewrite !length_map; reflexivity).
      apply split_heads_shaped. apply linear3_rows. assumption.
  - intros xb Hxb xh Hxh.
    apply in_map_iff in Hxb as (xb0 & <- & Hxb0).
    apply in_map_iff in Hxh as (xh0 & <- & Hxh0).
    destruct (split_heads_slices _ _ _ _ xb0 xh0 Hkr Hxb0 Hxh0) as (Fr & tb & Htb & Ltb).
    apply table_rope_shaped; auto.
    + apply Forall_forall. intros r Hr. apply in_map_iff in Hr as (r0 & <- & Hr0).
      rewrite length_map. rewrite Forall_forall in Fr. auto.
    + rewrite length_map, Ltb. rewrite Forall_forall in Hx. rewrite (Hx tb Htb). assumption.
Qed.

Lemma window_branch_Ok (m : Attn) (x : tensor3) :
  Attn_wf m -> input_ok m x ->
  exists k v, window_branch m x = Ok (k, v).
Proof.
  intros (_ & _ & _ & Hw & Ht & _) [Hx HT]. unfold window_branch.
  rewrite (apply_rope4_spec 32).
  - simpl. eauto.
  - intros xb Hxb xh Hxh.
    destruct (rope_part_shape _ nope_head_dim rope_head_dim _ _ xb xh Hw Hxb Hxh)
      as (Fr & tb & Htb & Ltb).
    apply table_rope_shaped; auto.
    rewrite Ltb. simpl in Htb. rewrite Forall_forall in Hx. rewrite (Hx tb Htb). assumption.
Qed.

(** ** Calls of [forward] *)

Section ForwardCalls.

Variable topk : list R -> nat -> list nat.
Variable scaled_dot_product_attention : tensor4 -> tensor4 -> tensor4 -> bool -> R -> tensor4.
Variable nn_dropout : R -> bool -> tensor3 -> tensor3.
Hypothesis topk_length : forall s k, (k <= length s)%nat -> length (topk s k) = k.

Abbreviation forward' := (forward topk scaled_dot_product_attention nn_dropout).
Abbreviation module_after' := (module_after topk scaled_dot_product_attention nn_dropout).

Lemma forward_module (m m' : Attn) (x out : tensor3) (v1 : option tensor4) (val : tensor4) :
  forward' m x v1 = Ok (out, val, m') ->
  (training m = true /\ m' = set_cache m (k_cache m) (v_cache m) 0) \/
  (training m = false /\
   exists k v, cache_update m (length x) (size1 x) k v = Ok m').
Proof.
  unfold forward.
  destruct (queries m x) as [q|e]; simpl; [|discriminate].
  destruct (global_branch m x v1) as [[k1 val1]|e]; simpl; [|discriminate].
  destruct (selection_branch topk m x) as [[[ks vs] idx]|e]; simpl; [|discriminate].
  destruct (window_branch m x) as [[kw vw]|e]; simpl; [|discriminate].
  destruct (training m) eqn:Etr; simpl.
  - intros H; injection H as _ _ <-. left. auto.
  - destruct (cache_update m (length x) (size1 x) k1 val1) as [m1|e] eqn:Ec; simpl; [|discriminate].
    intros H; injection H as _ _ <-. right. split; [reflexivity|]. eauto.
Qed.

Lemma cache_update_raised_filled (m : Attn) (B T : nat) (k : tensor4) :
  (cache_filled m <= ctx_len (cfg m))%nat ->
  cfg (cache_update_raised m B T k) = cfg m /\
  (cache_filled (cache_update_raised m B T k) <= ctx_len (cfg m))%nat.
Proof.
  intros Hf. unfold cache_update_raised.
  assert (H0 : (snd (cache_for_batch m B) <= ctx_len (cfg m))%nat).
  { unfold cache_for_batch. destruct (k_cache m) as [kc|], (v_cache m) as [vc|]; simpl; try lia.
    destruct (Nat.eqb (length kc) B); simpl; lia. }
  destruct (cache_for_batch m B) as [[k0 v0] f0]. simpl in H0.
  destruct (mapM2s _ k0 _) as [k1|e]; simpl; auto.
Qed.

(** After any call, in either mode and whether it returns or raises, the
    fill pointer is within the capacity. *)
Lemma module_after_filled (m : Attn) (x : tensor3) (v1 : option tensor4) :
  (cache_filled m <= ctx_len (cfg m))%nat ->
  (cache_filled (module_after' m x v1) <= ctx_len (cfg (module_after' m x v1)))%nat /\
  cfg (module_after' m x v1) = cfg m.
Proof.
  intros Hf. unfold module_after.
  destruct (forward' m x v1) as [[[out val] m']|e] eqn:E.
  - destruct (forward_module _ _ _ _ _ _ E) as [[_ ->]|[_ (k & v & Hc)]].
    + simpl. split; [lia|reflexivity].
    + destruct (cache_update_filled _ _ _ _ _ _ Hc) as [-> ->]. split; [lia|reflexivity].
  - destruct (_ <- queries m x ;; _) as [[k val]|e']; [|auto].
    destruct (training m); [auto|].
    destruct (cache_update_raised_filled m (length x) (size1 x) k Hf) as [-> H].
    split; [exact H|reflexivity].
Qed.

Lemma forward_calls_filled (m : Attn) (calls : list (tensor3 * option tensor4)) :
  (cache_filled m <= ctx_len (cfg m))%nat ->
  (cache_filled (forward_calls topk scaled_dot_product_attention nn_dropout m calls) <= ctx_len (cfg m))%nat.
Proof.
  revert m; induction calls as [|[x v1] calls IH]; intros m Hf; simpl; [assumption|].
  destruct (module_after_filled m x v1 Hf) as [H1 H2].
  rewrite <- H2. apply IH. assumption.
Qed.

(** An inference call on a well-formed input returns, and leaves the cache
    with the rows from the old fill pointer up to the new one overwritten by
    the first new timesteps. *)
Lemma forward_inference_Ok (m : Attn) (x : tensor3) (v1 : option tensor4) :
  Attn_wf m -> cache_ok m -> training m = false ->
  input_ok m x -> carried_ok m x v1 ->
  let k0 := fst (fst (cache_for_batch m (length x))) in
  let v0 := snd (fst (cache_for_batch m (length x))) in
  let f0 := snd (cache_for_batch m (length x)) in
  let nf := Nat.min (f0 + size1 x) (ctx_len (cfg m)) in
  exists out k,
    kv_shaped (length x) (n_head (cfg m)) (size1 x) k /\
    kv_shaped (length x) (n_head (cfg m)) (ctx_len (cfg m)) (cache_write f0 nf k0 k) /\
    kv_shaped (length x) (n_head (cfg m)) (ctx_len (cfg m))
              (cache_write f0 nf v0 (value_1_of m x v1)) /\
    forward' m x v1 =
    Ok (out, value_1_of m x v1,
        set_cache m (Some (cache_write f0 nf k0 k))
                  (Some (cache_write f0 nf v0 (value_1_of m x v1))) nf).
Proof.
  intros Hwf Hok Htr Hin Hv k0 v0 f0 nf.
  destruct (queries_Ok m x Hwf Hin) as [q Eq].
  destruct (global_branch_Ok m x v1 Hwf Hin Hv) as (k & Ek & Sk).
  destruct (window_branch_Ok m x Hwf Hin) as (kw & vw & Ew).
  pose proof Hwf as (_ & _ & Hsk & _ & Ht & Hkeep & _). pose proof Hin as [Hx HT].
  destruct (selection_branch_Ok topk topk_length m x Hkeep Hx Hsk Ht) as [vs Es]; [lia|].
  pose proof (value_1_shaped m x v1 Hin Hv) as Sv.
  destruct (cache_update_append m (length x) (size1 x) k (value_1_of m x v1) Hok Sk Sv)
    as (Ec & Sk' & Sv').
  fold k0 v0 f0 nf in Ec, Sk', Sv'.
  eexists. exists k.
  split; [exact Sk|]. split; [exact Sk'|]. split; [exact Sv'|].
  unfold forward. rewrite Eq, Ek. simpl. rewrite Es. simpl. rewrite Ew. simpl.
  rewrite Htr. rewrite Ec. simpl. reflexivity.
Qed.

End ForwardCalls.

Section InferenceCache.

Variable topk : list R -> nat -> list nat.
Variable scaled_dot_product_attention : tensor4 -> tensor4 -> tensor4 -> bool -> R -> tensor4.
Variable nn_dropout : R -> bool -> tensor3 -> tensor3.
Hypothesis topk_length : forall s k, (k <= length s)%nat -> length (topk s k) = k.

Abbreviation forward' := (forward topk scaled_dot_product_attention nn_dropout).
Abbreviation module_after' := (module_after topk scaled_dot_product_attention nn_dropout).
Abbreviation forward_calls' := (forward_calls topk scaled_dot_product_attention nn_dropout).

Lemma decode_step (m : Attn) (B : nat) (x : tensor3) (v1 : option tensor4) :
  Attn_wf m -> cache_ok m -> training m = false -> call_ok m B (x, v1) ->
  let m' := module_after' m x v1 in
  Attn_wf m' /\ cache_ok m' /\ training m' = false /\ cfg m' = cfg m /\
  snd (cache_for_batch m' B) = cache_filled m' /\
  cache_filled m' = Nat.min (snd (cache_for_batch m B) + size1 x) (ctx_len (cfg m)).
Proof.
  intros Hwf Hok Htr (Hin & Hv & HB). simpl in Hin, Hv, HB.
  destruct (forward_inference_Ok topk scaled_dot_product_attention nn_dropout topk_length
              m x v1 Hwf Hok Htr Hin Hv) as (out & k & Sk & Sk' & Sv' & E).
  intros m'. unfold m', module_after. rewrite E. rewrite HB in *.
  split; [exact Hwf|]. split; [|split; [exact Htr|split; [reflexivity|split]]].
  - unfold cache_ok. cbn [set_cache cache_filled k_cache v_cache cfg]. split; [lia|].
    destruct Sk' as [Lk Fk]. destruct Sv' as [Lv Fv]. rewrite Lk.
    split; split; assumption.
  - unfold cache_for_batch at 1. cbn [set_cache cache_filled k_cache v_cache cfg].
    destruct Sk' as [Lk _]. rewrite Lk, Nat.eqb_refl. reflexivity.
  - reflexivity.
Qed.

Lemma call_ok_cfg (m m' : Attn) (B : nat) (c : tensor3 * option tensor4) :
  cfg m' = cfg m -> call_ok m B c -> call_ok m' B c.
Proof.
  intros Hc (Hin & Hv & HB). unfold call_ok, input_ok, carried_ok in *.
  rewrite Hc. auto.
Qed.

Lemma decode_calls (B : nat) (calls : list (tensor3 * option tensor4)) (m : Attn) :
  Attn_wf m -> cache_ok m -> training m = false ->
  snd (cache_for_batch m B) = cache_filled m ->
  Forall (call_ok m B) calls ->
  cache_filled (forward_calls' m calls) =
  Nat.min (cache_filled m + timesteps calls) (ctx_len (cfg m)).
Proof.
  revert m; induction calls as [|[x v1] calls IH]; intros m Hwf Hok Htr Hb Hc; simpl.
  - destruct Hok as [Hf _]. lia.
  - inversion Hc as [|c cs Hc1 Hcs]; subst.
    destruct (decode_step m B x v1 Hwf Hok Htr Hc1) as (Hwf' & Hok' & Htr' & Hcfg & Hb' & Hf').
    rewrite IH; try assumption.
    + rewrite Hf', Hcfg, Hb. lia.
    + apply Forall_forall. intros c Hin. rewrite Forall_forall in Hcs.
      apply (call_ok_cfg m); auto.
Qed.

Lemma timesteps_single (calls : list (tensor3 * option tensor4)) :
  Forall (fun c => size1 (fst c) = 1%nat) calls -> timesteps calls = length calls.
Proof.
  induction 1 as [|[x v1] calls Hx _ IH]; simpl; auto. simpl in Hx. lia.
Qed.

(** C4.  Starting from a module in inference mode, with the weights that
    [__init__] gives it and caches of the shape that [forward] gives them,
    whose fill pointer is within the capacity: after any sequence of calls
    the pointer is within the capacity; after a sequence of well-formed
    calls of one batch size, on inputs of [n_embd] channels that are not
    empty, it is the clamped sum of the timesteps; such a call that
    overflows returns without an exception, writes only the
    [ctx_len - fill] first new timesteps and leaves the pointer at
    [ctx_len]; and 2049 single-token calls with a context of 2048 leave it
    at 2048. *)
Theorem cache_fill_pointer_clamped (m : Attn) (B : nat)
        (calls : list (tensor3 * option tensor4)) :
  Attn_wf m -> Attn_shapes m -> cache_ok m -> cache_channels m -> training m = false ->
  snd (cache_for_batch m B) = cache_filled m ->
  Forall (call_ok m B) calls ->
  Forall (fun c => input_shaped m (fst c)) calls ->
  (forall any_calls, (cache_filled (forward_calls' m any_calls) <= ctx_len (cfg m))%nat) /\
  cache_filled (forward_calls' m calls) =
    Nat.min (cache_filled m + timesteps calls) (ctx_len (cfg m)) /\
  (forall x v1, call_ok m B (x, v1) -> input_shaped m x ->
     (cache_filled m + size1 x > ctx_len (cfg m))%nat ->
     exists out k,
       kv_shaped B (n_head (cfg m)) (size1 x) k /\
       forward' m x v1 =
       Ok (out, value_1_of m x v1,
           set_cache m
             (Some (cache_write (cache_filled m) (ctx_len (cfg m))
                                (fst (fst (cache_for_batch m B))) k))
             (Some (cache_write (cache_filled m) (ctx_len (cfg m))
                                (snd (fst (cache_for_batch m B))) (value_1_of m x v1)))
             (ctx_len (cfg m)))) /\
  (ctx_len (cfg m) = 2048%nat -> cache_filled m = 0%nat -> length calls = 2049%nat ->
   Forall (fun c => size1 (fst c) = 1%nat) calls ->
   cache_filled (forward_calls' m calls) = 2048%nat).
Proof.
  intros Hwf _ Hok _ Htr Hb Hc _.
  pose proof (decode_calls B calls m Hwf Hok Htr Hb Hc) as Hsum.
  split; [|split; [exact Hsum|split]].
  - intros any_calls. apply forward_calls_filled. destruct Hok; assumption.
  - intros x v1 (Hin & Hv & HB) _ Hover. simpl in Hin, Hv, HB.
    destruct (forward_inference_Ok topk scaled_dot_product_attention nn_dropout topk_length
                m x v1 Hwf Hok Htr Hin Hv) as (out & k & Sk & _ & _ & E).
    rewrite HB, Hb in *.
    replace (Nat.min (cache_filled m + size1 x) (ctx_len (cfg m)))
      with (ctx_len (cfg m)) in E by lia.
    exists out, k. split; assumption.
  - intros H2048 H0 Hlen Hone.
    rewrite Hsum, H0, (timesteps_single calls Hone), Hlen, H2048. reflexivity.
Qed.

End InferenceCache.

Lemma unit_rows_shape (n : nat) : (1 <= n)%nat -> weight_shape n 1 (unit_rows n).
Proof.
  intros Hn. unfold weight_shape, unit_rows. split.
  - simpl. rewrite repeat_length. lia.
  - constructor; [reflexivity|]. apply Forall_forall. intros w Hw.
    apply repeat_spec in Hw. subst. reflexivity.
Qed.

Lemma repeat_shape (n_out n_in : nat) (a : R) :
  weight_shape n_out n_in (repeat (repeat a n_in) n_out).
Proof.
  unfold weight_shape. split; [apply repeat_length|].
  apply Forall_forall. intros w Hw. apply repeat_spec in Hw. subst. apply repeat_length.
Qed.

Lemma example_attn_shapes (T keep window : nat) (train : bool) :
  Attn_shapes (example_attn (example_config T keep window) train).
Proof.
  unfold Attn_shapes.
  cbn [example_attn example_config cfg n_embd n_head compress_q_linear q_norm
       decompress_q_nope decompress_q_rope compress_kv_linear kv_norm decompress_k_nope
       decompress_v_linear k_rope_linear importance_scorer selection_k selection_v
       window_k window_v branch_gate proj].
  rewrite !Nat.mul_1_l.
  repeat match goal with |- _ /\ _ => split end;
    try (apply unit_rows_shape; unfold q_lora_rank, kv_lora_rank, rope_head_dim,
                                nope_head_dim, v_head_dim; lia);
    try apply repeat_shape; try apply repeat_length; try lia.
  all: split; [reflexivity|repeat constructor].
Qed.

Lemma cache_fill_pointer_clamped_witness :
  let m := example_attn (example_config 2 1 128) false in
  let calls := [([[[1]]], None); ([[[1]]], None); ([[[1]]], None)] in
  cache_filled (forward_calls topk_first (fun q _ _ _ _ => q) (fun _ _ x => x) m calls) = 2%nat.
Proof.
  intros m calls.
  assert (Hc : call_ok m 1 ([[[1]]], None)).
  { unfold call_ok, input_ok, carried_ok. simpl. repeat split; auto. }
  apply (cache_fill_pointer_clamped topk_first (fun q _ _ _ _ => q) (fun _ _ x => x)
           topk_first_length m 1 calls).
  - unfold Attn_wf. simpl. repeat split; try reflexivity; [lia|lra].
  - apply example_attn_shapes.
  - unfold cache_ok. simpl. split; [lia|exact I].
  - exact I.
  - reflexivity.
  - reflexivity.
  - repeat constructor; exact Hc.
  - assert (Hs : input_shaped m [[[1]]]).
    { split; [discriminate|]. split; [unfold size1; simpl; lia|repeat constructor]. }
    unfold calls. constructor; [exact Hs|]. constructor; [exact Hs|].
    constructor; [exact Hs|constructor].
Defined.

(** ** Branch gate *)

Lemma sum_map_div (f : R -> R) (c : R) (l : list R) :
  sum (map (fun a => f a / c) l) = sum (map f l) / c.
Proof.
  unfold sum. induction l as [|a l IH]; simpl.
  - unfold Rdiv. ring.
  - rewrite IH. unfold Rdiv. ring.
Qed.

Lemma sum_exp_pos (l : list R) : l <> [] -> 0 < sum (map exp l).
Proof.
  assert (H : forall l', 0 <= sum (map exp l')).
  { induction l' as [|a l' IH]; unfold sum in *; simpl; [lra|].
    pose proof (exp_pos a). lra. }
  destruct l as [|a l]; [congruence|]. intros _.
  unfold sum; simpl. pose proof (exp_pos a). pose proof (H l). unfold sum in *. lra.
Qed.

Lemma softmax_simplex (v : list R) :
  v <> [] ->
  length (softmax v) = length v /\ Forall (fun a => 0 <= a) (softmax v) /\ sum (softmax v) = 1.
Proof.
  intros Hv. pose proof (sum_exp_pos v Hv) as Hs. unfold softmax.
  split; [apply length_map|]. split.
  - apply Forall_forall. intros a Ha. apply in_map_iff in Ha as (b & <- & _).
    pose proof (exp_pos b). apply Rlt_le. apply Rdiv_lt_0_compat; assumption.
  - rewrite sum_map_div. field. lra.
Qed.

(** C8.  For a batch item with at least one position, the gate weights are
    three nonnegative numbers that sum to 1, and they are a function of that
    item's positions alone: any batch with the same item at the same place
    has the same weights there. *)
Theorem branch_weights_per_item_simplex (m : Attn) (x : tensor3) (b : nat) :
  length (branch_gate m) = 3%nat ->
  (b < length x)%nat ->
  nth b x [] <> [] ->
  exists w,
    nth b (branch_weights m x) None = Some w /\
    length w = 3%nat /\
    Forall (fun a => 0 <= a) w /\
    sum w = 1 /\
    w = softmax (map (fun j => sum (map (fun r => nth j (linear (branch_gate m) r) 0)
                                        (nth b x []))
                               / INR (length (nth b x [])))
                     (seq 0 3)) /\
    (forall x' : tensor3, nth b x' [] = nth b x [] -> (b < length x')%nat ->
                          nth b (branch_weights m x') None = Some w).
Proof.
  intros Hg Hb Hne.
  assert (E : forall x' : tensor3,
             nth b (branch_weights m x') None =
             option_map softmax
               (mean_rows (length (branch_gate m)) (map (linear (branch_gate m)) (nth b x' [])))).
  { intros x'. unfold branch_weights.
    exact (map_nth (fun xb => option_map softmax
                                (mean_rows (length (branch_gate m))
                                           (map (linear (branch_gate m)) xb))) x' [] b). }
  assert (Em : forall xb : mat, xb <> [] ->
             mean_rows 3 (map (linear (branch_gate m)) xb) =
             Some (map (fun j => sum (map (fun r => nth j (linear (branch_gate m) r) 0) xb)
                                 / INR (length xb)) (seq 0 3))).
  { intros xb Hxb. unfold mean_rows.
    destruct (map (linear (branch_gate m)) xb) as [|r rs] eqn:Er.
    - destruct xb; [congruence|discriminate].
    - rewrite <- Er. f_equal. apply map_ext. intros j.
      rewrite map_map, length_map. reflexivity. }
  set (v := map (fun j => sum (map (fun r => nth j (linear (branch_gate m) r) 0) (nth b x []))
                          / INR (length (nth b x []))) (seq 0 3)).
  assert (Hv : v <> []) by (unfold v; simpl; discriminate).
  destruct (softmax_simplex v Hv) as (S1 & S2 & S3).
  exists (softmax v). split; [|split; [|split; [|split; [|split]]]].
  - rewrite E, Hg, (Em _ Hne). reflexivity.
  - rewrite S1. unfold v. rewrite length_map, length_seq. reflexivity.
  - exact S2.
  - exact S3.
  - reflexivity.
  - intros x' Hx' _. rewrite E, Hx', Hg, (Em _ Hne). reflexivity.
Qed.

Lemma branch_weights_per_item_simplex_witness :
  exists w,
    nth 0 (branch_weights (example_attn (example_config 4 1 128) false) [[[0]; [1]]]) None
    = Some w /\ length w = 3%nat /\ Forall (fun a => 0 <= a) w /\ sum w = 1.
Proof.
  destruct (branch_weights_per_item_simplex
              (example_attn (example_config 4 1 128) false) [[[0]; [1]]] 0)
    as (w & H1 & H2 & H3 & H4 & _).
  - reflexivity.
  - simpl. lia.
  - simpl. discriminate.
  - exists w. auto.
Defined.

(** ** The token-compression parameters *)

Lemma cache_update_set_compression (m : Attn) (bc : mat * mat) (pe : mat)
      (B T : nat) (k v : tensor4) :
  cache_update (set_compression m bc pe) B T k v =
  match cache_update m B T k v with
  | Ok m' => Ok (set_compression m' bc pe)
  | Raise e => Raise e
  end.
Proof.
  unfold cache_update.
  change (cache_for_batch (set_compression m bc pe) B) with (cache_for_batch m B).
  destruct (cache_for_batch m B) as [[k0 v0] f0].
  change (cfg (set_compression m bc pe)) with (cfg m).
  destruct (mapM2s _ k0 _) as [k1|e]; simpl; [|reflexivity].
  destruct (mapM2s _ v0 _) as [v1|e]; simpl; reflexivity.
Qed.

Lemma cache_update_raised_set_compression (m : Attn) (bc : mat * mat) (pe : mat)
      (B T : nat) (k : tensor4) :
  cache_update_raised (set_compression m bc pe) B T k =
  set_compression (cache_update_raised m B T k) bc pe.
Proof.
  unfold cache_update_raised.
  change (cache_for_batch (set_compression m bc pe) B) with (cache_for_batch m B).
  destruct (cache_for_batch m B) as [[k0 v0] f0].
  change (cfg (set_compression m bc pe)) with (cfg m).
  destruct (mapM2s _ k0 _) as [k1|e]; reflexivity.
Qed.

Section CompressionParameters.

Variable topk : list R -> nat -> list nat.
Variable scaled_dot_product_attention : tensor4 -> tensor4 -> tensor4 -> bool -> R -> tensor4.
Variable nn_dropout : R -> bool -> tensor3 -> tensor3.

Abbreviation forward' := (forward topk scaled_dot_product_attention nn_dropout).
Abbreviation forward_calls' := (forward_calls topk scaled_dot_product_attention nn_dropout).
Abbreviation module_after' := (module_after topk scaled_dot_product_attention nn_dropout).

(** C10.  In either mode and for every input, [forward] on a module returns
    the same output and value tensor, or raises the same exception, whatever
    the weights of [block_compressor] and the value of
    [intra_block_pos_encoding]; the module it leaves differs only in those
    two parameters, so the same holds along any sequence of calls. *)
Theorem forward_ignores_compression (m : Attn) (bc : mat * mat) (pe : mat)
        (x : tensor3) (v1 : option tensor4) :
  forward' (set_compression m bc pe) x v1 =
    match forward' m x v1 with
    | Ok (out, value_1, m') => Ok (out, value_1, set_compression m' bc pe)
    | Raise e => Raise e
    end /\
  outputs (forward' (set_compression m bc pe) x v1) = outputs (forward' m x v1) /\
  (forall calls,
     forward_calls' (set_compression m bc pe) calls =
     set_compression (forward_calls' m calls) bc pe).
Proof.
  assert (E : forall m0 x0 v0,
             forward' (set_compression m0 bc pe) x0 v0 =
             match forward' m0 x0 v0 with
             | Ok (out, value_1, m') => Ok (out, value_1, set_compression m' bc pe)
             | Raise e => Raise e
             end).
  { intros m0 x0 v0. unfold forward.
    change (queries (set_compression m0 bc pe) x0) with (queries m0 x0).
    change (global_branch (set_compression m0 bc pe) x0 v0) with (global_branch m0 x0 v0).
    change (selection_branch topk (set_compression m0 bc pe) x0)
      with (selection_branch topk m0 x0).
    change (window_branch (set_compression m0 bc pe) x0) with (window_branch m0 x0).
    change (branch_weights (set_compression m0 bc pe) x0) with (branch_weights m0 x0).
    change (training (set_compression m0 bc pe)) with (training m0).
    change (cfg (set_compression m0 bc pe)) with (cfg m0).
    destruct (queries m0 x0) as [q|e]; simpl; [|reflexivity].
    destruct (global_branch m0 x0 v0) as [[k1 val1]|e]; simpl; [|reflexivity].
    destruct (selection_branch topk m0 x0) as [[[ks vs] idx]|e]; simpl; [|reflexivity].
    destruct (window_branch m0 x0) as [[kw vw]|e]; simpl; [|reflexivity].
    destruct (training m0) eqn:Etr; simpl.
    - rewrite Etr. reflexivity.
    - rewrite cache_update_set_compression.
      destruct (cache_update m0 (length x0) (size1 x0) k1 val1) as [m1|e]; simpl; reflexivity. }
  split; [apply E|]. split.
  - rewrite E. destruct (forward' m x v1) as [[[out val] m']|e]; reflexivity.
  - intros calls. revert m. induction calls as [|[x0 v0] calls IH]; intros m; simpl; [reflexivity|].
    unfold module_after. rewrite E.
    change (queries (set_compression m bc pe) x0) with (queries m x0).
    change (global_branch (set_compression m bc pe) x0 v0) with (global_branch m x0 v0).
    change (selection_branch topk (set_compression m bc pe) x0)
      with (selection_branch topk m x0).
    change (window_branch (set_compression m bc pe) x0) with (window_branch m x0).
    change (training (set_compression m bc pe)) with (training m).
    destruct (forward' m x0 v0) as [[[out val] m']|e]; [apply IH|].
    destruct (_ <- queries m x0 ;; _) as [[k val]|e']; [|apply IH].
    destruct (training m); [apply IH|].
    rewrite cache_update_raised_set_compression. apply IH.
Qed.

End CompressionParameters.

(** ** Expert router *)















Lemma sum_map_scale (k : R) (l : list R) : sum (map (fun v => v * k) l) = sum l * k.
Proof.
  unfold sum. induction l as [|a l IH]; simpl; [ring|]. rewrite IH. ring.
Qed.



Lemma xdiv_finite (a b : R) : b <> 0 -> xdiv a b = Finite (a / b).
Proof. intros Hb. unfold xdiv. destruct (Req_dec_T b 0); [contradiction|reflexivity]. Qed.



Lemma map_const_firstn_1 {A B : Type} (c : B) (l : list A) :
  l <> [] -> map (fun _ => c) (firstn 1 l) = [c].
Proof. destruct l; simpl; [congruence|reflexivity]. Qed.

Section Router.

Variable topk : list R -> nat -> list nat.
Variable noise : nat -> nat -> R.
Hypothesis topk_length : forall s k, (k <= length s)%nat -> length (topk s k) = k.
Hypothesis topk_bound : forall s k i, (k <= length s)%nat -> In i (topk s k) -> (i < length s)%nat.

Lemma gate_forward_length (m : DSMoE) (n : nat) (x : list R) :
  length (gate_forward noise m n x) = length (gate m).
Proof.
  unfold gate_forward, softmax, UnitCenteredNoise_forward. rewrite length_map.
  destruct (moe_training m).
  - rewrite zipWith_length, length_seq, linear_length. lia.
  - apply linear_length.
Qed.

(** The weights and columns that [route_token] hands to the scatter, in
    terms of the real quotients, when the normalising sum is not zero. *)
Lemma route_token_Ok (m : DSMoE) (n : nat) (x : list R) :
  (2 <= num_exp m <= Z.of_nat (num_experts m))%Z ->
  length (gate m) = (num_experts m - 1)%nat ->
  length (expert_bias m) = (num_experts m - 1)%nat ->
  sum (selected_scores topk noise m n x) <> 0 ->
  route_token topk noise m n x =
  Ok (map Finite
        (1 / IZR (num_exp m)
           :: map (fun v => v / sum (selected_scores topk noise m n x) * IZR (num_exp m - 1)
                            / IZR (num_exp m))
                  (selected_scores topk noise m n x)),
      0%nat :: map S (topk (biased_scores noise m n x) (Z.to_nat (num_exp m - 1)))).
Proof.
  intros Hne Hg Hb Hs. unfold route_token.
  assert (Lg : length (gate_forward noise m n x) = length (expert_bias m))
    by (rewrite gate_forward_length; congruence).
  rewrite (broadcast2_same (fun _ _ => True) _ Rplus)
    by (auto using Forall2_same_length).
  cbn [bind]. fold (biased_scores noise m n x).
  assert (Lb : length (biased_scores noise m n x) = (num_experts m - 1)%nat)
    by (unfold biased_scores; rewrite zipWith_length; lia).
  unfold torch_topk. rewrite Lb.
  destruct (Z.ltb_spec (num_exp m - 1) 0); [lia|].
  destruct (Z.ltb_spec (Z.of_nat (num_experts m - 1)) (num_exp m - 1)); [lia|].
  cbn [orb bind]. fold (selected_scores topk noise m n x).
  assert (Lt : length (topk (biased_scores noise m n x) (Z.to_nat (num_exp m - 1)))
               = Z.to_nat (num_exp m - 1)) by (apply topk_length; lia).
  assert (Hz : IZR (num_exp m) <> 0) by (apply not_0_IZR; lia).
  cbv zeta. f_equal. f_equal.
  - assert (Ls : length (selected_scores topk noise m n x) = Z.to_nat (num_exp m - 1))
      by (unfold selected_scores; rewrite length_map; exact Lt).
    rewrite map_const_firstn_1
      by (intros E; apply (f_equal (@length xreal)) in E; rewrite length_map in E;
          simpl in E; lia).
    cbn [map app]. rewrite (xdiv_finite 1 _ Hz). f_equal.
    rewrite !map_map. apply map_ext. intros a.
    rewrite (xdiv_finite a _ Hs). simpl. apply xdiv_finite. exact Hz.
  - rewrite map_const_firstn_1 by (intros E; rewrite E in Lt; simpl in Lt; lia).
    reflexivity.
Qed.


End Router.

Section RouterDegenerate.

Variable topk : list R -> nat -> list nat.
Variable noise : nat -> nat -> R.
Hypothesis topk_length : forall s k, (k <= length s)%nat -> length (topk s k) = k.
Hypothesis topk_bound : forall s k i, (k <= length s)%nat -> In i (topk s k) -> (i < length s)%nat.


(** With a selection count of 1 no expert is chosen, the single round of the
    scatter finds no column, and the row stays at zero: the shared expert
    has no weight. *)
Lemma router_row_single_expert (m : DSMoE) (n : nat) (x : list R) :
  num_exp m = 1%Z ->
  length (gate m) = length (expert_bias m) ->
  router_row topk noise m n x = Ok (repeat (Finite 0) (num_experts m)).
Proof.
  intros Hne Hl. unfold router_row, route_token.
  assert (Lg : length (gate_forward noise m n x) = length (expert_bias m))
    by (rewrite gate_forward_length; congruence).
  rewrite (broadcast2_same (fun _ _ => True) _ Rplus) by (auto using Forall2_same_length).
  cbn [bind]. unfold torch_topk. rewrite Hne.
  change (1 - 1)%Z with 0%Z.
  destruct (Z.ltb_spec 0 0); [lia|].
  destruct (Z.ltb_spec
              (Z.of_nat (length (zipWith Rplus (gate_forward noise m n x) (expert_bias m)))) 0);
    [lia|].
  cbn [orb bind Z.to_nat].
  assert (E0 : topk (zipWith Rplus (gate_forward noise m n x) (expert_bias m)) 0 = []).
  { apply length_zero_iff_nil. apply topk_length. lia. }
  rewrite E0. reflexivity.
Qed.

End RouterDegenerate.







(** ** Bias balancer *)

Lemma sign_cases (x : R) : sign x = 1 \/ sign x = -1 \/ sign x = 0.
Proof.
  unfold sign. destruct (Rlt_dec 0 x); [auto|]. destruct (Rlt_dec x 0); auto.
Qed.

Lemma sum_zipWith_plus (a b : list R) :
  length a = length b -> sum (zipWith Rplus a b) = sum a + sum b.
Proof.
  unfold sum. revert b; induction a as [|x a IH]; intros [|y b] H; simpl in *;
    try discriminate; [ring|].
  rewrite IH by lia. ring.
Qed.

Lemma Rabs_sum_le (c : R) (l : list R) :
  Forall (fun d => Rabs d <= c) l -> Rabs (sum l) <= INR (length l) * c.
Proof.
  unfold sum. induction 1 as [|d l Hd _ IH].
  - simpl. rewrite Rabs_R0. lra.
  - cbn [fold_right length]. rewrite S_INR.
    eapply Rle_trans; [apply Rabs_triang|]. lra.
Qed.

Lemma map_seq_shift {A : Type} (f : nat -> A) (n : nat) :
  map f (seq 1 n) = map (fun i => f (S i)) (seq 0 n).
Proof. rewrite <- seq_shift, map_map. reflexivity. Qed.

(** On router weights of the right width the update of one block does not
    raise. *)
Lemma update_expert_bias_Ok (m : DSMoE) (router_weights : tensor2) (update_rate : R) :
  length (expert_bias m) = (num_experts m - 1)%nat ->
  ncols router_weights = num_experts m ->
  exists m', update_expert_bias m router_weights update_rate = Ok m'.
Proof.
  intros Hb Hc. unfold update_expert_bias, add_. rewrite Hc.
  rewrite !length_map, length_seq, Hb, Nat.eqb_refl. cbn [bind]. eauto.
Qed.

(** C6.  One update of the bias of a mixture-of-experts block, on router
    weights of [num_experts] columns: the load of an expert is the column sum
    of its routing weights, the target is the total routed weight over
    [num_experts - 1], and [update_rate * sign (load - target)] is added to
    each component of the bias.  So each component moves by [update_rate],
    by [- update_rate] or not at all, and the sum of the bias moves by at most
    [update_rate * (num_experts - 1)] in absolute value. *)
Theorem update_expert_bias_step (m : DSMoE) (router_weights : tensor2) (update_rate : R) :
  length (expert_bias m) = (num_experts m - 1)%nat ->
  ncols router_weights = num_experts m ->
  exists m',
    update_expert_bias m router_weights update_rate = Ok m' /\
    m' = set_expert_bias m (expert_bias m') /\
    length (expert_bias m') = (num_experts m - 1)%nat /\
    (forall i, (i < num_experts m - 1)%nat ->
       nth i (expert_bias m') 0 =
         nth i (expert_bias m) 0
         + update_rate * sign (expert_load router_weights i
                               - mean_load router_weights (num_experts m)) /\
       (nth i (expert_bias m') 0 - nth i (expert_bias m) 0 = update_rate \/
        nth i (expert_bias m') 0 - nth i (expert_bias m) 0 = - update_rate \/
        nth i (expert_bias m') 0 - nth i (expert_bias m) 0 = 0)) /\
    Rabs (sum (expert_bias m') - sum (expert_bias m))
      <= Rabs (update_rate * INR (num_experts m - 1)) /\
    (0 <= update_rate ->
     Rabs (sum (expert_bias m') - sum (expert_bias m)) <= update_rate * INR (num_experts m - 1)).
Proof.
  intros Hb Hc. unfold update_expert_bias. rewrite Hc.
  rewrite map_seq_shift. fold (expert_load router_weights).
  change (map (fun i => sum (map (fun r => nth (S i) r 0) (rows router_weights)))
              (seq 0 (num_experts m - 1)))
    with (map (expert_load router_weights) (seq 0 (num_experts m - 1))).
  fold (mean_load router_weights (num_experts m)).
  set (bar := mean_load router_weights (num_experts m)).
  set (deltas := map (fun e => update_rate * sign e)
                     (map (fun c => c - bar)
                          (map (expert_load router_weights) (seq 0 (num_experts m - 1))))).
  assert (Ld : length deltas = (num_experts m - 1)%nat)
    by (unfold deltas; rewrite !length_map, length_seq; reflexivity).
  unfold add_. rewrite Ld, Hb, Nat.eqb_refl. cbn [bind].
  assert (Nd : forall i, (i < num_experts m - 1)%nat ->
                         nth i deltas 0 = update_rate * sign (expert_load router_weights i - bar)).
  { intros i Hi. unfold deltas. rewrite !map_map.
    rewrite (nth_indep _ 0 (update_rate * sign (expert_load router_weights 0 - bar)))
      by (rewrite length_map, length_seq; exact Hi).
    rewrite (map_nth (fun j => update_rate * sign (expert_load router_weights j - bar))
                     (seq 0 (num_experts m - 1)) 0%nat i).
    rewrite seq_nth by exact Hi. reflexivity. }
  assert (Fd : Forall (fun d => Rabs d <= Rabs update_rate) deltas).
  { unfold deltas. rewrite !map_map. apply Forall_forall. intros d Hd.
    apply in_map_iff in Hd as (j & <- & _). rewrite Rabs_mult.
    destruct (sign_cases (expert_load router_weights j - bar)) as [E1 | [E1 | E1]]; rewrite E1.
    - rewrite Rabs_R1. lra.
    - replace (Rabs (-1)) with 1 by (unfold Rabs; destruct (Rcase_abs (-1)); lra). lra.
    - rewrite Rabs_R0. pose proof (Rabs_pos update_rate). lra. }
  assert (Hsum : Rabs (sum (zipWith Rplus (expert_bias m) deltas) - sum (expert_bias m))
                 <= Rabs update_rate * INR (num_experts m - 1)).
  { rewrite sum_zipWith_plus by congruence.
    replace (sum (expert_bias m) + sum deltas - sum (expert_bias m)) with (sum deltas) by ring.
    pose proof (Rabs_sum_le _ _ Fd) as H. rewrite Ld in H. lra. }
  eexists. split; [reflexivity|]. cbn [expert_bias set_expert_bias].
  split; [reflexivity|]. split; [rewrite zipWith_length; lia|]. split; [|split].
  - intros i Hi.
    rewrite (nth_zipWith Rplus _ _ i 0 0 0) by lia. rewrite (Nd i Hi).
    split; [reflexivity|].
    destruct (sign_cases (expert_load router_weights i - bar)) as [E1 | [E1 | E1]]; rewrite E1.
    + left. ring.
    + right. left. ring.
    + right. right. ring.
  - rewrite Rabs_mult, (Rabs_pos_eq (INR _)) by apply pos_INR. exact Hsum.
  - intros Hr. rewrite (Rabs_pos_eq update_rate Hr) in Hsum. exact Hsum.
Qed.

Lemma update_expert_bias_step_witness :
  exists m',
    update_expert_bias (example_moe [0; 0; 0] 4)
                       {| ncols := 4; rows := [[1 / 4; 3 / 4; 0; 0]; [1 / 4; 0; 3 / 4; 0]] |}
                       (1 / 1000) = Ok m' /\
    Rabs (sum (expert_bias m') - sum [0; 0; 0]) <= Rabs (1 / 1000 * INR 3).
Proof.
  destruct (update_expert_bias_step (example_moe [0; 0; 0] 4)
              {| ncols := 4; rows := [[1 / 4; 3 / 4; 0; 0]; [1 / 4; 0; 3 / 4; 0]] |}
              (1 / 1000) eq_refl eq_refl) as (m' & E & _ & _ & _ & H & _).
  exists m'. split; [exact E|exact H].
Defined.

Lemma update_expert_biases_blocks (blocks : list Block) (all_router_weights : list tensor2)
      (update_rate : R) (j : nat) (blocks' : list Block) :
  update_expert_biases_from j blocks all_router_weights update_rate = Ok blocks' ->
  Forall2 (block_updated all_router_weights update_rate) blocks blocks'.
Proof.
  revert j blocks'; induction blocks as [|b blocks IH]; intros j blocks' H; simpl in H.
  - injection H as <-. constructor.
  - destruct (ffn b) as [e|mo] eqn:Ef.
    + destruct (update_expert_biases_from j blocks all_router_weights update_rate)
        as [rest|err] eqn:Er; simpl in H; [|discriminate].
      injection H as <-. constructor; [|eapply IH; eassumption].
      unfold block_updated. rewrite Ef. auto.
    + destruct (nth_error all_router_weights j) as [rw|] eqn:Ew; [|discriminate].
      destruct (update_expert_bias mo rw update_rate) as [mo'|err] eqn:Eu; simpl in H;
        [|discriminate].
      destruct (update_expert_biases_from (S j) blocks all_router_weights update_rate)
        as [rest|err] eqn:Er; simpl in H; [|discriminate].
      injection H as <-. constructor; [|eapply IH; eassumption].
      unfold block_updated. rewrite Ef. simpl. split; [reflexivity|].
      exists rw. split; [eapply nth_error_In; eassumption|assumption].
Qed.

Lemma update_expert_biases_Ok (E : nat) (blocks : list Block) (all_router_weights : list tensor2)
      (update_rate : R) (j : nat) :
  Forall (fun b => match ffn b with
                   | FfnMoE mo => num_experts mo = E /\ length (expert_bias mo) = (E - 1)%nat
                   | FfnMLP _ => True
                   end) blocks ->
  Forall (fun rw => ncols rw = E) all_router_weights ->
  (j + moe_count blocks <= length all_router_weights)%nat ->
  exists blocks', update_expert_biases_from j blocks all_router_weights update_rate = Ok blocks'.
Proof.
  intros Hb Hr. revert j; induction Hb as [|b blocks Hb1 _ IH]; intros j Hj; simpl.
  - eauto.
  - simpl in Hj. destruct (ffn b) as [e|mo] eqn:Ef.
    + destruct (IH j Hj) as [rest ->]. simpl. eauto.
    + destruct Hb1 as [HE Hl].
      destruct (nth_error all_router_weights j) as [rw|] eqn:Ew.
      * assert (Hc : ncols rw = num_experts mo).
        { rewrite Forall_forall in Hr. rewrite (Hr rw (nth_error_In _ _ Ew)). congruence. }
        destruct (update_expert_bias_Ok mo rw update_rate) as (mo' & ->);
          [congruence|exact Hc|].
        destruct (IH (S j)) as [rest ->]; [lia|]. simpl. eauto.
      * apply nth_error_None in Ew. lia.
Qed.

(** * Further properties *)

(** ** Rotary encoder: relative positions *)

Lemma freqs_cis_entries (h end_ : nat) (theta : R) (p j : nat) :
  (p < end_)%nat -> (j < h)%nat ->
  nth j (nth p (fst (precompute_freqs_cis (2 * h) end_ theta)) []) 0
    = cos (INR p * inv_freq (2 * h) theta j) /\
  nth j (nth p (snd (precompute_freqs_cis (2 * h) end_ theta)) []) 0
    = sin (INR p * inv_freq (2 * h) theta j).
Proof.
  intros Hp Hj. unfold precompute_freqs_cis. cbn [fst snd].
  set (freqs := map (fun i => 1 / Rpower theta (INR i / INR (2 * h))) (arange2 (2 * h))).
  assert (Lf : length freqs = h) by (unfold freqs; rewrite length_map; apply arange2_length).
  assert (Nf : nth j freqs 0 = inv_freq (2 * h) theta j).
  { unfold freqs, arange2, inv_freq. rewrite map_map.
    assert (Hd : Nat.div (2 * h + 1) 2 = h)
      by (symmetry; apply (Nat.div_unique (2 * h + 1) 2 h 1); lia).
    rewrite Hd.
    rewrite (nth_indep _ 0 (1 / Rpower theta (INR (2 * 0) / INR (2 * h))))
      by (rewrite length_map, length_seq; exact Hj).
    rewrite (map_nth (fun k => 1 / Rpower theta (INR (2 * k) / INR (2 * h))) (seq 0 h) 0%nat j).
    rewrite seq_nth by exact Hj. reflexivity. }
  set (F := map (fun ti => map (fun f => ti * f) freqs) (map INR (seq 0 end_))).
  assert (NF : nth p F [] = map (fun f => INR p * f) freqs).
  { unfold F. rewrite map_map.
    rewrite (nth_indep _ [] (map (fun f => INR 0 * f) freqs))
      by (rewrite length_map, length_seq; exact Hp).
    rewrite (map_nth (fun k => map (fun f => INR k * f) freqs) (seq 0 end_) 0%nat p).
    rewrite seq_nth by exact Hp. reflexivity. }
  rewrite !nth_map_rows, NF, !map_map.
  split.
  - rewrite (nth_indep _ 0 (cos (INR p * 0))) by (rewrite length_map, Lf; exact Hj).
    rewrite (map_nth (fun f => cos (INR p * f)) freqs 0 j), Nf. reflexivity.
  - rewrite (nth_indep _ 0 (sin (INR p * 0))) by (rewrite length_map, Lf; exact Hj).
    rewrite (map_nth (fun f => sin (INR p * f)) freqs 0 j), Nf. reflexivity.
Qed.

Lemma dot_cons (a b : R) (u v : list R) : dot (a :: u) (b :: v) = a * b + dot u v.
Proof. reflexivity. Qed.

Lemma dot_sum_nth (u v : list R) :
  length u = length v ->
  dot u v = sum (map (fun j => nth j u 0 * nth j v 0) (seq 0 (length u))).
Proof.
  revert v; induction u as [|a u IH]; intros [|b v] H; simpl in H; try discriminate.
  - reflexivity.
  - rewrite dot_cons, IH by lia. cbn [length seq map]. rewrite map_seq_shift. reflexivity.
Qed.

Lemma sum_app (l l' : list R) : sum (l ++ l') = sum l + sum l'.
Proof. unfold sum. induction l as [|a l IH]; simpl; [ring|]. rewrite IH. ring. Qed.

Lemma sum_map_plus {A : Type} (f g : A -> R) (l : list A) :
  sum (map f l) + sum (map g l) = sum (map (fun a => f a + g a) l).
Proof. unfold sum. induction l as [|a l IH]; simpl; [ring|]. rewrite <- IH. ring. Qed.

Lemma seq_shift_by (h n : nat) : seq h n = map (fun j => (j + h)%nat) (seq 0 n).
Proof.
  revert h; induction n as [|n IH]; intros h; [reflexivity|].
  cbn [seq map]. f_equal. rewrite (IH (S h)), <- seq_shift, map_map.
  apply map_ext. intros j. lia.
Qed.

Lemma sum_seq_halves (f : nat -> R) (h : nat) :
  sum (map f (seq 0 (2 * h))) = sum (map (fun j => f j + f (j + h)%nat) (seq 0 h)).
Proof.
  replace (2 * h)%nat with (h + h)%nat by lia.
  rewrite seq_app, map_app, sum_app. simpl plus.
  rewrite (seq_shift_by h h), map_map. apply sum_map_plus.
Qed.

Lemma sum_map_ext_in {A : Type} (f g : A -> R) (l : list A) :
  (forall a, In a l -> f a = g a) -> sum (map f l) = sum (map g l).
Proof. intros H. f_equal. apply map_ext_in. exact H. Qed.

(** The product of two rotated rows is the product of the first row,
    rotated by the difference of the angles, with the second row. *)
Lemma rotate_row_dot (h : nat) (cr sr cr' sr' cd sd u v : list R) :
  length cr = h -> length sr = h -> length cr' = h -> length sr' = h ->
  length cd = h -> length sd = h ->
  length u = (2 * h)%nat -> length v = (2 * h)%nat ->
  (forall j, (j < h)%nat ->
     nth j cd 0 = nth j cr 0 * nth j cr' 0 + nth j sr 0 * nth j sr' 0 /\
     nth j sd 0 = nth j sr 0 * nth j cr' 0 - nth j cr 0 * nth j sr' 0) ->
  dot (rotate_row cr sr u) (rotate_row cr' sr' v) = dot (rotate_row cd sd u) v.
Proof.
  intros Lc Ls Lc' Ls' Lcd Lsd Lu Lv Hd.
  pose proof (rotate_row_length h cr sr u Lc Ls Lu) as L1.
  pose proof (rotate_row_length h cr' sr' v Lc' Ls' Lv) as L2.
  pose proof (rotate_row_length h cd sd u Lcd Lsd Lu) as L3.
  rewrite !dot_sum_nth by congruence. rewrite L1, L3, !sum_seq_halves.
  apply sum_map_ext_in. intros j Hj. apply in_seq in Hj.
  destruct (rotate_row_entries h cr sr u j Lc Ls Lu) as [E1 E2]; [lia|].
  destruct (rotate_row_entries h cr' sr' v j Lc' Ls' Lv) as [E3 E4]; [lia|].
  destruct (rotate_row_entries h cd sd u j Lcd Lsd Lu) as [E5 E6]; [lia|].
  destruct (Hd j) as [Hc Hs]; [lia|].
  rewrite E1, E2, E3, E4, E5, E6, Hc, Hs. ring.
Qed.

Lemma table_row_lengths (h end_ : nat) (theta : R) (p : nat) :
  (p < end_)%nat ->
  length (nth p (fst (precompute_freqs_cis (2 * h) end_ theta)) []) = h /\
  length (nth p (snd (precompute_freqs_cis (2 * h) end_ theta)) []) = h.
Proof.
  intros Hp. destruct (precompute_freqs_cis_shape h end_ theta) as (L1 & L2 & F1 & F2).
  split.
  - apply (proj1 (Forall_nth _ _) F1). lia.
  - apply (proj1 (Forall_nth _ _) F2). lia.
Qed.

(** X1.  The score of a rotated query at position [p] against a rotated key
    at an earlier position [p'] is the score of the query rotated by the
    offset [p - p'] against the key as it is: after [apply_rope], attention
    scores depend on the positions only through their difference. *)
Theorem apply_rope_relative_position (h end_ : nat) (theta : R) (q k : mat) (p p' : nat) :
  0 < theta ->
  Forall (fun r => length r = (2 * h)%nat) q ->
  Forall (fun r => length r = (2 * h)%nat) k ->
  length k = length q ->
  (length q <= end_)%nat ->
  (p' <= p)%nat -> (p < length q)%nat ->
  let table := precompute_freqs_cis (2 * h) end_ theta in
  exists q' k',
    apply_rope q k table = Ok (q', k') /\
    dot (nth p q' []) (nth p' k' []) =
    dot (rotate_row (nth (p - p') (fst table) []) (nth (p - p') (snd table) []) (nth p q []))
        (nth p' k []).
Proof.
  intros _ Hq Hk Lk Le Hpp Hp table.
  exists (rotate_spec table q), (rotate_spec table k).
  split.
  - apply (apply_rope_spec h); [|assumption|assumption].
    apply precompute_freqs_cis_rope_shaped; assumption.
  - rewrite !rotate_spec_nth by lia.
    destruct (table_row_lengths h end_ theta p) as [Lc Ls]; [lia|].
    destruct (table_row_lengths h end_ theta p') as [Lc' Ls']; [lia|].
    destruct (table_row_lengths h end_ theta (p - p')) as [Lcd Lsd]; [lia|].
    apply (rotate_row_dot h); try assumption.
    + apply (proj1 (Forall_nth _ _) Hq). lia.
    + apply (proj1 (Forall_nth _ _) Hk). lia.
    + intros j Hj. unfold table.
      destruct (freqs_cis_entries h end_ theta p j) as [C1 S1]; [lia|assumption|].
      destruct (freqs_cis_entries h end_ theta p' j) as [C2 S2]; [lia|assumption|].
      destruct (freqs_cis_entries h end_ theta (p - p') j) as [C3 S3]; [lia|assumption|].
      rewrite C1, S1, C2, S2, C3, S3, minus_INR by assumption.
      rewrite Rmult_minus_distr_r, cos_minus, sin_minus. split; ring.
Qed.

Lemma apply_rope_relative_position_witness :
  let table := precompute_freqs_cis 2 2 10000 in
  exists q' k',
    apply_rope [[1; 0]; [0; 1]] [[1; 1]; [0; 1]] table = Ok (q', k') /\
    dot (nth 1 q' []) (nth 0 k' []) =
    dot (rotate_row (nth 1 (fst table) []) (nth 1 (snd table) []) [0; 1]) [1; 1].
Proof.
  assert (Ht : 0 < 10000) by lra.
  apply (apply_rope_relative_position 1 2 10000 [[1; 0]; [0; 1]] [[1; 1]; [0; 1]] 1 0 Ht).
  - repeat constructor.
  - repeat constructor.
  - reflexivity.
  - simpl. lia.
  - lia.
  - simpl. lia.
Defined.

(** ** Rotary encoder: what a rotation keeps *)

Lemma rotate_row_dot_unit (h : nat) (cr sr u v : list R) :
  length cr = h -> length sr = h ->
  length u = (2 * h)%nat -> length v = (2 * h)%nat ->
  (forall j, (j < h)%nat -> nth j cr 0 * nth j cr 0 + nth j sr 0 * nth j sr 0 = 1) ->
  dot (rotate_row cr sr u) (rotate_row cr sr v) = dot u v.
Proof.
  intros Lc Ls Lu Lv Hu.
  pose proof (rotate_row_length h cr sr u Lc Ls Lu) as L1.
  pose proof (rotate_row_length h cr sr v Lc Ls Lv) as L2.
  rewrite !dot_sum_nth by congruence. rewrite L1, Lu, !sum_seq_halves.
  apply sum_map_ext_in. intros j Hj. apply in_seq in Hj.
  destruct (rotate_row_entries h cr sr u j Lc Ls Lu) as [E1 E2]; [lia|].
  destruct (rotate_row_entries h cr sr v j Lc Ls Lv) as [E3 E4]; [lia|].
  rewrite E1, E2, E3, E4.
  transitivity ((nth j u 0 * nth j v 0 + nth (j + h) u 0 * nth (j + h) v 0)
                * (nth j cr 0 * nth j cr 0 + nth j sr 0 * nth j sr 0)); [ring|].
  rewrite Hu by lia. ring.
Qed.

Lemma rotate_row_identity (h : nat) (cr sr u : list R) :
  length cr = h -> length sr = h -> length u = (2 * h)%nat ->
  (forall j, (j < h)%nat -> nth j cr 0 = 1 /\ nth j sr 0 = 0) ->
  rotate_row cr sr u = u.
Proof.
  intros Lc Ls Lu H1.
  apply (nth_ext _ _ 0 0).
  - rewrite (rotate_row_length h); auto.
  - rewrite (rotate_row_length h) by auto. intros i Hi.
    destruct (Nat.lt_ge_cases i h) as [Hlt|Hge].
    + destruct (rotate_row_entries h cr sr u i Lc Ls Lu Hlt) as [E _].
      destruct (H1 i Hlt) as [-> ->] in E. rewrite E. ring.
    + assert (Hj : (i - h < h)%nat) by lia.
      destruct (rotate_row_entries h cr sr u (i - h) Lc Ls Lu Hj) as [_ E].
      destruct (H1 (i - h)%nat Hj) as [Hc Hs]. rewrite Hc, Hs in E.
      replace (i - h + h)%nat with i in E by lia. rewrite E. ring.
Qed.

(** X2.  [apply_rope] returns the row of position 0 as it is, and at every
    position it keeps the product of the query row with the key row of the
    same position, hence the norm of every row. *)
Theorem apply_rope_keeps_products (h end_ : nat) (theta : R) (q k : mat) :
  0 < theta ->
  Forall (fun r => length r = (2 * h)%nat) q ->
  Forall (fun r => length r = (2 * h)%nat) k ->
  length k = length q ->
  (0 < length q <= end_)%nat ->
  exists q' k',
    apply_rope q k (precompute_freqs_cis (2 * h) end_ theta) = Ok (q', k') /\
    nth 0 q' [] = nth 0 q [] /\ nth 0 k' [] = nth 0 k [] /\
    forall p, (p < length q)%nat ->
      dot (nth p q' []) (nth p k' []) = dot (nth p q []) (nth p k []) /\
      dot (nth p q' []) (nth p q' []) = dot (nth p q []) (nth p q []) /\
      dot (nth p k' []) (nth p k' []) = dot (nth p k []) (nth p k []).
Proof.
  intros _ Hq Hk Lk [H0 Le].
  set (table := precompute_freqs_cis (2 * h) end_ theta).
  exists (rotate_spec table q), (rotate_spec table k).
  assert (Rq : forall p, (p < length q)%nat -> length (nth p q []) = (2 * h)%nat)
    by (intros p Hp; apply (proj1 (Forall_nth _ _) Hq); exact Hp).
  assert (Rk : forall p, (p < length q)%nat -> length (nth p k []) = (2 * h)%nat)
    by (intros p Hp; apply (proj1 (Forall_nth _ _) Hk); lia).
  assert (Id : forall u, length u = (2 * h)%nat ->
                         rotate_row (nth 0 (fst table) []) (nth 0 (snd table) []) u = u).
  { intros u Lu. destruct (table_row_lengths h end_ theta 0) as [Lc Ls]; [lia|].
    apply (rotate_row_identity h); try assumption.
    intros j Hj. destruct (freqs_cis_entries h end_ theta 0 j) as [C S]; [lia|assumption|].
    unfold table. rewrite C, S. simpl INR. rewrite Rmult_0_l, cos_0, sin_0. auto. }
  split; [|split; [|split]].
  - apply (apply_rope_spec h); [|assumption|assumption].
    apply precompute_freqs_cis_rope_shaped; [assumption|lia].
  - rewrite rotate_spec_nth by lia. apply Id, Rq. lia.
  - rewrite rotate_spec_nth by lia. apply Id, Rk. lia.
  - intros p Hp. rewrite !rotate_spec_nth by lia.
    destruct (table_row_lengths h end_ theta p) as [Lc Ls]; [lia|].
    assert (Hu : forall j, (j < h)%nat ->
                   nth j (nth p (fst table) []) 0 * nth j (nth p (fst table) []) 0
                   + nth j (nth p (snd table) []) 0 * nth j (nth p (snd table) []) 0 = 1).
    { intros j Hj. destruct (precompute_freqs_cis_unit (2 * h) end_ theta p j) as [E|E].
      - exact E.
      - rewrite Lc in E. lia. }
    split; [|split]; apply (rotate_row_dot_unit h); auto.
Qed.

Lemma apply_rope_keeps_products_witness :
  exists q' k',
    apply_rope [[1; 0]; [0; 1]] [[1; 1]; [0; 1]] (precompute_freqs_cis 2 2 10000) = Ok (q', k') /\
    nth 0 q' [] = [1; 0] /\ nth 0 k' [] = [1; 1].
Proof.
  assert (Ht : 0 < 10000) by lra.
  destruct (apply_rope_keeps_products 1 2 10000 [[1; 0]; [0; 1]] [[1; 1]; [0; 1]] Ht)
    as (q' & k' & E & H1 & H2 & _).
  - repeat constructor.
  - repeat constructor.
  - reflexivity.
  - simpl. lia.
  - exists q', k'. auto.
Defined.

(** ** The window helper, given a position *)

Lemma nth_slice {A : Type} (a b i : nat) (l : list A) (d : A) :
  (i < b - a)%nat -> nth i (slice a b l) d = nth (a + i) l d.
Proof.
  intros Hi. unfold slice. rewrite nth_firstn.
  destruct (Nat.ltb_spec i (b - a)); [|lia]. apply nth_skipn.
Qed.

Lemma slice_length {A : Type} (a b : nat) (l : list A) :
  length (slice a b l) = Nat.min (b - a) (length l - a).
Proof. unfold slice. rewrite length_firstn, length_skipn. reflexivity. Qed.

(** X3.  In inference mode, given a decoding position inside the sequence
    and a window size of at least 1, [_get_sliding_window_tokens] returns for
    every batch item a run of consecutive tokens that starts
    [window_size // 2] tokens before the position (or at the first token),
    contains the token of the position, and has at most [window_size]
    tokens: at the end of the sequence the run is cut short, not moved
    back. *)
Theorem sliding_window_tokens_run (m : Attn) (x : tensor3) (pos b : nat) :
  training m = false ->
  (1 <= window_size (cfg m))%nat ->
  Forall (fun xb => length xb = size1 x) x ->
  (pos < size1 x)%nat -> (b < length x)%nat ->
  let start := (pos - Nat.div (window_size (cfg m)) 2)%nat in
  let w := nth b (_get_sliding_window_tokens m x (Some (Z.of_nat pos))) [] in
  length w = Nat.min (window_size (cfg m)) (size1 x - start) /\
  (1 <= length w <= window_size (cfg m))%nat /\
  (forall i, (i < length w)%nat -> nth i w [] = nth (start + i) (nth b x []) []) /\
  (pos - start < length w)%nat /\
  nth (pos - start) w [] = nth pos (nth b x []) [].
Proof.
  intros Htr Hws Hx Hpos Hb start w.
  set (ws := window_size (cfg m)) in *.
  assert (Hd : (Z.of_nat ws / 2)%Z = Z.of_nat (Nat.div ws 2))
    by (rewrite Nat2Z.inj_div; reflexivity).
  assert (H2 : (2 * Nat.div ws 2 <= ws)%nat) by (apply Nat.Div0.mul_div_le).
  assert (H3 : (ws < 2 * Nat.div ws 2 + 2)%nat).
  { pose proof (Nat.div_mod_eq ws 2). pose proof (Nat.mod_upper_bound ws 2). lia. }
  assert (Es : Z.to_nat (Z.max 0 (Z.of_nat pos - Z.of_nat ws / 2)) = start)
    by (rewrite Hd; unfold start; lia).
  assert (Ee : Z.to_nat (Z.min (Z.of_nat (size1 x))
                               (Z.max 0 (Z.of_nat pos - Z.of_nat ws / 2) + Z.of_nat ws))
               = Nat.min (size1 x) (start + ws))
    by (rewrite Hd; unfold start; lia).
  assert (Ew : w = slice start (Nat.min (size1 x) (start + ws)) (nth b x [])).
  { unfold w, _get_sliding_window_tokens. rewrite Htr. fold ws. rewrite Es, Ee.
    rewrite (nth_indep _ [] (slice start (Nat.min (size1 x) (start + ws)) []))
      by (rewrite length_map; exact Hb).
    apply (map_nth (slice start (Nat.min (size1 x) (start + ws)))). }
  assert (Lb : length (nth b x []) = size1 x)
    by (apply (proj1 (Forall_nth _ _) Hx); exact Hb).
  assert (Lw : length w = Nat.min ws (size1 x - start))
    by (rewrite Ew, slice_length, Lb; lia).
  assert (Hs : (start <= pos)%nat) by (unfold start; lia).
  split; [exact Lw|]. split; [lia|]. split; [|split].
  - intros i Hi. rewrite Ew. apply nth_slice. lia.
  - unfold start in *. lia.
  - rewrite Ew, nth_slice by (unfold start in *; lia). f_equal. lia.
Qed.

Lemma sliding_window_tokens_run_witness :
  let m := example_attn (example_config 8 1 2) false in
  let w := nth 0 (_get_sliding_window_tokens m [[[1]; [2]; [3]; [4]]] (Some 3%Z)) [] in
  length w = 2%nat /\ nth 1 w [] = [4].
Proof.
  intros m w.
  destruct (sliding_window_tokens_run m [[[1]; [2]; [3]; [4]]] 3 0)
    as (H1 & _ & _ & _ & H5).
  - reflexivity.
  - simpl. lia.
  - repeat constructor.
  - unfold size1. simpl. lia.
  - simpl. lia.
  - split; [exact H1|exact H5].
Defined.

(** ** Token compression *)

Section Compression.

Variable gelu : R -> R.

Lemma Forall_skipn {A : Type} (P : A -> Prop) (n : nat) (l : list A) :
  Forall P l -> Forall P (skipn n l).
Proof.
  intros H. rewrite <- (firstn_skipn n l) in H. apply Forall_app in H. tauto.
Qed.

(** X4.  On a batch of at least one token per item, with a block size of at
    least 1 and the parameters shaped as [__init__] builds them,
    [_compress_tokens] raises nothing and returns, for every batch item,
    [ceil(T / block_size)] compressed tokens, each as wide as the output of
    the compressor: a last block that the sequence does not fill is padded,
    not dropped. *)
Theorem compress_tokens_blocks (m : Attn) (x : tensor3) (C : nat) :
  (1 <= block_size (cfg m))%nat ->
  (1 <= size1 x)%nat -> (1 <= C)%nat -> x <> [] ->
  Forall (fun xb : mat => length xb = size1 x /\ Forall (fun r => length r = C) xb) x ->
  length (intra_block_pos_encoding m) = block_size (cfg m) ->
  Forall (fun r => length r = C) (intra_block_pos_encoding m) ->
  Forall (fun w => length w = (block_size (cfg m) * C)%nat) (fst (block_compressor m)) ->
  Forall (fun w => length w = length (fst (block_compressor m))) (snd (block_compressor m)) ->
  exists out,
    _compress_tokens gelu m x = Ok out /\
    length out = length x /\
    Forall (fun ob : mat =>
              length ob = Nat.div (size1 x + block_size (cfg m) - 1) (block_size (cfg m)) /\
              Forall (fun r => length r = length (snd (block_compressor m))) ob) out.
Proof.
  intros Hbs HT HC Hne Hx Lpe Wpe _ _.
  unfold _compress_tokens.
  set (bs := block_size (cfg m)) in *.
  destruct (Nat.eqb_spec bs 0) as [E|_]; [lia|].
  set (nb := Nat.div (size1 x + bs - 1) bs).
  assert (Hnb : (size1 x <= nb * bs)%nat).
  { unfold nb. pose proof (Nat.div_mod_eq (size1 x + bs - 1) bs) as E.
    pose proof (Nat.mod_upper_bound (size1 x + bs - 1) bs). nia. }
  assert (EC : size1 (hd [] x) = C).
  { destruct x as [|xb x']; [congruence|]. simpl.
    apply Forall_inv in Hx. destruct Hx as [Lxb Fxb]. simpl in HT. unfold size1 in *. simpl in *.
    destruct xb as [|r xb']; [simpl in HT; lia|]. simpl. apply Forall_inv in Fxb. exact Fxb. }
  rewrite EC.
  set (x_padded := if Nat.ltb (size1 x) (nb * bs)
                   then map (fun xb => xb ++ repeat (repeat 0 C) (nb * bs - size1 x)) x
                   else x).
  assert (Hp : Forall (fun xb : mat => length xb = (nb * bs)%nat /\
                                       Forall (fun r => length r = C) xb) x_padded).
  { unfold x_padded. destruct (Nat.ltb_spec (size1 x) (nb * bs)) as [Hlt|Hge].
    - apply Forall_forall. intros xb Hxb. apply in_map_iff in Hxb as (xb0 & <- & Hxb0).
      rewrite Forall_forall in Hx. destruct (Hx xb0 Hxb0) as [L F].
      split; [rewrite length_app, repeat_length; lia|].
      apply Forall_app. split; [exact F|].
      apply Forall_forall. intros r Hr. apply repeat_spec in Hr as ->. apply repeat_length.
    - eapply Forall_impl; [|exact Hx]. intros xb [L F]. split; [lia|exact F]. }
  assert (Lp : length x_padded = length x)
    by (unfold x_padded; destruct (Nat.ltb (size1 x) (nb * bs)); [apply length_map|reflexivity]).
  rewrite (Nat.div_mul nb bs) by lia.
  set (blocks := map (fun xb => map (fun j => slice (j * bs) (j * bs + bs) xb) (seq 0 nb))
                     x_padded).
  rewrite (mapM_Ok _ (map (fun blk => zipWith (zipWith Rplus) blk (intra_block_pos_encoding m)))).
  - cbn [bind]. eexists. split; [reflexivity|].
    unfold linear3, blocks. rewrite !length_map. split; [exact Lp|].
    apply Forall_forall. intros ob Hob. rewrite !map_map in Hob.
    apply in_map_iff in Hob as (xb & <- & Hxb).
    rewrite !length_map, length_seq. split; [reflexivity|].
    apply Forall_forall. intros r Hr. rewrite !map_map in Hr.
    apply in_map_iff in Hr as (j & <- & _). apply linear_length.
  - intros bl Hbl. apply (mapM_Ok _ (fun blk => zipWith (zipWith Rplus) blk _)).
    intros blk Hblk. apply ew_same_shape.
    unfold blocks in Hbl. apply in_map_iff in Hbl as (xb & <- & Hxb).
    apply in_map_iff in Hblk as (j & <- & Hj). apply in_seq in Hj.
    rewrite Forall_forall in Hp. destruct (Hp xb Hxb) as [L F].
    apply (same_shape_rows C C); [reflexivity| | |].
    + rewrite slice_length, L, Lpe. fold bs. nia.
    + unfold slice. apply Forall_firstn, Forall_skipn. exact F.
    + exact Wpe.
Qed.

End Compression.

Lemma compress_tokens_blocks_witness :
  let m := set_compression (example_attn (example_config 64 1 128) false)
                           ([repeat 1 16], [[1]]) (repeat [0] 16) in
  exists out,
    _compress_tokens (fun a => a) m [repeat [1] 17] = Ok out /\
    length out = 1%nat /\
    Forall (fun ob : mat => length ob = 2%nat /\ Forall (fun r => length r = 1%nat) ob) out.
Proof.
  intros m.
  apply (compress_tokens_blocks (fun a => a) m [repeat [1] 17] 1).
  - simpl. lia.
  - unfold size1. simpl. lia.
  - lia.
  - discriminate.
  - repeat constructor.
  - reflexivity.
  - repeat constructor.
  - repeat constructor.
  - repeat constructor.
Defined.

(** ** Selection: the edges of the count *)

Lemma sorted_run_length (l : list nat) (lo hi : nat) :
  StronglySorted lt l -> Forall (fun i => (lo <= i < hi)%nat) l ->
  (length l <= hi - lo)%nat.
Proof.
  intros Hs; revert lo; induction Hs as [|a l Hs IH Ha]; intros lo Hb; simpl; [lia|].
  apply Forall_cons_iff in Hb as [Hab Hb].
  assert (Hl : Forall (fun i => (S a <= i < hi)%nat) l).
  { rewrite Forall_forall in *. intros i Hi. specialize (Ha i Hi). specialize (Hb i Hi). lia. }
  specialize (IH (S a) Hl). lia.
Qed.

(** A strictly increasing list of [n] numbers below [a + n] and not below
    [a] is the run [a, a + 1, ..]. *)
Lemma sorted_run_seq (l : list nat) (a : nat) :
  StronglySorted lt l -> Forall (fun i => (a <= i < a + length l)%nat) l ->
  l = seq a (length l).
Proof.
  intros Hs; revert a; induction Hs as [|b l Hs IH Hb]; intros a Hr; [reflexivity|].
  cbn [length] in *. apply Forall_cons_iff in Hr as [Hab Hr].
  assert (Hl : Forall (fun i => (S b <= i < a + S (length l))%nat) l).
  { rewrite Forall_forall in *. intros i Hi. specialize (Hb i Hi). specialize (Hr i Hi). lia. }
  pose proof (sorted_run_length l (S b) (a + S (length l)) Hs Hl) as Hlen.
  assert (b = a) by lia. subst b.
  cbn [seq]. f_equal. apply IH.
  eapply Forall_impl; [|exact Hl]. intros i Hi. cbv beta in Hi |- *. lia.
Qed.

Lemma map_nth_seq {A : Type} (l : list A) (d : A) :
  map (fun i => nth i l d) (seq 0 (length l)) = l.
Proof.
  induction l as [|a l IH]; [reflexivity|].
  cbn [length seq map nth]. f_equal. rewrite <- seq_shift, map_map. exact IH.
Qed.

Lemma map_constant_along {A B C : Type} (f : A -> C) (c : C) (l : list A) (l' : list B) :
  length l = length l' -> (forall a, In a l -> f a = c) ->
  map f l = map (fun _ => c) l'.
Proof.
  revert l'; induction l as [|a l IH]; intros [|b l'] Hl Hc; simpl in Hl; try discriminate;
    [reflexivity|].
  cbn [map]. f_equal; [apply Hc; left; reflexivity|].
  apply IH; [lia|]. intros a' Ha'. apply Hc. right. exact Ha'.
Qed.

Lemma gather_all (T : nat) (x : tensor3) :
  Forall (fun xb => length xb = T) x ->
  zipWith (fun (xb : mat) ib => map (fun i => nth i xb []) ib) x (map (fun _ => seq 0 T) x) = x.
Proof.
  induction 1 as [|xb x Lxb _ IH]; [reflexivity|].
  cbn [map zipWith]. f_equal; [|exact IH].
  rewrite <- Lxb. apply map_nth_seq.
Qed.

Section SelectionEdges.

Variable topk : list R -> nat -> list nat.
Hypothesis topk_length : forall s k, (k <= length s)%nat -> length (topk s k) = k.
Hypothesis topk_NoDup : forall s k, (k <= length s)%nat -> NoDup (topk s k).
Hypothesis topk_bound : forall s k i, (k <= length s)%nat -> In i (topk s k) -> (i < length s)%nat.

(** X5.  When the selection count is not smaller than the sequence length,
    [_select_important_tokens] selects every token: it returns the input as
    it is, with the indices [0 .. T-1] for every batch item, whatever the
    scores. *)
Theorem select_important_tokens_all (m : Attn) (x scores : tensor3) :
  (Z.of_nat (size1 x) <= num_tokens_to_keep (cfg m))%Z ->
  Forall (fun xb => length xb = size1 x) x ->
  Forall (fun sb => length sb = size1 x) scores ->
  length scores = length x ->
  _select_important_tokens topk m x scores = Ok (x, map (fun _ => seq 0 (size1 x)) x).
Proof.
  intros Hk Hx Hs Hl.
  rewrite (select_important_tokens_Ok topk m x scores) by (assumption || lia).
  assert (Ei : forall sb, In sb scores ->
                          selected_indices_of topk m (size1 x) sb = seq 0 (size1 x)).
  { intros sb Hsb. rewrite Forall_forall in Hs. specialize (Hs sb Hsb).
    unfold selected_indices_of.
    replace (Z.to_nat (Z.min (num_tokens_to_keep (cfg m)) (Z.of_nat (size1 x))))
      with (size1 x) by lia.
    set (s := map (fun r => nth 0 r 0) sb).
    assert (Ls : length s = size1 x) by (unfold s; rewrite length_map; exact Hs).
    assert (Ll : length (torch_sort (topk s (size1 x))) = size1 x)
      by (rewrite torch_sort_length, topk_length; lia).
    rewrite <- Ll at 2. apply sorted_run_seq.
    - apply torch_sort_strict, topk_NoDup. lia.
    - apply Forall_forall. intros i Hi. apply (proj1 (torch_sort_In _ _)) in Hi.
      pose proof (topk_bound s (size1 x) i (eq_ind_r (fun n => (size1 x <= n)%nat) (le_n _) Ls) Hi).
      lia. }
  rewrite (map_constant_along _ (seq 0 (size1 x)) scores x Hl Ei).
  f_equal. f_equal. apply gather_all. exact Hx.
Qed.

(** X6.  A selection count of zero selects nothing and raises nothing; a
    negative count makes [torch.topk], hence [_select_important_tokens],
    raise the array library's [RuntimeError] on a batch that is not empty. *)
Theorem select_important_tokens_count_edges (m : Attn) (x scores : tensor3) :
  scores <> [] ->
  (num_tokens_to_keep (cfg m) = 0%Z ->
   _select_important_tokens topk m x scores =
   Ok (zipWith (fun _ _ => []) x scores, map (fun _ => []) scores)) /\
  ((num_tokens_to_keep (cfg m) < 0)%Z ->
   _select_important_tokens topk m x scores = Raise RuntimeError).
Proof.
  intros Hne. split.
  - intros H0. unfold _select_important_tokens. rewrite H0.
    replace (Z.min 0 (Z.of_nat (size1 x))) with 0%Z by lia.
    rewrite (mapM_Ok _ (fun _ => [])).
    + cbn [bind]. f_equal. f_equal.
      clear. revert scores. induction x as [|xb x IH]; intros [|sb scores]; simpl; auto.
      f_equal. apply IH.
    + intros sb _. unfold torch_topk.
      destruct (Z.ltb_spec 0 0); [lia|].
      destruct (Z.ltb_spec (Z.of_nat (length (map (fun r => nth 0 r 0) sb))) 0); [lia|].
      cbn [orb bind Z.to_nat].
      replace (topk (map (fun r => nth 0 r 0) sb) 0) with (@nil nat); [reflexivity|].
      symmetry. apply length_zero_iff_nil. apply topk_length. lia.
  - intros Hneg. unfold _select_important_tokens.
    destruct scores as [|sb scores']; [congruence|].
    cbn [mapM]. unfold torch_topk.
    destruct (Z.ltb_spec (Z.min (num_tokens_to_keep (cfg m)) (Z.of_nat (size1 x))) 0); [|lia].
    reflexivity.
Qed.

End SelectionEdges.

Lemma select_important_tokens_all_witness :
  _select_important_tokens topk_first (example_attn (example_config 4 3 128) false)
                           [[[5]; [7]]] [[[0]; [1]]]
  = Ok ([[[5]; [7]]], [[0; 1]%nat]).
Proof.
  apply (select_important_tokens_all topk_first topk_first_length topk_first_NoDup
           topk_first_bound (example_attn (example_config 4 3 128) false)
           [[[5]; [7]]] [[[0]; [1]]]).
  - unfold size1. simpl. lia.
  - repeat constructor.
  - repeat constructor.
  - reflexivity.
Defined.

Lemma select_important_tokens_count_edges_witness :
  _select_important_tokens topk_first (example_attn (example_config 4 0 128) false)
                           [[[5]; [7]]] [[[0]; [1]]]
  = Ok ([[]], [[]]).
Proof.
  apply (select_important_tokens_count_edges topk_first topk_first_length
           (example_attn (example_config 4 0 128) false) [[[5]; [7]]] [[[0]; [1]]]).
  - discriminate.
  - reflexivity.
Defined.

(** ** Calls of [forward] that raise *)

Lemma apply_rope_long_raises (x y : mat) (table : mat * mat) :
  Forall (fun r => length r <> 1%nat) x -> Forall (fun r => length r <> 1%nat) y ->
  (2 <= length (fst table))%nat -> (length (fst table) < length x)%nat ->
  apply_rope x y table = Raise RuntimeError.
Proof.
  intros Fx Fy H2 Hlt. destruct table as [c s]. simpl in H2, Hlt.
  destruct (chunk2_not_one x Fx) as (xr & xi & Ex).
  destruct (chunk2_not_one y Fy) as (yr & yi & Ey).
  unfold apply_rope. rewrite Ex, Ey. simpl.
  destruct (chunk2_length _ _ _ Ex) as [Lr _].
  unfold ew at 1. rewrite broadcast2_mismatch; [reflexivity| | |];
    rewrite ?Lr, ?length_firstn; lia.
Qed.

Lemma queries_too_long (m : Attn) (x : tensor3) :
  Attn_wf m -> x <> [] -> (1 <= n_head (cfg m))%nat ->
  (2 <= ctx_len (cfg m) < size1 x)%nat ->
  queries m x = Raise RuntimeError.
Proof.
  intros (Hq & _ & _ & _ & Ht & _) Hne Hh [H2 Hlt].
  destruct x as [|xb x']; [congruence|]. unfold size1 in Hlt. simpl in Hlt.
  unfold queries, apply_rope4, linear3, rms_norm3, split_heads.
  destruct (n_head (cfg m)) as [|n] eqn:En; [lia|].
  cbn [map seq mapM2 bind].
  rewrite apply_rope_long_raises; [reflexivity| | | |].
  - apply Forall_forall. intros r Hr. rewrite !map_map in Hr.
    apply in_map_iff in Hr as (tok & <- & _).
    rewrite length_firstn, length_skipn, linear_length, Hq.
    change rope_head_dim with 64%nat. lia.
  - apply Forall_forall. intros r Hr. rewrite !map_map in Hr.
    apply in_map_iff in Hr as (tok & <- & _).
    rewrite length_firstn, length_skipn, linear_length, Hq.
    change rope_head_dim with 64%nat. lia.
  - rewrite Ht.
    destruct (precompute_freqs_cis_shape 32 (ctx_len (cfg m)) 10000) as (L1 & _).
    change rope_head_dim with (2 * 32)%nat. rewrite L1. exact H2.
  - rewrite Ht.
    destruct (precompute_freqs_cis_shape 32 (ctx_len (cfg m)) 10000) as (L1 & _).
    change rope_head_dim with (2 * 32)%nat. rewrite L1, !length_map. exact Hlt.
Qed.

Section ForwardErrors.

Variable topk : list R -> nat -> list nat.
Variable scaled_dot_product_attention : tensor4 -> tensor4 -> tensor4 -> bool -> R -> tensor4.
Variable nn_dropout : R -> bool -> tensor3 -> tensor3.

(** X7.  On a module as [__init__] builds it, with a context of two
    positions or more, [forward] on a sequence longer than the context
    raises the array library's [RuntimeError] in the rotary step of the
    queries, in either mode and whatever the carried value tensor, and
    leaves the module, cache and fill pointer included, as it was. *)
Theorem forward_too_long_raises (m : Attn) (x : tensor3) (v1 : option tensor4) :
  Attn_wf m -> x <> [] -> (1 <= n_head (cfg m))%nat ->
  (2 <= ctx_len (cfg m) < size1 x)%nat ->
  forward topk scaled_dot_product_attention nn_dropout m x v1 = Raise RuntimeError /\
  module_after topk scaled_dot_product_attention nn_dropout m x v1 = m.
Proof.
  intros Hwf Hne Hh Hlen.
  pose proof (queries_too_long m x Hwf Hne Hh Hlen) as Eq.
  assert (Ef : forward topk scaled_dot_product_attention nn_dropout m x v1 = Raise RuntimeError)
    by (unfold forward; rewrite Eq; reflexivity).
  split; [exact Ef|].
  unfold module_after. rewrite Ef, Eq. reflexivity.
Qed.

(** X8.  [forward] with a carried value tensor whose number of entries is
    not that of the value tensor of the call raises [RuntimeError] when the
    carried tensor is viewed, before the cache step: the module is left as
    it was. *)
Theorem forward_carried_size_raises (m : Attn) (x : tensor3) (t : tensor4) :
  Attn_wf m -> input_ok m x ->
  length (flatten4 t) <> (length x * (n_head (cfg m) * (size1 x * v_head_dim)))%nat ->
  forward topk scaled_dot_product_attention nn_dropout m x (Some t) = Raise RuntimeError /\
  module_after topk scaled_dot_product_attention nn_dropout m x (Some t) = m.
Proof.
  intros Hwf Hin Hsz.
  destruct (queries_Ok m x Hwf Hin) as [q Eq].
  assert (Eg : global_branch m x (Some t) = Raise RuntimeError).
  { unfold global_branch. cbv zeta. unfold view_as.
    rewrite (flatten4_length _ _ _ _ _ (fresh_value_shaped4 m x Hwf Hin)).
    destruct (Nat.eqb_spec (length (flatten4 t))
                           (length x * (n_head (cfg m) * (size1 x * v_head_dim)))) as [E|_];
      [congruence|]. reflexivity. }
  assert (Ef : forward topk scaled_dot_product_attention nn_dropout m x (Some t)
               = Raise RuntimeError)
    by (unfold forward; rewrite Eq, Eg; reflexivity).
  split; [exact Ef|].
  unfold module_after. rewrite Ef, Eq, Eg. reflexivity.
Qed.

End ForwardErrors.

Lemma forward_too_long_raises_witness :
  let m := example_attn (example_config 2 1 128) false in
  forward topk_first (fun q _ _ _ _ => q) (fun _ _ x => x) m [[[1]; [2]; [3]]] None
  = Raise RuntimeError.
Proof.
  intros m.
  apply (forward_too_long_raises topk_first (fun q _ _ _ _ => q) (fun _ _ x => x)
           m [[[1]; [2]; [3]]] None).
  - unfold Attn_wf. simpl. repeat split; try reflexivity; [lia|lra].
  - discriminate.
  - simpl. lia.
  - unfold size1. simpl. lia.
Defined.

Lemma forward_carried_size_raises_witness :
  let m := example_attn (example_config 2 1 128) false in
  forward topk_first (fun q _ _ _ _ => q) (fun _ _ x => x) m [[[1]]] (Some [[[[1]]]])
  = Raise RuntimeError.
Proof.
  intros m.
  apply (forward_carried_size_raises topk_first (fun q _ _ _ _ => q) (fun _ _ x => x)
           m [[[1]]] [[[[1]]]]).
  - unfold Attn_wf. simpl. repeat split; try reflexivity; [lia|lra].
  - unfold input_ok, size1. simpl. split; [repeat constructor|lia].
  - unfold size1. simpl. lia.
Defined.

(** ** What the cache holds after a call *)

Lemma kv_shaped_nth (B H L : nat) (t : tensor4) (b h : nat) :
  kv_shaped B H L t -> (b < B)%nat -> (h < H)%nat ->
  length (nth b t []) = H /\ length (nth h (nth b t []) []) = L.
Proof.
  intros [Lt Ft] Hb Hh.
  assert (Hb' : (b < length t)%nat) by lia.
  destruct (proj1 (Forall_nth _ _) Ft b [] Hb') as [Lh Fh].
  split; [exact Lh|]. apply (proj1 (Forall_nth _ _) Fh). lia.
Qed.

Lemma cache_write_nth (B H L T f0 nf : nat) (cache new : tensor4) (b h : nat) :
  kv_shaped B H L cache -> kv_shaped B H T new -> (b < B)%nat -> (h < H)%nat ->
  nth h (nth b (cache_write f0 nf cache new) []) [] =
  firstn f0 (nth h (nth b cache []) []) ++ firstn (nf - f0) (nth h (nth b new []) [])
    ++ skipn nf (nth h (nth b cache []) []).
Proof.
  intros Sc Sn Hb Hh. unfold cache_write.
  destruct (kv_shaped_nth _ _ _ _ b h Sc Hb Hh) as [Lc _].
  destruct (kv_shaped_nth _ _ _ _ b h Sn Hb Hh) as [Ln _].
  destruct Sc as [Lc0 _], Sn as [Ln0 _].
  rewrite (nth_zipWith _ cache new b [] [] []) by lia.
  rewrite (nth_zipWith _ (nth b cache []) (nth b new []) h [] [] []) by lia.
  reflexivity.
Qed.

Section CacheContents.

Variable topk : list R -> nat -> list nat.
Variable scaled_dot_product_attention : tensor4 -> tensor4 -> tensor4 -> bool -> R -> tensor4.
Variable nn_dropout : R -> bool -> tensor3 -> tensor3.
Hypothesis topk_length : forall s k, (k <= length s)%nat -> length (topk s k) = k.

Lemma forward_inference_keys (m : Attn) (x : tensor3) (v1 : option tensor4) :
  Attn_wf m -> cache_ok m -> training m = false ->
  input_ok m x -> carried_ok m x v1 ->
  let k0 := fst (fst (cache_for_batch m (length x))) in
  let v0 := snd (fst (cache_for_batch m (length x))) in
  let f0 := snd (cache_for_batch m (length x)) in
  let nf := Nat.min (f0 + size1 x) (ctx_len (cfg m)) in
  exists out k,
    global_branch m x v1 = Ok (k, value_1_of m x v1) /\
    kv_shaped (length x) (n_head (cfg m)) (size1 x) k /\
    forward topk scaled_dot_product_attention nn_dropout m x v1 =
    Ok (out, value_1_of m x v1,
        set_cache m (Some (cache_write f0 nf k0 k))
                  (Some (cache_write f0 nf v0 (value_1_of m x v1))) nf).
Proof.
  intros Hwf Hok Htr Hin Hv k0 v0 f0 nf.
  destruct (queries_Ok m x Hwf Hin) as [q Eq].
  destruct (global_branch_Ok m x v1 Hwf Hin Hv) as (k & Ek & Sk).
  destruct (window_branch_Ok m x Hwf Hin) as (kw & vw & Ew).
  pose proof Hwf as (_ & _ & Hsk & _ & Ht & Hkeep & _). pose proof Hin as [Hx HT].
  destruct (selection_branch_Ok topk topk_length m x Hkeep Hx Hsk Ht) as [vs Es]; [lia|].
  pose proof (value_1_shaped m x v1 Hin Hv) as Sv.
  destruct (cache_update_append m (length x) (size1 x) k (value_1_of m x v1) Hok Sk Sv)
    as (Ec & _ & _).
  fold k0 v0 f0 nf in Ec.
  eexists. exists k. split; [exact Ek|]. split; [exact Sk|].
  unfold forward. rewrite Eq, Ek. simpl. rewrite Es. simpl. rewrite Ew. simpl.
  rewrite Htr. rewrite Ec. simpl. reflexivity.
Qed.

(** X9.  An inference call of a module with the weights that [__init__]
    gives it and caches of the shape that [forward] gives them, on an input
    of [n_embd] channels that is not empty and whose tokens fit in the
    cache, appends to the cache: in the module it leaves, the fill pointer
    has advanced by the number of tokens of the call, and for every batch
    item and head the cached rows below the new pointer are the rows cached
    before followed by the keys (the values) of the call, while the rows
    above it are untouched. *)
Theorem forward_appends_to_cache (m : Attn) (x : tensor3) (v1 : option tensor4) :
  Attn_wf m -> Attn_shapes m -> cache_ok m -> cache_channels m -> training m = false ->
  input_ok m x -> input_shaped m x -> carried_ok m x v1 ->
  let k0 := fst (fst (cache_for_batch m (length x))) in
  let v0 := snd (fst (cache_for_batch m (length x))) in
  let f0 := snd (cache_for_batch m (length x)) in
  (f0 + size1 x <= ctx_len (cfg m))%nat ->
  exists out k kc vc,
    global_branch m x v1 = Ok (k, value_1_of m x v1) /\
    forward topk scaled_dot_product_attention nn_dropout m x v1 =
      Ok (out, value_1_of m x v1, set_cache m (Some kc) (Some vc) (f0 + size1 x)) /\
    forall b h, (b < length x)%nat -> (h < n_head (cfg m))%nat ->
      firstn (f0 + size1 x) (nth h (nth b kc []) [])
        = firstn f0 (nth h (nth b k0 []) []) ++ nth h (nth b k []) [] /\
      skipn (f0 + size1 x) (nth h (nth b kc []) [])
        = skipn (f0 + size1 x) (nth h (nth b k0 []) []) /\
      firstn (f0 + size1 x) (nth h (nth b vc []) [])
        = firstn f0 (nth h (nth b v0 []) []) ++ nth h (nth b (value_1_of m x v1) []) [] /\
      skipn (f0 + size1 x) (nth h (nth b vc []) [])
        = skipn (f0 + size1 x) (nth h (nth b v0 []) []).
Proof.
  intros Hwf _ Hok _ Htr Hin _ Hv k0 v0 f0 Hfit.
  destruct (forward_inference_keys m x v1 Hwf Hok Htr Hin Hv) as (out & k & Ek & Sk & Ef).
  fold k0 v0 f0 in Ef.
  replace (Nat.min (f0 + size1 x) (ctx_len (cfg m))) with (f0 + size1 x)%nat in Ef by lia.
  pose proof (value_1_shaped m x v1 Hin Hv) as Sv.
  destruct (cache_for_batch_shaped m (length x) Hok) as (Sk0 & Sv0 & _).
  fold k0 in Sk0. fold v0 in Sv0.
  exists out, k. eexists. eexists. split; [exact Ek|]. split; [exact Ef|].
  intros b h Hb Hh.
  assert (Hw : forall (cache new : tensor4),
             kv_shaped (length x) (n_head (cfg m)) (ctx_len (cfg m)) cache ->
             kv_shaped (length x) (n_head (cfg m)) (size1 x) new ->
             firstn (f0 + size1 x)
                    (nth h (nth b (cache_write f0 (f0 + size1 x) cache new) []) [])
             = firstn f0 (nth h (nth b cache []) []) ++ nth h (nth b new []) [] /\
             skipn (f0 + size1 x)
                   (nth h (nth b (cache_write f0 (f0 + size1 x) cache new) []) [])
             = skipn (f0 + size1 x) (nth h (nth b cache []) [])).
  { intros cache new Sc Sn.
    rewrite (cache_write_nth _ _ _ _ f0 (f0 + size1 x) cache new b h Sc Sn Hb Hh).
    destruct (kv_shaped_nth _ _ _ _ b h Sc Hb Hh) as [_ Lc].
    destruct (kv_shaped_nth _ _ _ _ b h Sn Hb Hh) as [_ Ln].
    set (dst := nth h (nth b cache []) []) in *.
    set (src := nth h (nth b new []) []) in *.
    replace (f0 + size1 x - f0)%nat with (size1 x) by lia.
    rewrite <- Ln, firstn_all.
    assert (L1 : length (firstn f0 dst ++ src) = (f0 + length src)%nat)
      by (rewrite length_app, length_firstn; lia).
    rewrite app_assoc. split.
    - rewrite firstn_app, L1, Nat.sub_diag, firstn_O, app_nil_r.
      apply firstn_all2. lia.
    - rewrite skipn_app, L1, Nat.sub_diag, skipn_O.
      rewrite skipn_all2 by lia. reflexivity. }
  destruct (Hw k0 k Sk0 Sk) as [H1 H2].
  destruct (Hw v0 (value_1_of m x v1) Sv0 Sv) as [H3 H4].
  auto.
Qed.

(** X10.  An inference call of a module with the weights that [__init__]
    gives it, on an input of [n_embd] channels that is not empty and a batch
    whose size is not that of the allocated cache, starts a new cache:
    whatever the fill
    pointer was, it is [min(T, ctx_len)] after the call, and the key cache
    holds the keys of the call on rows of zeros; what was cached before is
    dropped. *)
Theorem forward_new_batch_size_restarts (m : Attn) (x : tensor3) (v1 : option tensor4)
        (kc0 vc0 : tensor4) :
  Attn_wf m -> Attn_shapes m -> cache_ok m -> training m = false ->
  input_ok m x -> input_shaped m x -> carried_ok m x v1 ->
  k_cache m = Some kc0 -> v_cache m = Some vc0 -> length kc0 <> length x ->
  exists out k,
    global_branch m x v1 = Ok (k, value_1_of m x v1) /\
    forward topk scaled_dot_product_attention nn_dropout m x v1 =
    Ok (out, value_1_of m x v1,
        set_cache m
          (Some (cache_write 0 (Nat.min (size1 x) (ctx_len (cfg m)))
                   (zeros4 (length x) (n_head (cfg m)) (ctx_len (cfg m))
                           (rope_head_dim + nope_head_dim)) k))
          (Some (cache_write 0 (Nat.min (size1 x) (ctx_len (cfg m)))
                   (zeros4 (length x) (n_head (cfg m)) (ctx_len (cfg m)) v_head_dim)
                   (value_1_of m x v1)))
          (Nat.min (size1 x) (ctx_len (cfg m)))).
Proof.
  intros Hwf _ Hok Htr Hin _ Hv Hk Hvc Hne.
  destruct (forward_inference_keys m x v1 Hwf Hok Htr Hin Hv) as (out & k & Ek & Sk & Ef).
  assert (Ec : cache_for_batch m (length x) =
               (zeros4 (length x) (n_head (cfg m)) (ctx_len (cfg m))
                       (rope_head_dim + nope_head_dim),
                zeros4 (length x) (n_head (cfg m)) (ctx_len (cfg m)) v_head_dim, 0%nat)).
  { unfold cache_for_batch. rewrite Hk, Hvc.
    destruct (Nat.eqb_spec (length kc0) (length x)); [congruence|reflexivity]. }
  rewrite Ec in Ef. cbn [fst snd] in Ef. rewrite Nat.add_0_l in Ef.
  exists out, k. split; [exact Ek|exact Ef].
Qed.

(** X11.  A training call of a module with the weights that [__init__]
    gives it, on a well-formed input of [n_embd] channels that is not empty,
    returns, leaves the allocated caches as they are and sets the fill
    pointer back to zero. *)
Theorem forward_training_resets_pointer (m : Attn) (x : tensor3) (v1 : option tensor4) :
  Attn_wf m -> Attn_shapes m -> training m = true ->
  input_ok m x -> input_shaped m x -> carried_ok m x v1 ->
  exists out,
    forward topk scaled_dot_product_attention nn_dropout m x v1 =
    Ok (out, value_1_of m x v1, set_cache m (k_cache m) (v_cache m) 0).
Proof.
  intros Hwf _ Htr Hin _ Hv.
  destruct (queries_Ok m x Hwf Hin) as [q Eq].
  destruct (global_branch_Ok m x v1 Hwf Hin Hv) as (k & Ek & Sk).
  destruct (window_branch_Ok m x Hwf Hin) as (kw & vw & Ew).
  pose proof Hwf as (_ & _ & Hsk & _ & Ht & Hkeep & _). pose proof Hin as [Hx HT].
  destruct (selection_branch_Ok topk topk_length m x Hkeep Hx Hsk Ht) as [vs Es]; [lia|].
  eexists.
  unfold forward. rewrite Eq, Ek. simpl. rewrite Es. simpl. rewrite Ew. simpl.
  rewrite Htr. simpl. reflexivity.
Qed.

End CacheContents.

Lemma example_attn_wf (T keep window : nat) (train : bool) :
  Attn_wf (example_attn (example_config T keep window) train).
Proof.
  unfold Attn_wf. simpl. repeat split; try reflexivity; [lia|lra].
Qed.

Lemma example_input_shaped (m : Attn) :
  n_embd (cfg m) = 1%nat -> input_shaped m [[[1]]].
Proof.
  intros E. split; [discriminate|]. split; [unfold size1; simpl; lia|].
  rewrite E. repeat constructor.
Qed.

Lemma zeros4_channels (B H L D : nat) :
  Forall (Forall (Forall (fun r : vec => length r = D))) (zeros4 B H L D).
Proof.
  unfold zeros4. apply Forall_forall. intros tb Hb. apply repeat_spec in Hb. subst.
  apply Forall_forall. intros th Hh. apply repeat_spec in Hh. subst.
  apply Forall_forall. intros r Hr. apply repeat_spec in Hr. subst. apply repeat_length.
Qed.

Lemma forward_appends_to_cache_witness :
  let m := set_cache (example_attn (example_config 2 1 128) false)
                     (Some (zeros4 1 1 2 96)) (Some (zeros4 1 1 2 32)) 1 in
  exists out k kc vc,
    global_branch m [[[1]]] None = Ok (k, value_1_of m [[[1]]] None) /\
    forward topk_first (fun q _ _ _ _ => q) (fun _ _ x => x) m [[[1]]] None =
    Ok (out, value_1_of m [[[1]]] None, set_cache m (Some kc) (Some vc) 2) /\
    firstn 2 (nth 0 (nth 0 kc []) [])
    = firstn 1 (nth 0 (nth 0 (zeros4 1 1 2 96) []) []) ++ nth 0 (nth 0 k []) [].
Proof.
  intros m.
  destruct (forward_appends_to_cache topk_first (fun q _ _ _ _ => q) (fun _ _ x => x)
              topk_first_length m [[[1]]] None) as (out & k & kc & vc & H1 & H2 & H3).
  - exact (example_attn_wf 2 1 128 false).
  - exact (example_attn_shapes 2 1 128 false).
  - unfold cache_ok. cbn [cache_filled k_cache v_cache set_cache m cfg example_attn
                           example_config ctx_len n_head].
    split; [lia|]. split.
    + unfold zeros4. rewrite repeat_length. exact (zeros4_shaped 1 1 2 96).
    + unfold zeros4. rewrite repeat_length. exact (zeros4_shaped 1 1 2 32).
  - split; [exact (zeros4_channels 1 1 2 96)|exact (zeros4_channels 1 1 2 32)].
  - reflexivity.
  - unfold input_ok, size1. simpl. split; [repeat constructor|lia].
  - apply example_input_shaped. reflexivity.
  - exact I.
  - unfold size1. simpl. lia.
  - exists out, k, kc, vc. split; [exact H1|]. split; [exact H2|].
    destruct (H3 0%nat 0%nat) as (H & _); [simpl; lia|simpl; lia|]. exact H.
Defined.

Lemma forward_new_batch_size_restarts_witness :
  let m := set_cache (example_attn (example_config 2 1 128) false)
                     (Some (zeros4 2 1 2 96)) (Some (zeros4 2 1 2 32)) 1 in
  exists out m',
    forward topk_first (fun q _ _ _ _ => q) (fun _ _ x => x) m [[[1]]] None =
    Ok (out, value_1_of m [[[1]]] None, m') /\
    cache_filled m' = 1%nat.
Proof.
  intros m.
  destruct (forward_new_batch_size_restarts topk_first (fun q _ _ _ _ => q) (fun _ _ x => x)
              topk_first_length m [[[1]]] None (zeros4 2 1 2 96) (zeros4 2 1 2 32))
    as (out & k & _ & H).
  - exact (example_attn_wf 2 1 128 false).
  - exact (example_attn_shapes 2 1 128 false).
  - unfold cache_ok. cbn [cache_filled k_cache v_cache set_cache m cfg example_attn
                           example_config ctx_len n_head].
    split; [lia|]. split; [exact (zeros4_shaped 2 1 2 96)|exact (zeros4_shaped 2 1 2 32)].
  - reflexivity.
  - unfold input_ok, size1. simpl. split; [repeat constructor|lia].
  - apply example_input_shaped. reflexivity.
  - exact I.
  - reflexivity.
  - reflexivity.
  - unfold zeros4. rewrite repeat_length. simpl. lia.
  - eexists. eexists. split; [exact H|]. reflexivity.
Defined.

Lemma forward_training_resets_pointer_witness :
  let m := set_cache (example_attn (example_config 2 1 128) true)
                     (Some (zeros4 1 1 2 96)) (Some (zeros4 1 1 2 32)) 1 in
  exists out m',
    forward topk_first (fun q _ _ _ _ => q) (fun _ _ x => x) m [[[1]]] None =
    Ok (out, value_1_of m [[[1]]] None, m') /\
    cache_filled m' = 0%nat /\
    k_cache m' = Some (zeros4 1 1 2 96) /\ v_cache m' = Some (zeros4 1 1 2 32).
Proof.
  intros m.
  destruct (forward_training_resets_pointer topk_first (fun q _ _ _ _ => q) (fun _ _ x => x)
              topk_first_length m [[[1]]] None) as (out & H).
  - exact (example_attn_wf 2 1 128 true).
  - exact (example_attn_shapes 2 1 128 true).
  - reflexivity.
  - unfold input_ok, size1. simpl. split; [repeat constructor|lia].
  - apply example_input_shaped. reflexivity.
  - exact I.
  - eexists. eexists. split; [exact H|]. repeat split.
Defined.

(** ** Router: a bias that is not negative, and counts out of range *)

Lemma softmax_pos (v : list R) : Forall (fun a => 0 < a) (softmax v).
Proof.
  destruct v as [|a0 v0] eqn:E; [constructor|]. rewrite <- E.
  assert (Hne : v <> []) by (rewrite E; discriminate).
  pose proof (sum_exp_pos v Hne) as Hs.
  unfold softmax. apply Forall_forall. intros a Ha.
  apply in_map_iff in Ha as (b & <- & _).
  apply Rdiv_lt_0_compat; [apply exp_pos|exact Hs].
Qed.

Lemma sum_pos (l : list R) : l <> [] -> Forall (fun a => 0 < a) l -> 0 < sum l.
Proof.
  intros Hne H. unfold sum. induction H as [|a l Ha H IH]; [congruence|].
  cbn [fold_right]. destruct l as [|b l'].
  - simpl. lra.
  - assert (0 < fold_right Rplus 0 (b :: l')) by (apply IH; discriminate). lra.
Qed.

Section RouterEdges.

Variable topk : list R -> nat -> list nat.
Variable nn_dropout2 : bool -> mat -> mat.
Variable noise : nat -> nat -> R.
Hypothesis topk_length : forall s k, (k <= length s)%nat -> length (topk s k) = k.
Hypothesis topk_bound : forall s k i, (k <= length s)%nat -> In i (topk s k) -> (i < length s)%nat.

Lemma selected_scores_pos (m : DSMoE) (n : nat) (x : list R) :
  (2 <= num_exp m <= Z.of_nat (num_experts m))%Z ->
  length (gate m) = (num_experts m - 1)%nat ->
  length (expert_bias m) = (num_experts m - 1)%nat ->
  Forall (fun b => 0 <= b) (expert_bias m) ->
  Forall (fun a => 0 < a) (selected_scores topk noise m n x) /\
  length (selected_scores topk noise m n x) = Z.to_nat (num_exp m - 1).
Proof.
  intros Hne Hg Hb Hpos.
  assert (Lg : length (gate_forward noise m n x) = (num_experts m - 1)%nat)
    by (rewrite gate_forward_length; exact Hg).
  assert (Lb : length (biased_scores noise m n x) = (num_experts m - 1)%nat)
    by (unfold biased_scores; rewrite zipWith_length; lia).
  assert (Hk : (Z.to_nat (num_exp m - 1) <= length (biased_scores noise m n x))%nat) by lia.
  split.
  - unfold selected_scores. apply Forall_forall. intros a Ha.
    apply in_map_iff in Ha as (i & <- & Hi).
    pose proof (topk_bound _ _ i Hk Hi) as Hlt.
    unfold biased_scores in *.
    rewrite (nth_zipWith Rplus _ _ i 0 0 0) by (rewrite zipWith_length in Hlt; lia).
    assert (H1 : 0 < nth i (gate_forward noise m n x) 0).
    { apply (proj1 (Forall_nth _ _) (softmax_pos _)).
      fold (gate_forward noise m n x). rewrite zipWith_length in Hlt. lia. }
    assert (H2 : 0 <= nth i (expert_bias m) 0).
    { apply (proj1 (Forall_nth _ _) Hpos). rewrite zipWith_length in Hlt. lia. }
    lra.
  - unfold selected_scores. rewrite length_map. apply topk_length. exact Hk.
Qed.

(** X12.  With a bias that has no negative component, as the zero bias of a
    new module, and a selection count between 2 and the number of experts,
    the normalisation of [DSMoE.forward] never divides by zero: the routing
    weights of every token are finite and positive, [num_exp] in number, and
    sum to 1. *)
Theorem route_token_nonneg_bias (m : DSMoE) (n : nat) (x : list R) :
  (2 <= num_exp m <= Z.of_nat (num_experts m))%Z ->
  length (gate m) = (num_experts m - 1)%nat ->
  length (expert_bias m) = (num_experts m - 1)%nat ->
  Forall (fun b => 0 <= b) (expert_bias m) ->
  exists ws idx,
    route_token topk noise m n x = Ok (map Finite ws, idx) /\
    length ws = Z.to_nat (num_exp m) /\
    Forall (fun w => 0 < w) ws /\
    sum ws = 1.
Proof.
  intros Hne Hg Hb Hpos.
  destruct (selected_scores_pos m n x Hne Hg Hb Hpos) as [Fs Ls].
  set (sel := selected_scores topk noise m n x) in *.
  assert (Hsel : sel <> []) by (intros E; rewrite E in Ls; simpl in Ls; lia).
  pose proof (sum_pos sel Hsel Fs) as HS.
  assert (Hk : 0 < IZR (num_exp m)) by (apply IZR_lt; lia).
  assert (Hk1 : 0 < IZR (num_exp m - 1)) by (apply IZR_lt; lia).
  eexists. eexists. split; [apply (route_token_Ok topk noise topk_length); auto; fold sel; lra|].
  fold sel. split; [|split].
  - cbn [length]. rewrite length_map, Ls. lia.
  - constructor.
    + apply Rdiv_lt_0_compat; lra.
    + apply Forall_forall. intros w Hw. apply in_map_iff in Hw as (v & <- & Hv).
      rewrite Forall_forall in Fs. specialize (Fs v Hv).
      apply Rdiv_lt_0_compat; [|exact Hk].
      apply Rmult_lt_0_compat; [|exact Hk1].
      apply Rdiv_lt_0_compat; assumption.
  - unfold sum at 1. cbn [fold_right]. fold (sum (map (fun v => v / sum sel * IZR (num_exp m - 1)
                                                             / IZR (num_exp m)) sel)).
    rewrite (map_ext _ (fun v => v * (/ sum sel * IZR (num_exp m - 1) / IZR (num_exp m))))
      by (intros v; unfold Rdiv; ring).
    rewrite sum_map_scale, minus_IZR. field. split; lra.
Qed.

(** X13.  A selection count below 1 or above the number of experts makes
    [torch.topk], hence [DSMoE.forward] on any token, raise the array
    library's [RuntimeError]. *)
Theorem router_row_count_out_of_range (m : DSMoE) (n : nat) (x : list R) :
  (1 <= num_experts m)%nat ->
  length (gate m) = (num_experts m - 1)%nat ->
  length (expert_bias m) = (num_experts m - 1)%nat ->
  (num_exp m < 1 \/ Z.of_nat (num_experts m) < num_exp m)%Z ->
  router_row topk noise m n x = Raise RuntimeError.
Proof.
  intros HE Hg Hb Hout. unfold router_row, route_token.
  assert (Lg : length (gate_forward noise m n x) = length (expert_bias m))
    by (rewrite gate_forward_length; congruence).
  rewrite (broadcast2_same (fun _ _ => True) _ Rplus) by (auto using Forall2_same_length).
  cbn [bind]. unfold torch_topk. rewrite zipWith_length, Lg, Nat.min_id, Hb.
  destruct (Z.ltb_spec (num_exp m - 1) 0) as [H1|H1]; [reflexivity|].
  destruct (Z.ltb_spec (Z.of_nat (num_experts m - 1)) (num_exp m - 1)) as [H2|H2];
    [reflexivity|lia].
Qed.

Lemma zipWith_const {A B C : Type} (c : C) (xs : list A) (ys : list B) :
  length xs = length ys -> zipWith (fun _ _ => c) xs ys = repeat c (length ys).
Proof.
  revert ys; induction xs as [|a xs IH]; intros [|b ys] H; simpl in H; try discriminate;
    [reflexivity|].
  cbn [zipWith length repeat]. f_equal. apply IH. lia.
Qed.

(** X14.  With a selection count of 1, [DSMoE.forward] returns router
    weights that are zero in every column for every token: no expert is
    chosen, and the single round of the scatter finds no column, so that the
    shared expert has no weight either. *)
Theorem DSMoE_forward_single_expert (m : DSMoE) (x : tensor3) :
  num_exp m = 1%Z ->
  length (gate m) = length (expert_bias m) ->
  exists output,
    DSMoE_forward topk nn_dropout2 noise m x =
    Ok (output, repeat (repeat (Finite 0) (num_experts m)) (length (concat x))).
Proof.
  intros H1 Hl. unfold DSMoE_forward.
  rewrite (mapM2_Ok (fun _ _ => True) _ (fun _ _ => repeat (Finite 0) (num_experts m))).
  - cbn [bind]. rewrite zipWith_const by apply length_seq. eexists. reflexivity.
  - intros n xr _. apply (router_row_single_expert topk noise topk_length); assumption.
  - apply Forall2_same_length. apply length_seq.
Qed.

End RouterEdges.

Lemma route_token_nonneg_bias_witness :
  exists ws idx,
    route_token topk_first (fun _ _ => 0) (example_moe [0; 0; 0] 4) 0 [1] = Ok (map Finite ws, idx) /\
    length ws = 4%nat /\ Forall (fun w => 0 < w) ws /\ sum ws = 1.
Proof.
  apply (route_token_nonneg_bias topk_first (fun _ _ => 0) topk_first_length topk_first_bound
           (example_moe [0; 0; 0] 4) 0 [1]).
  - simpl. lia.
  - reflexivity.
  - reflexivity.
  - repeat constructor; lra.
Defined.

Lemma router_row_count_out_of_range_witness :
  router_row topk_first (fun _ _ => 0) (example_moe [0; 0; 0] 5) 0 [1] = Raise RuntimeError.
Proof.
  apply (router_row_count_out_of_range topk_first (fun _ _ => 0) (example_moe [0; 0; 0] 5) 0 [1]).
  - simpl. lia.
  - reflexivity.
  - reflexivity.
  - right. simpl. lia.
Defined.

Lemma DSMoE_forward_single_expert_witness :
  exists output,
    DSMoE_forward topk_first (fun _ x => x) (fun _ _ => 0) (example_moe [0; 0; 0] 1) [[[1]; [2]]] =
    Ok (output, [[Finite 0; Finite 0; Finite 0; Finite 0]; [Finite 0; Finite 0; Finite 0; Finite 0]]).
Proof.
  apply (DSMoE_forward_single_expert topk_first (fun _ x => x) (fun _ _ => 0) topk_first_length
           (example_moe [0; 0; 0] 1) [[[1]; [2]]]).
  - reflexivity.
  - reflexivity.
Defined.

(** ** Bias balancer: the loop over the blocks *)

Lemma update_expert_biases_from_nth (blocks : list Block) (all_router_weights : list tensor2)
      (update_rate : R) (j : nat) (blocks' : list Block) :
  update_expert_biases_from j blocks all_router_weights update_rate = Ok blocks' ->
  length blocks' = length blocks /\
  forall i b, nth_error blocks i = Some b ->
    exists b', nth_error blocks' i = Some b' /\ attn b' = attn b /\
      match ffn b with
      | FfnMLP e => ffn b' = FfnMLP e
      | FfnMoE mo =>
        exists rw mo',
          nth_error all_router_weights (j + moe_rank blocks i) = Some rw /\
          update_expert_bias mo rw update_rate = Ok mo' /\
          ffn b' = FfnMoE mo'
      end.
Proof.
  revert j blocks'; induction blocks as [|b0 blocks IH]; intros j blocks' H; simpl in H.
  - injection H as <-. split; [reflexivity|]. intros [|i] b Hb; discriminate.
  - destruct (ffn b0) as [e|mo] eqn:Ef.
    + destruct (update_expert_biases_from j blocks all_router_weights update_rate)
        as [rest|err] eqn:Er; simpl in H; [|discriminate].
      injection H as <-. destruct (IH j rest Er) as [Hl Hn].
      split; [simpl; lia|]. intros [|i] b Hb; simpl in Hb.
      * injection Hb as <-. exists b0. rewrite Ef. auto.
      * destruct (Hn i b Hb) as (b' & E1 & E2 & E3). exists b'. split; [exact E1|].
        split; [exact E2|]. unfold moe_rank in *. cbn [firstn moe_count]. rewrite Ef. exact E3.
    + destruct (nth_error all_router_weights j) as [rw|] eqn:Ew; [|discriminate].
      destruct (update_expert_bias mo rw update_rate) as [mo'|err] eqn:Eu; simpl in H;
        [|discriminate].
      destruct (update_expert_biases_from (S j) blocks all_router_weights update_rate)
        as [rest|err] eqn:Er; simpl in H; [|discriminate].
      injection H as <-. destruct (IH (S j) rest Er) as [Hl Hn].
      split; [simpl; lia|]. intros [|i] b Hb; simpl in Hb.
      * injection Hb as <-. eexists. split; [reflexivity|]. split; [reflexivity|].
        rewrite Ef. exists rw, mo'. unfold moe_rank. cbn [firstn moe_count].
        rewrite Nat.add_0_r. auto.
      * destruct (Hn i b Hb) as (b' & E1 & E2 & E3). exists b'. split; [exact E1|].
        split; [exact E2|]. unfold moe_rank in *. cbn [firstn moe_count]. rewrite Ef.
        destruct (ffn b) as [e|mo2]; [exact E3|].
        destruct E3 as (rw2 & mo2' & F1 & F2 & F3). exists rw2, mo2'.
        replace (j + S (moe_count (firstn i blocks)))%nat
          with (S j + moe_count (firstn i blocks))%nat by lia. auto.
Qed.

(** X15.  When [update_expert_biases] returns, every block is still in its
    place with its attention module; a block with a plain feed-forward layer
    is unchanged, and a mixture-of-experts block has received the update
    computed from the entry of [all_router_weights] whose index is the
    number of mixture-of-experts blocks before it. *)
Theorem update_expert_biases_alignment (blocks blocks' : list Block)
        (all_router_weights : list tensor2) (update_rate : R) :
  update_expert_biases blocks all_router_weights update_rate = Ok blocks' ->
  length blocks' = length blocks /\
  forall i b, nth_error blocks i = Some b ->
    exists b', nth_error blocks' i = Some b' /\ attn b' = attn b /\
      match ffn b with
      | FfnMLP e => ffn b' = FfnMLP e
      | FfnMoE mo =>
        exists rw mo',
          nth_error all_router_weights (moe_rank blocks i) = Some rw /\
          update_expert_bias mo rw update_rate = Ok mo' /\
          ffn b' = FfnMoE mo'
      end.
Proof.
  intros H. exact (update_expert_biases_from_nth blocks all_router_weights update_rate 0 blocks' H).
Qed.

Lemma update_expert_biases_from_short (E : nat) (blocks : list Block)
      (all_router_weights : list tensor2) (update_rate : R) (j : nat) :
  Forall (fun b => match ffn b with
                   | FfnMoE mo => num_experts mo = E /\ length (expert_bias mo) = (E - 1)%nat
                   | FfnMLP _ => True
                   end) blocks ->
  Forall (fun rw => ncols rw = E) all_router_weights ->
  (1 <= moe_count blocks)%nat ->
  (length all_router_weights < j + moe_count blocks)%nat ->
  update_expert_biases_from j blocks all_router_weights update_rate = Raise IndexError.
Proof.
  intros Hb Hr. revert j; induction Hb as [|b blocks Hb1 _ IH]; intros j H1 Hj; simpl in *.
  - lia.
  - destruct (ffn b) as [e|mo] eqn:Ef.
    + rewrite (IH j H1 Hj). reflexivity.
    + destruct Hb1 as [HE Hl].
      destruct (nth_error all_router_weights j) as [rw|] eqn:Ew; [|reflexivity].
      assert (Hc : ncols rw = num_experts mo).
      { rewrite Forall_forall in Hr. rewrite (Hr rw (nth_error_In _ _ Ew)). congruence. }
      destruct (update_expert_bias_Ok mo rw update_rate) as (mo' & ->);
        [congruence|exact Hc|].
      assert (Hlt : (j < length all_router_weights)%nat)
        by (apply nth_error_Some; congruence).
      cbn [bind]. rewrite (IH (S j)) by lia. reflexivity.
Qed.

(** X16.  On blocks whose mixture-of-experts layers have [E] experts and
    router weights of [E] columns, [update_expert_biases] returns when
    [all_router_weights] has an entry for every mixture-of-experts block
    (further entries are not read), and raises [IndexError] when it has
    fewer. *)
Theorem update_expert_biases_entries (E : nat) (blocks : list Block)
        (all_router_weights : list tensor2) (update_rate : R) :
  Forall (fun b => match ffn b with
                   | FfnMoE mo => num_experts mo = E /\ length (expert_bias mo) = (E - 1)%nat
                   | FfnMLP _ => True
                   end) blocks ->
  Forall (fun rw => ncols rw = E) all_router_weights ->
  ((moe_count blocks <= length all_router_weights)%nat ->
   exists blocks', update_expert_biases blocks all_router_weights update_rate = Ok blocks') /\
  ((length all_router_weights < moe_count blocks)%nat ->
   update_expert_biases blocks all_router_weights update_rate = Raise IndexError).
Proof.
  intros Hb Hr. split; intros Hc.
  - apply (update_expert_biases_Ok E); auto.
  - apply (update_expert_biases_from_short E); auto; lia.
Qed.

Lemma update_expert_biases_alignment_witness :
  let blocks := [{| attn := example_attn (example_config 2 1 128) false;
                    ffn := FfnMoE (example_moe [0; 0; 0] 4) |}] in
  let weights := [{| ncols := 4; rows := [[1 / 4; 3 / 4; 0; 0]] |}] in
  exists blocks',
    update_expert_biases blocks weights (1 / 1000) = Ok blocks' /\
    length blocks' = 1%nat.
Proof.
  intros blocks weights.
  destruct (update_expert_biases_Ok 4 blocks weights (1 / 1000) 0) as [blocks' E].
  - repeat constructor.
  - repeat constructor.
  - simpl. lia.
  - exists blocks'. split; [exact E|].
    apply (update_expert_biases_alignment blocks blocks' weights (1 / 1000) E).
Defined.

Lemma update_expert_biases_entries_witness :
  update_expert_biases
    [{| attn := example_attn (example_config 2 1 128) false;
        ffn := FfnMoE (example_moe [0; 0; 0] 4) |}] [] (1 / 1000)
  = Raise IndexError.
Proof.
  apply (update_expert_biases_entries 4).
  - repeat constructor.
  - constructor.
  - simpl. lia.
Defined.

(** ** The noise of the gate *)

(** X18.  [UnitCenteredNoise] is the identity in evaluation mode; in
    training mode, with draws in [0, 1) and a scaling that is not negative,
    it keeps the number of scores and moves each score by at most
    [scaling / 2] of its size, the factor being centred on 1. *)
Theorem UnitCenteredNoise_bounded (noise : nat -> nat -> R) (scaling : R) (n : nat)
        (x : list R) :
  (forall i j, 0 <= noise i j < 1) -> 0 <= scaling ->
  UnitCenteredNoise_forward noise scaling false n x = x /\
  length (UnitCenteredNoise_forward noise scaling true n x) = length x /\
  forall j, (j < length x)%nat ->
    Rabs (nth j (UnitCenteredNoise_forward noise scaling true n x) 0 - nth j x 0)
    <= scaling / 2 * Rabs (nth j x 0).
Proof.
  intros Hu Hs. split; [reflexivity|]. unfold UnitCenteredNoise_forward.
  split; [rewrite zipWith_length, length_seq; lia|].
  intros j Hj.
  rewrite (nth_zipWith _ (seq 0 (length x)) x j 0 0%nat 0) by (rewrite ?length_seq; lia).
  rewrite seq_nth by exact Hj. simpl plus.
  replace (nth j x 0 * (noise n j * scaling + (1 - scaling * (5 / 10))) - nth j x 0)
    with (nth j x 0 * (scaling * (noise n j - 1 / 2))) by field.
  rewrite Rabs_mult, (Rabs_mult scaling), (Rabs_pos_eq scaling Hs).
  assert (Hh : Rabs (noise n j - 1 / 2) <= 1 / 2).
  { specialize (Hu n j). unfold Rabs. destruct (Rcase_abs (noise n j - 1 / 2)); lra. }
  pose proof (Rabs_pos (nth j x 0)) as Hx.
  apply Rle_trans with (Rabs (nth j x 0) * (scaling * (1 / 2))).
  - apply Rmult_le_compat_l; [exact Hx|]. apply Rmult_le_compat_l; assumption.
  - right. field.
Qed.

Lemma UnitCenteredNoise_bounded_witness :
  length (UnitCenteredNoise_forward (fun _ _ => 1 / 2) (2 / 100) true 0 [1; 2]) = 2%nat.
Proof.
  apply (UnitCenteredNoise_bounded (fun _ _ => 1 / 2) (2 / 100) 0 [1; 2]).
  - intros i j. lra.
  - lra.
Defined.

(** ** The class [RoPE] *)

Lemma neg_half_row_twice (h : nat) (r : list R) :
  length r = (2 * h)%nat ->
  map Ropp (skipn h (map Ropp (skipn h r) ++ firstn h r))
    ++ firstn h (map Ropp (skipn h r) ++ firstn h r) = map Ropp r.
Proof.
  intros Lr.
  assert (L1 : length (map Ropp (skipn h r)) = h) by (rewrite length_map, length_skipn; lia).
  rewrite skipn_app, firstn_app, L1, Nat.sub_diag, skipn_O, firstn_O, app_nil_r.
  rewrite (skipn_all2 (map Ropp (skipn h r))) by lia.
  rewrite (firstn_all2 (map Ropp (skipn h r))) by lia.
  cbn [app]. rewrite <- map_app, firstn_skipn. reflexivity.
Qed.

Lemma size3_neg_half (x : tensor4) : RoPE.size3 (RoPE._neg_half x) = RoPE.size3 x.
Proof.
  unfold RoPE._neg_half. generalize (Nat.div (RoPE.size3 x) 2) as k. intros k.
  unfold RoPE.size3.
  destruct x as [|x0 x']; [reflexivity|]. destruct x0 as [|x1 x0']; [reflexivity|].
  destruct x1 as [|r x1']; [reflexivity|]. cbn [map hd].
  rewrite length_app, length_map, length_skipn, length_firstn. lia.
Qed.

(** X19.  On a tensor whose rows have an even width, [RoPE._neg_half]
    keeps the shape, and applied twice it negates every entry. *)
Theorem neg_half_twice (h : nat) (x : tensor4) :
  RoPE.size3 x = (2 * h)%nat ->
  Forall (Forall (Forall (fun r : list R => length r = (2 * h)%nat))) x ->
  RoPE._neg_half (RoPE._neg_half x) = map (map (map (map Ropp))) x /\
  Forall (Forall (Forall (fun r : list R => length r = (2 * h)%nat))) (RoPE._neg_half x).
Proof.
  intros Hs Hx.
  assert (Hd : Nat.div (2 * h) 2 = h) by (symmetry; apply (Nat.div_unique (2 * h) 2 h 0); lia).
  split.
  - unfold RoPE._neg_half at 1. rewrite size3_neg_half. unfold RoPE._neg_half.
    rewrite Hs, Hd, !map_map.
    apply map_ext_in. intros x0 H0. rewrite !map_map. apply map_ext_in. intros x1 H1.
    rewrite !map_map. apply map_ext_in. intros r Hr.
    apply neg_half_row_twice.
    rewrite Forall_forall in Hx. specialize (Hx x0 H0).
    rewrite Forall_forall in Hx. specialize (Hx x1 H1).
    rewrite Forall_forall in Hx. exact (Hx r Hr).
  - unfold RoPE._neg_half. rewrite Hs, Hd.
    apply Forall_forall. intros x0 H0. apply in_map_iff in H0 as (y0 & <- & H0).
    apply Forall_forall. intros x1 H1. apply in_map_iff in H1 as (y1 & <- & H1).
    apply Forall_forall. intros r Hr. apply in_map_iff in Hr as (r0 & <- & Hr).
    rewrite Forall_forall in Hx. specialize (Hx y0 H0).
    rewrite Forall_forall in Hx. specialize (Hx y1 H1).
    rewrite Forall_forall in Hx. specialize (Hx r0 Hr).
    rewrite length_app, length_map, length_skipn, length_firstn. lia.
Qed.

Lemma neg_half_twice_witness :
  RoPE._neg_half (RoPE._neg_half [[[[1; 2]]]]) = [[[[- 1; - 2]]]].
Proof.
  apply (neg_half_twice 1 [[[[1; 2]]]]).
  - reflexivity.
  - repeat constructor.
Defined.

Lemma build_cache_cached (s : RoPE.t) (x : tensor4) :
  exists c sn, RoPE.cached (RoPE._build_cache s x) = Some (c, sn) /\
               (RoPE.cached s = None -> length c = length x /\ length sn = length x).
Proof.
  unfold RoPE._build_cache. destruct (RoPE.cached s) as [[c sn]|] eqn:E.
  - exists c, sn. rewrite E. split; [reflexivity|discriminate].
  - eexists. eexists. cbn [RoPE.cached]. split; [reflexivity|].
    intros _. rewrite !length_map, length_seq. auto.
Qed.

Lemma build_cache_idem (s : RoPE.t) (x : tensor4) (c sn : mat) :
  RoPE.cached s = Some (c, sn) -> RoPE._build_cache s x = s.
Proof. intros E. unfold RoPE._build_cache. rewrite E. reflexivity. Qed.

(** X20.  The tables of [RoPE] are built by the first call of [forward],
    with one row for every index of the leading axis of its input, and no
    later call changes them, whatever the shape of its input: the branch
    that asks for a new cache returns at once. *)
Theorem rope_cache_built_once (s : RoPE.t) (x y : tensor4) :
  RoPE.cached s = None ->
  exists c sn,
    RoPE.cached (fst (RoPE.forward s x)) = Some (c, sn) /\
    length c = length x /\ length sn = length x /\
    fst (RoPE.forward (fst (RoPE.forward s x)) y) = fst (RoPE.forward s x).
Proof.
  intros E.
  assert (E1 : fst (RoPE.forward s x) = RoPE._build_cache s x)
    by (unfold RoPE.forward; rewrite E; reflexivity).
  destruct (build_cache_cached s x) as (c & sn & Ec & Hl). destruct (Hl E) as [Lc Ls].
  exists c, sn. rewrite E1. split; [exact Ec|]. split; [exact Lc|]. split; [exact Ls|].
  unfold RoPE.forward. rewrite Ec. cbn [fst].
  destruct (negb (Nat.eqb (length c) (size1 y))); [|reflexivity].
  apply (build_cache_idem _ y c sn Ec).
Qed.

Lemma rope_cache_built_once_witness :
  exists c sn,
    RoPE.cached (fst (RoPE.forward {| RoPE.base := 10000; RoPE.d := 2; RoPE.cached := None |}
                                   [[[[1; 0]]]])) = Some (c, sn) /\
    length c = 1%nat.
Proof.
  destruct (rope_cache_built_once {| RoPE.base := 10000; RoPE.d := 2; RoPE.cached := None |}
              [[[[1; 0]]]] [[[[1; 0]; [0; 1]]]] eq_refl) as (c & sn & H1 & H2 & _).
  exists c, sn. split; [exact H1|exact H2].
Defined.

(** One row of [RoPE.forward]: the product with the doubled cosine row plus
    the product of the swapped row with the doubled sine row is the rotation
    of [apply_rope]. *)
Lemma rope_row (h : nat) (r c sn : list R) :
  length r = (2 * h)%nat -> length c = h -> length sn = h ->
  zipWith Rplus (zipWith Rmult r (c ++ c))
          (zipWith Rmult (map Ropp (skipn h r) ++ firstn h r) (sn ++ sn))
  = rotate_row c sn r.
Proof.
  intros Lr Lc Ls.
  assert (Ln : length (map Ropp (skipn h r) ++ firstn h r) = (2 * h)%nat)
    by (rewrite length_app, length_map, length_skipn, length_firstn; lia).
  assert (Lcc : length (c ++ c) = (2 * h)%nat) by (rewrite length_app; lia).
  assert (Lss : length (sn ++ sn) = (2 * h)%nat) by (rewrite length_app; lia).
  apply (nth_ext _ _ 0 0).
  - rewrite (rotate_row_length h) by assumption. rewrite !zipWith_length. lia.
  - rewrite !zipWith_length, Lr, Lcc, Ln, Lss. intros i Hi.
    rewrite (nth_zipWith Rplus _ _ i 0 0 0) by (rewrite zipWith_length; lia).
    rewrite !(nth_zipWith Rmult _ _ i 0 0 0) by lia.
    destruct (Nat.lt_ge_cases i h) as [Hlt|Hge].
    + destruct (rotate_row_entries h c sn r i Lc Ls Lr Hlt) as [E _]. rewrite E.
      rewrite !app_nth1 by (rewrite ?length_map, ?length_skipn; lia).
      rewrite nth_map_Ropp, nth_skipn. replace (h + i)%nat with (i + h)%nat by lia. ring.
    + assert (Hj : (i - h < h)%nat) by lia.
      destruct (rotate_row_entries h c sn r (i - h) Lc Ls Lr Hj) as [_ E].
      replace (i - h + h)%nat with i in E by lia. rewrite E.
      rewrite !app_nth2 by (rewrite ?length_map, ?length_skipn; lia).
      rewrite length_map, length_skipn, Lc, Ls, Lr.
      replace (i - (2 * h - h))%nat with (i - h)%nat by lia.
      rewrite nth_firstn. destruct (Nat.ltb_spec (i - h) h); [|lia]. ring.
Qed.

Lemma mapM2_map_same {A B C D : Type} (f : B -> C -> result D) (g : A -> B) (g' : A -> C)
      (l : list A) :
  mapM2 f (map g l) (map g' l) = mapM (fun a => f (g a) (g' a)) l.
Proof.
  induction l as [|a l IH]; [reflexivity|]. cbn [map mapM2 mapM]. rewrite IH. reflexivity.
Qed.

Lemma nth_firstn_rows (T p : nat) (F : mat) :
  (p < T)%nat -> nth p (firstn T F) [] = nth p F [].
Proof. intros Hp. rewrite nth_firstn. destruct (Nat.ltb_spec p T); [reflexivity|lia]. Qed.

Lemma rope_slice (h N T : nat) (theta : R) (xs : mat) :
  Forall (fun r => length r = (2 * h)%nat) xs ->
  length xs = Nat.min T N ->
  let table := precompute_freqs_cis (2 * h) N theta in
  let tc := firstn T (map (fun r => r ++ r) (fst table)) in
  let ts := firstn T (map (fun r => r ++ r) (snd table)) in
  let neg := map (fun r => map Ropp (skipn h r) ++ firstn h r) xs in
  ew Rmult xs tc = Ok (zipWith (zipWith Rmult) xs tc) /\
  ew Rmult neg ts = Ok (zipWith (zipWith Rmult) neg ts) /\
  ew Rplus (zipWith (zipWith Rmult) xs tc) (zipWith (zipWith Rmult) neg ts)
    = Ok (rotate_spec table xs).
Proof.
  intros Hx Lx table tc ts neg.
  destruct (precompute_freqs_cis_shape h N theta) as (L1 & L2 & F1 & F2).
  fold table in L1, L2, F1, F2.
  assert (Wc : Forall (fun r => length r = (2 * h)%nat) tc).
  { unfold tc. apply Forall_firstn. apply Forall_forall. intros r Hr.
    apply in_map_iff in Hr as (r0 & <- & Hr0). rewrite length_app.
    rewrite Forall_forall in F1. rewrite (F1 r0 Hr0). lia. }
  assert (Ws : Forall (fun r => length r = (2 * h)%nat) ts).
  { unfold ts. apply Forall_firstn. apply Forall_forall. intros r Hr.
    apply in_map_iff in Hr as (r0 & <- & Hr0). rewrite length_app.
    rewrite Forall_forall in F2. rewrite (F2 r0 Hr0). lia. }
  assert (Ltc : length tc = length xs)
    by (unfold tc; rewrite length_firstn, length_map, L1; lia).
  assert (Lts : length ts = length xs)
    by (unfold ts; rewrite length_firstn, length_map, L2; lia).
  assert (Wn : Forall (fun r => length r = (2 * h)%nat) neg).
  { unfold neg. apply Forall_forall. intros r Hr. apply in_map_iff in Hr as (r0 & <- & Hr0).
    rewrite Forall_forall in Hx. specialize (Hx r0 Hr0).
    rewrite length_app, length_map, length_skipn, length_firstn. lia. }
  assert (Lneg : length neg = length xs) by (unfold neg; apply length_map).
  assert (S1 : same_shape xs tc) by (apply (same_shape_rows (2 * h) (2 * h)); auto).
  assert (S2 : same_shape neg ts) by (apply (same_shape_rows (2 * h) (2 * h)); auto; lia).
  split; [apply ew_same_shape; exact S1|]. split; [apply ew_same_shape; exact S2|].
  rewrite ew_same_shape.
  - f_equal. apply (nth_ext _ _ [] []).
    + rewrite rotate_spec_length, !zipWith_length. lia.
    + rewrite !zipWith_length. intros p Hp.
      rewrite rotate_spec_nth by lia.
      rewrite (nth_zipWith (zipWith Rplus) _ _ p [] [] []) by (rewrite !zipWith_length; lia).
      rewrite (nth_zipWith (zipWith Rmult) xs tc p [] [] []) by lia.
      rewrite (nth_zipWith (zipWith Rmult) neg ts p [] [] []) by lia.
      assert (HpT : (p < T)%nat) by lia. assert (HpN : (p < N)%nat) by lia.
      unfold tc, ts. rewrite !nth_firstn_rows by exact HpT.
      rewrite (nth_indep (map (fun r => r ++ r) (fst table)) [] ([] ++ []))
        by (rewrite length_map, L1; exact HpN).
      rewrite (nth_indep (map (fun r => r ++ r) (snd table)) [] ([] ++ []))
        by (rewrite length_map, L2; exact HpN).
      rewrite (map_nth (fun r => r ++ r) (fst table) [] p).
      rewrite (map_nth (fun r => r ++ r) (snd table) [] p).
      unfold neg.
      rewrite (nth_indep (map _ xs) [] (map Ropp (skipn h []) ++ firstn h []))
        by (rewrite length_map; lia).
      rewrite (map_nth (fun r => map Ropp (skipn h r) ++ firstn h r) xs [] p).
      apply rope_row.
      * apply (proj1 (Forall_nth _ _) Hx). lia.
      * apply (proj1 (Forall_nth _ _) F1). lia.
      * apply (proj1 (Forall_nth _ _) F2). lia.
  - apply (same_shape_rows (2 * h) (2 * h)); [reflexivity| | |].
    + rewrite !zipWith_length. lia.
    + apply Forall_zipWith_length; assumption.
    + apply Forall_zipWith_length; assumption.
Qed.

Lemma mapM_map {A B C : Type} (f : B -> result C) (g : A -> B) (l : list A) :
  mapM f (map g l) = mapM (fun a => f (g a)) l.
Proof.
  induction l as [|a l IH]; [reflexivity|]. cbn [map mapM]. rewrite IH. reflexivity.
Qed.

(** X21.  A first call of [RoPE.forward] whose input has, along its third
    axis, as many entries as the smaller of its first two axes, rotates
    row [p] of that axis by the angles of position [p]: with [d] the width
    of the rows, the result is that of [apply_rope] with the table of
    [precompute_freqs_cis] for the base of the module.  The number of
    positions of the table is the size of the leading axis. *)
Theorem rope_forward_is_apply_rope (s : RoPE.t) (h : nat) (x : tensor4) (T C : nat) :
  RoPE.cached s = None -> 0 < RoPE.base s -> (1 <= h)%nat ->
  RoPE.d s = Z.of_nat (2 * h) ->
  size1 x = T -> RoPE.size3 x = (2 * h)%nat ->
  Forall (fun x0 : tensor3 =>
            length x0 = T /\
            Forall (fun xs : mat =>
                      length xs = C /\ Forall (fun r => length r = (2 * h)%nat) xs) x0) x ->
  C = Nat.min T (length x) ->
  let table := precompute_freqs_cis (2 * h) (length x) (RoPE.base s) in
  snd (RoPE.forward s x) = Ok (map (map (rotate_spec table)) x) /\
  forall x0 xs, In x0 x -> In xs x0 ->
    apply_rope xs xs table = Ok (rotate_spec table xs, rotate_spec table xs).
Proof.
  intros E _ _ Hd HT H3 Hx HC table.
  assert (Hxs : forall x0 xs, In x0 x -> In xs x0 ->
                  Forall (fun r => length r = (2 * h)%nat) xs /\
                  length xs = Nat.min T (length x)).
  { intros x0 xs H0 H1. rewrite Forall_forall in Hx. destruct (Hx x0 H0) as [_ F].
    rewrite Forall_forall in F. destruct (F xs H1) as [L W]. split; [exact W|congruence]. }
  split.
  - unfold RoPE.forward. rewrite E. cbn [snd].
    unfold RoPE._build_cache. rewrite E. cbn [RoPE.cached].
    rewrite H3, Hd, <- INR_IZR_INZ, HT.
    change (map (fun r => r ++ r)
                (map (map cos)
                     (map (fun n => map (fun th => n * th)
                                        (map (fun i => 1 / Rpower (RoPE.base s)
                                                             (INR i / INR (2 * h)))
                                             (arange2 (2 * h))))
                          (map INR (seq 0 (length x))))))
      with (map (fun r => r ++ r) (fst table)).
    change (map (fun r => r ++ r)
                (map (map sin)
                     (map (fun n => map (fun th => n * th)
                                        (map (fun i => 1 / Rpower (RoPE.base s)
                                                             (INR i / INR (2 * h)))
                                             (arange2 (2 * h))))
                          (map INR (seq 0 (length x))))))
      with (map (fun r => r ++ r) (snd table)).
    set (tc := firstn T (map (fun r => r ++ r) (fst table))).
    set (ts := firstn T (map (fun r => r ++ r) (snd table))).
    set (negrow := fun r : list R => map Ropp (skipn h r) ++ firstn h r).
    assert (En : RoPE._neg_half x = map (map (map negrow)) x).
    { unfold RoPE._neg_half. rewrite H3.
      replace (Nat.div (2 * h) 2) with h
        by (apply (Nat.div_unique (2 * h) 2 h 0); lia).
      reflexivity. }
    rewrite En. unfold RoPE.ew4.
    rewrite (mapM_Ok _ (map (fun xs => zipWith (zipWith Rmult) xs tc))).
    2:{ intros x0 H0. apply (mapM_Ok _ (fun xs => zipWith (zipWith Rmult) xs tc)).
        intros xs H1. destruct (Hxs x0 xs H0 H1) as [W L].
        apply (rope_slice h (length x) T (RoPE.base s) xs W L). }
    cbn [bind]. rewrite mapM_map.
    rewrite (mapM_Ok _ (map (fun xs => zipWith (zipWith Rmult) (map negrow xs) ts))).
    2:{ intros x0 H0. rewrite mapM_map.
        apply (mapM_Ok _ (fun xs => zipWith (zipWith Rmult) (map negrow xs) ts)).
        intros xs H1. destruct (Hxs x0 xs H0 H1) as [W L].
        apply (rope_slice h (length x) T (RoPE.base s) xs W L). }
    cbn [bind]. rewrite mapM2_map_same.
    apply (mapM_Ok _ (map (rotate_spec table))).
    intros x0 H0. rewrite mapM2_map_same.
    apply (mapM_Ok _ (rotate_spec table)).
    intros xs H1. destruct (Hxs x0 xs H0 H1) as [W L].
    apply (rope_slice h (length x) T (RoPE.base s) xs W L).
  - intros x0 xs H0 H1. destruct (Hxs x0 xs H0 H1) as [W L].
    apply (apply_rope_spec h); [|exact W|reflexivity].
    apply precompute_freqs_cis_rope_shaped; [exact W|lia].
Qed.

Lemma rope_forward_is_apply_rope_witness :
  let s := {| RoPE.base := 10000; RoPE.d := 2; RoPE.cached := None |} in
  let x := [[[[1; 0]]]] in
  snd (RoPE.forward s x) = Ok (map (map (rotate_spec (precompute_freqs_cis 2 1 10000))) x).
Proof.
  intros s x.
  apply (rope_forward_is_apply_rope s 1 x 1 1).
  - reflexivity.
  - simpl. lra.
  - lia.
  - reflexivity.
  - reflexivity.
  - reflexivity.
  - repeat constructor.
  - reflexivity.
Defined.

Lemma ew_single_row (op : R -> R -> R) (xs : mat) (y : list R) :
  Forall (fun r => length r = length y) xs ->
  ew op xs [y] = Ok (map (fun r => zipWith op r y) xs).
Proof.
  intros Hx.
  assert (Hr : forall r, In r xs ->
                 broadcast2 (fun a b => Ok (op a b)) r y = Ok (zipWith op r y)).
  { intros r Hin. rewrite Forall_forall in Hx.
    apply (broadcast2_same (fun _ _ => True)); [reflexivity|].
    apply Forall2_same_length. apply Hx. exact Hin. }
  unfold ew, broadcast2 at 1.
  destruct xs as [|r1 [|r2 xs']].
  - reflexivity.
  - cbn [length Nat.eqb mapM2 map]. rewrite (Hr r1) by (left; reflexivity). reflexivity.
  - cbn [length Nat.eqb]. apply mapM_Ok. exact Hr.
Qed.

Lemma zipWith_map_same {A B C D : Type} (f : B -> C -> D) (g : A -> B) (g' : A -> C)
      (l : list A) :
  zipWith f (map g l) (map g' l) = map (fun a => f (g a) (g' a)) l.
Proof.
  induction l as [|a l IH]; [reflexivity|]. cbn [map zipWith]. rewrite IH. reflexivity.
Qed.

Lemma rope_slice_single (h : nat) (c sn : list R) (xs : mat) :
  length c = h -> length sn = h ->
  Forall (fun r => length r = (2 * h)%nat) xs ->
  let neg := map (fun r => map Ropp (skipn h r) ++ firstn h r) xs in
  exists a b,
    ew Rmult xs [c ++ c] = Ok a /\
    ew Rmult neg [sn ++ sn] = Ok b /\
    ew Rplus a b = Ok (map (rotate_row c sn) xs).
Proof.
  intros Lc Ls Hx neg.
  exists (map (fun r => zipWith Rmult r (c ++ c)) xs).
  exists (map (fun r => zipWith Rmult (map Ropp (skipn h r) ++ firstn h r) (sn ++ sn)) xs).
  split; [|split].
  - apply ew_single_row. eapply Forall_impl; [|exact Hx].
    intros r Hr. cbv beta in Hr |- *. rewrite length_app. lia.
  - unfold neg. rewrite ew_single_row.
    + rewrite map_map. reflexivity.
    + apply Forall_forall. intros r Hr. apply in_map_iff in Hr as (r0 & <- & Hr0).
      rewrite Forall_forall in Hx. specialize (Hx r0 Hr0).
      rewrite !length_app, length_map, length_skipn, length_firstn. lia.
  - rewrite ew_same_shape.
    + rewrite zipWith_map_same. f_equal. apply map_ext_in. intros r Hr.
      rewrite Forall_forall in Hx. apply rope_row; auto.
    + apply (same_shape_rows (2 * h) (2 * h)); [reflexivity| | |].
      * rewrite !length_map. reflexivity.
      * apply Forall_forall. intros r Hr. apply in_map_iff in Hr as (r0 & <- & Hr0).
        rewrite Forall_forall in Hx. specialize (Hx r0 Hr0).
        rewrite zipWith_length, length_app. lia.
      * apply Forall_forall. intros r Hr. apply in_map_iff in Hr as (r0 & <- & Hr0).
        rewrite Forall_forall in Hx. specialize (Hx r0 Hr0).
        rewrite zipWith_length, !length_app, length_map, length_skipn, length_firstn. lia.
Qed.

(** X22.  A first call of [RoPE.forward] on an input whose leading axis has
    one entry returns the input as it is: the tables then have the single
    position 0, whose rotation is the identity, and that row serves every
    row of the input. *)
Theorem rope_single_leading_entry_identity (s : RoPE.t) (h : nat) (x0 : tensor3) :
  RoPE.cached s = None -> 0 < RoPE.base s -> (0 < RoPE.d s)%Z ->
  RoPE.size3 [x0] = (2 * h)%nat ->
  Forall (Forall (fun r : list R => length r = (2 * h)%nat)) x0 ->
  snd (RoPE.forward s [x0]) = Ok [x0].
Proof.
  intros E _ _ H3 Hx.
  unfold RoPE.forward. rewrite E. cbn [snd].
  unfold RoPE._build_cache. rewrite E. cbn [RoPE.cached length seq map].
  rewrite H3.
  set (theta := map (fun i => 1 / Rpower (RoPE.base s) (INR i / IZR (RoPE.d s)))
                    (arange2 (2 * h))).
  set (c := map cos (map (fun th => INR 0 * th) theta)).
  set (sn := map sin (map (fun th => INR 0 * th) theta)).
  assert (Lt : length theta = h) by (unfold theta; rewrite length_map; apply arange2_length).
  assert (Lc : length c = h) by (unfold c; rewrite !length_map; exact Lt).
  assert (Ls : length sn = h) by (unfold sn; rewrite !length_map; exact Lt).
  assert (Hid : forall r, length r = (2 * h)%nat -> rotate_row c sn r = r).
  { intros r Lr. apply (rotate_row_identity h); auto.
    intros j Hj. unfold c, sn. rewrite !map_map. simpl INR. split.
    - rewrite (nth_indep _ 0 (cos (0 * 0))) by (rewrite length_map; lia).
      rewrite (map_nth (fun th => cos (0 * th)) theta 0 j). rewrite Rmult_0_l. apply cos_0.
    - rewrite (nth_indep _ 0 (sin (0 * 0))) by (rewrite length_map; lia).
      rewrite (map_nth (fun th => sin (0 * th)) theta 0 j). rewrite Rmult_0_l. apply sin_0. }
  assert (En : RoPE._neg_half [x0]
               = [map (map (fun r => map Ropp (skipn h r) ++ firstn h r)) x0]).
  { unfold RoPE._neg_half. rewrite H3.
    replace (Nat.div (2 * h) 2) with h by (apply (Nat.div_unique (2 * h) 2 h 0); lia).
    reflexivity. }
  rewrite En. unfold RoPE.ew4. cbn [mapM].
  destruct x0 as [|xs0 x0'] eqn:Ex0; [reflexivity|]. rewrite <- Ex0 in *.
  assert (Es : size1 [x0] = S (length x0')) by (rewrite Ex0; reflexivity).
  rewrite Es. cbn [firstn]. rewrite firstn_nil.
  assert (Hs : forall xs, In xs x0 ->
             exists a b,
               ew Rmult xs [c ++ c] = Ok a /\
               ew Rmult (map (fun r => map Ropp (skipn h r) ++ firstn h r) xs) [sn ++ sn] = Ok b /\
               ew Rplus a b = Ok xs).
  { intros xs Hin. rewrite Forall_forall in Hx.
    destruct (rope_slice_single h c sn xs Lc Ls (Hx xs Hin)) as (a & b & E1 & E2 & E3).
    exists a, b. split; [exact E1|]. split; [exact E2|]. rewrite E3. f_equal.
    rewrite <- (map_id xs) at 2. apply map_ext_in. intros r Hr. apply Hid.
    specialize (Hx xs Hin). rewrite Forall_forall in Hx. exact (Hx r Hr). }
  clear Ex0 Es En Hx H3.
  assert (Hall : exists A B,
             mapM (fun xs => ew Rmult xs [c ++ c]) x0 = Ok A /\
             mapM (fun xs => ew Rmult xs [sn ++ sn])
                  (map (map (fun r => map Ropp (skipn h r) ++ firstn h r)) x0) = Ok B /\
             mapM2 (ew Rplus) A B = Ok x0).
  { induction x0 as [|xs x0 IH].
    - exists [], []. auto.
    - destruct (Hs xs (or_introl eq_refl)) as (a & b & E1 & E2 & E3).
      destruct IH as (A & B & F1 & F2 & F3); [intros ys Hy; apply Hs; right; exact Hy|].
      exists (a :: A), (b :: B). cbn [map mapM mapM2]. rewrite E1, E2, F1, F2. cbn [bind].
      rewrite E3. cbn [bind]. rewrite F3. auto. }
  destruct Hall as (A & B & F1 & F2 & F3).
  rewrite F1. cbn [bind]. rewrite F2. cbn [bind mapM2]. rewrite F3. reflexivity.
Qed.

Lemma rope_single_leading_entry_identity_witness :
  snd (RoPE.forward {| RoPE.base := 10000; RoPE.d := 2; RoPE.cached := None |}
                    [[[[1; 2]; [3; 4]]; [[5; 6]; [7; 8]]]])
  = Ok [[[[1; 2]; [3; 4]]; [[5; 6]; [7; 8]]]].
Proof.
  apply (rope_single_leading_entry_identity
           {| RoPE.base := 10000; RoPE.d := 2; RoPE.cached := None |} 1).
  - reflexivity.
  - simpl. lra.
  - simpl. lia.
  - reflexivity.
  - repeat constructor.
Defined.

(** ** Generation: the order of the logits *)

Lemma logit_lt_irrefl (a : logit) : ~ logit_lt a a.
Proof. destruct a; simpl; [lra|tauto]. Qed.

Lemma logit_lt_trans (a b c : logit) : logit_lt a b -> logit_lt b c -> logit_lt a c.
Proof. destruct a, b, c; simpl; try tauto; lra. Qed.

Lemma logit_ge_trans (a b c : logit) : ~ logit_lt a b -> ~ logit_lt b c -> ~ logit_lt a c.
Proof. destruct a, b, c; simpl; try tauto; lra. Qed.

Lemma logit_lt_ge_trans (a b c : logit) : logit_lt a b -> ~ logit_lt c b -> logit_lt a c.
Proof. destruct a, b, c; simpl; try tauto; lra. Qed.

Lemma logit_total (a b : logit) : logit_lt a b \/ ~ logit_lt b a -> ~ logit_lt b a.
Proof. destruct a, b; simpl; try tauto; lra. Qed.

Lemma insert_logit_perm (a : logit) (l : list logit) : Permutation (insert_logit a l) (a :: l).
Proof.
  induction l as [|b l IH]; simpl; [reflexivity|].
  destruct (logit_lt_dec b a); [reflexivity|].
  rewrite IH. apply perm_swap.
Qed.

Lemma sort_logits_perm (l : list logit) : Permutation (sort_logits l) l.
Proof.
  induction l as [|a l IH]; simpl; [reflexivity|].
  rewrite insert_logit_perm. constructor. exact IH.
Qed.

Lemma insert_logit_sorted (a : logit) (l : list logit) :
  StronglySorted (fun x y => ~ logit_lt x y) l ->
  StronglySorted (fun x y => ~ logit_lt x y) (insert_logit a l).
Proof.
  induction 1 as [|b l Hs IH Hb]; simpl.
  - constructor; constructor.
  - destruct (logit_lt_dec b a) as [Hlt|Hge].
    + constructor; [constructor; assumption|].
      constructor.
      * intros H. exact (logit_lt_irrefl _ (logit_lt_trans _ _ _ H Hlt)).
      * rewrite Forall_forall in *. intros c Hc H. specialize (Hb c Hc).
        apply Hb. exact (logit_lt_trans _ _ _ Hlt H).
    + constructor; [exact IH|].
      rewrite Forall_forall in *. intros c Hc.
      apply (Permutation_in _ (insert_logit_perm a l)) in Hc. destruct Hc as [<-|Hc].
      * exact Hge.
      * exact (Hb c Hc).
Qed.

Lemma sort_logits_sorted (l : list logit) :
  StronglySorted (fun x y => ~ logit_lt x y) (sort_logits l).
Proof.
  induction l as [|a l IH]; simpl; [constructor|]. apply insert_logit_sorted. exact IH.
Qed.

Lemma sort_logits_length (l : list logit) : length (sort_logits l) = length l.
Proof. apply Permutation_length, sort_logits_perm. Qed.

Lemma sorted_nth_ge (s : list logit) (i j : nat) :
  StronglySorted (fun x y => ~ logit_lt x y) s ->
  (i <= j)%nat -> (j < length s)%nat ->
  ~ logit_lt (nth i s NegInf) (nth j s NegInf).
Proof.
  intros Hs; revert i j; induction Hs as [|a s Hs IH Ha]; intros i j Hij Hj; simpl in Hj; [lia|].
  destruct i as [|i], j as [|j]; simpl.
  - apply logit_lt_irrefl.
  - rewrite Forall_forall in Ha. apply Ha. apply nth_In. lia.
  - lia.
  - apply IH; lia.
Qed.

Lemma last_firstn_nth (s : list logit) (k : nat) :
  (1 <= k <= length s)%nat -> last (firstn k s) NegInf = nth (k - 1) s NegInf.
Proof.
  intros Hk.
  assert (El : firstn k s = firstn (k - 1) s ++ [nth (k - 1) s NegInf]).
  { rewrite <- (firstn_skipn (k - 1) (firstn k s)).
    rewrite firstn_firstn, (Nat.min_l (k - 1) k) by lia. f_equal.
    rewrite skipn_firstn_comm. replace (k - (k - 1))%nat with 1%nat by lia.
    destruct (skipn (k - 1) s) as [|a t] eqn:E.
    - apply (f_equal (@length logit)) in E. rewrite length_skipn in E. simpl in E. lia.
    - simpl. f_equal. rewrite <- (Nat.add_0_r (k - 1)). rewrite <- nth_skipn, E. reflexivity. }
  rewrite El. apply last_last.
Qed.

Lemma Permutation_filter_length {A : Type} (p : A -> bool) (l l' : list A) :
  Permutation l l' -> length (filter p l) = length (filter p l').
Proof.
  induction 1 as [|a l l' _ IH|a b l|l l' l'' _ IH1 _ IH2]; simpl.
  - reflexivity.
  - destruct (p a); simpl; congruence.
  - destruct (p a), (p b); reflexivity.
  - congruence.
Qed.

Lemma filter_all {A : Type} (p : A -> bool) (l : list A) :
  (forall a, In a l -> p a = true) -> filter p l = l.
Proof.
  induction l as [|a l IH]; intros F; [reflexivity|].
  simpl. rewrite (F a) by (left; reflexivity). f_equal. apply IH.
  intros b Hb. apply F. right. exact Hb.
Qed.

(** The [k]-th largest value of a row: a value of the row with fewer than
    [k] entries above it and at least [k] entries not below it. *)
Lemma kth_largest (row : list logit) (k : nat) :
  (1 <= k <= length row)%nat ->
  let kth := last (topk_values row k) NegInf in
  In kth row /\
  (length (filter (fun a => if logit_lt_dec kth a then true else false) row) < k)%nat /\
  (k <= length (filter (fun a => if logit_lt_dec a kth then false else true) row))%nat.
Proof.
  intros Hk kth. unfold topk_values in kth.
  pose proof (sort_logits_perm row) as Hp.
  pose proof (sort_logits_sorted row) as Hs.
  pose proof (sort_logits_length row) as Hl.
  set (s := sort_logits row) in *.
  assert (Ek : kth = nth (k - 1) s NegInf) by (apply last_firstn_nth; lia).
  split; [|split].
  - apply (Permutation_in _ Hp). rewrite Ek. apply nth_In. lia.
  - rewrite <- (Permutation_filter_length _ _ _ Hp).
    rewrite <- (firstn_skipn (k - 1) s), filter_app, length_app.
    assert (H0 : filter (fun a => if logit_lt_dec kth a then true else false) (skipn (k - 1) s)
                 = []).
    { destruct (filter _ (skipn (k - 1) s)) as [|a t] eqn:E; [reflexivity|].
      assert (Ha : In a (filter (fun a => if logit_lt_dec kth a then true else false)
                                (skipn (k - 1) s))) by (rewrite E; left; reflexivity).
      apply filter_In in Ha as [Hin Hlt].
      destruct (logit_lt_dec kth a) as [Hlt'|]; [|discriminate].
      apply (In_nth _ _ NegInf) in Hin as (j & Hj & Ej).
      rewrite length_skipn in Hj. rewrite nth_skipn in Ej.
      exfalso. rewrite <- Ej, Ek in Hlt'.
      exact (sorted_nth_ge s (k - 1) (k - 1 + j) Hs ltac:(lia) ltac:(lia) Hlt'). }
    rewrite H0. simpl.
    pose proof (filter_length_le (fun a => if logit_lt_dec kth a then true else false)
                                 (firstn (k - 1) s)) as Hle.
    rewrite length_firstn in Hle. lia.
  - rewrite <- (Permutation_filter_length _ _ _ Hp).
    rewrite <- (firstn_skipn k s), filter_app, length_app.
    assert (Hall : filter (fun a => if logit_lt_dec a kth then false else true) (firstn k s)
                   = firstn k s).
    { apply filter_all. intros a Hin. apply (In_nth _ _ NegInf) in Hin as (j & Hj & Ej).
        rewrite length_firstn in Hj. rewrite nth_firstn in Ej.
        destruct (Nat.ltb_spec j k); [|lia].
        destruct (logit_lt_dec a kth) as [Hlt|]; [|reflexivity].
        exfalso. rewrite <- Ej, Ek in Hlt.
        exact (sorted_nth_ge s j (k - 1) Hs ltac:(lia) ltac:(lia) Hlt). }
    rewrite Hall, length_firstn. lia.
Qed.

(** ** Generation: the loop *)

Lemma cat_tokens_rows (idx : list (list nat)) (idx_next : list nat) (idx' : list (list nat)) :
  cat_tokens idx idx_next = Ok idx' ->
  length idx_next = length idx /\ length idx' = length idx /\
  forall i, (i < length idx)%nat -> nth i idx' [] = nth i idx [] ++ [nth i idx_next 0%nat].
Proof.
  unfold cat_tokens. destruct (Nat.eqb_spec (length idx) (length idx_next)) as [El|]; [|discriminate].
  intros [= <-]. split; [lia|]. revert idx_next El.
  induction idx as [|row idx IH]; intros [|t ts] El; simpl in El; try discriminate.
  - split; [reflexivity|]. simpl. lia.
  - injection El as El. destruct (IH ts El) as [Hl Hn]. split; [simpl; lia|].
    intros [|i] Hi; simpl; [reflexivity|]. apply Hn. simpl in Hi. lia.
Qed.

Section GenerateLoop.

Variable St : Type.
Variable self_forward : St -> list (list nat) -> result (tensor3 * St).
Variable multinomial : St -> mat -> list nat * St.
Variable blocks : St -> list Block.
Variable element_size : nat.
Variable vocab_size : Z.
Variable config_ctx_len : nat.

Lemma generate_step_Ok (use_vocab_mask : bool) (t : Z) (top_k : option Z) (temperature : R)
      (st st' : St) (idx idx' : list (list nat)) :
  generate_step St self_forward multinomial config_ctx_len use_vocab_mask t top_k temperature
                st idx = Ok (idx', st') ->
  exists logits st0 last_logits filtered probs,
    self_forward st (idx_cond config_ctx_len idx) = Ok (logits, st0) /\
    last_position logits = Ok last_logits /\
    step_logits use_vocab_mask t top_k temperature last_logits = Ok filtered /\
    mapM (fun row => match softmax_logits row with
                     | Some p => Ok p
                     | None => Raise RuntimeError
                     end) filtered = Ok probs /\
    st' = snd (multinomial st0 probs) /\
    cat_tokens idx (fst (multinomial st0 probs)) = Ok idx'.
Proof.
  unfold generate_step, sample.
  destruct (self_forward st (idx_cond config_ctx_len idx)) as [[logits st0]|] eqn:Ef;
    [|discriminate].
  simpl. destruct (last_position logits) as [last_logits|] eqn:El; [|discriminate].
  simpl. destruct (step_logits use_vocab_mask t top_k temperature last_logits) as [filtered|]
    eqn:Es; [|discriminate].
  simpl. destruct (mapM _ filtered) as [probs|] eqn:Ep; [|discriminate].
  simpl. destruct (multinomial st0 probs) as [idx_next st1] eqn:Em. simpl.
  destruct (cat_tokens idx idx_next) as [idx1|] eqn:Ec; [|discriminate].
  simpl. intros [= <- <-].
  exists logits, st0, last_logits, filtered, probs. rewrite Em. simpl.
  repeat split; assumption.
Qed.

(** Along the loop every row keeps what it held and gains tokens that all
    meet [P], when every token that one round samples meets [P]. *)
Lemma generate_loop_rows (P : nat -> Prop) (use_vocab_mask : bool) (t : Z) (top_k : option Z)
      (temperature : R) :
  (forall st idx idx' st',
      generate_step St self_forward multinomial config_ctx_len use_vocab_mask t top_k
                    temperature st idx = Ok (idx', st') ->
      length idx' = length idx /\
      forall i, (i < length idx)%nat ->
                exists tok, nth i idx' [] = nth i idx [] ++ [tok] /\ P tok) ->
  forall n st idx idx' st',
    generate_loop St self_forward multinomial config_ctx_len n use_vocab_mask t top_k
                  temperature st idx = Ok (idx', st') ->
    length idx' = length idx /\
    forall i, (i < length idx)%nat ->
              exists new, nth i idx' [] = nth i idx [] ++ new /\ length new = n /\ Forall P new.
Proof.
  intros Hstep. induction n as [|n IH]; intros st idx idx' st'; simpl.
  - intros [= <- <-]. split; [reflexivity|]. intros i _. exists [].
    rewrite app_nil_r. repeat split. constructor.
  - destruct (generate_step _ _ _ _ _ _ _ _ st idx) as [[idx1 st1]|] eqn:E1; [|discriminate].
    simpl. intros E2. destruct (Hstep _ _ _ _ E1) as [Hl1 Hr1].
    destruct (IH _ _ _ _ E2) as [Hl2 Hr2]. split; [congruence|].
    intros i Hi. destruct (Hr1 i Hi) as (tok & Et & Ht).
    destruct (Hr2 i ltac:(lia)) as (new & En & Hn & HP).
    exists (tok :: new). rewrite En, Et, <- app_assoc. simpl.
    repeat split; [lia|]. constructor; assumption.
Qed.

Lemma generate_step_rows (use_vocab_mask : bool) (t : Z) (top_k : option Z) (temperature : R)
      (st st' : St) (idx idx' : list (list nat)) :
  generate_step St self_forward multinomial config_ctx_len use_vocab_mask t top_k temperature
                st idx = Ok (idx', st') ->
  length idx' = length idx /\
  forall i, (i < length idx)%nat -> exists tok, nth i idx' [] = nth i idx [] ++ [tok] /\ True.
Proof.
  intros E. apply generate_step_Ok in E as (_ & st0 & _ & _ & probs & _ & _ & _ & _ & _ & Ec).
  apply cat_tokens_rows in Ec as (_ & Hl & Hn). split; [exact Hl|].
  intros i Hi. eexists. split; [apply Hn; exact Hi|exact I].
Qed.

(** X23.  [Transformer.generate] only appends: when it returns, the batch
    has as many rows as the prompt, every row is the row of the prompt
    followed by exactly [max_new_tokens] new tokens (none when the number is
    not positive), and the size that it reports is the size of the caches
    of the model that the call leaves. *)
Theorem generate_appends_tokens (st st' : St) (idx idx' : list (list nat))
        (max_new_tokens : Z) (temperature : R) (top_k tiktoken_vocab_size : option Z) (gb : R) :
  generate St self_forward multinomial blocks element_size vocab_size config_ctx_len
           st idx max_new_tokens temperature top_k tiktoken_vocab_size = Ok (idx', gb, st') ->
  length idx' = length idx /\
  (forall i, (i < length idx)%nat ->
             exists new, nth i idx' [] = nth i idx [] ++ new /\
                         length new = Z.to_nat max_new_tokens) /\
  gb = total_size_gb St blocks element_size st'.
Proof.
  unfold generate.
  destruct (generate_loop _ _ _ _ _ _ _ _ _ st idx) as [[idx1 st1]|] eqn:E; [|discriminate].
  simpl. intros [= <- <- <-].
  destruct (generate_loop_rows (fun _ => True) _ _ _ _
              (fun st idx idx' st' => generate_step_rows _ _ _ _ st st' idx idx')
              _ _ _ _ _ E) as [Hl Hr].
  split; [exact Hl|]. split; [|reflexivity].
  intros i Hi. destruct (Hr i Hi) as (new & En & Hn & _). exists new. split; assumption.
Qed.

End GenerateLoop.

(** ** Generation: the filters *)

(** X24.  The top-k step of [generate] with [top_k >= 1], on a batch of
    rows of [V >= 1] logits and [k = min(top_k, V)]: in every row the
    threshold is the [k]-th largest logit of the row (a logit of the row
    with fewer than [k] logits above it and at least [k] logits not below
    it), the logits below the threshold become [-inf] and the others are
    kept as they are. *)
Theorem apply_top_k_keeps_k_largest (top_k : Z) (V : nat) (logits : list (list logit)) :
  (1 <= top_k)%Z -> (1 <= V)%nat -> logits <> [] -> rectangular V logits ->
  let k := Z.to_nat (Z.min top_k (Z.of_nat V)) in
  exists out,
    apply_top_k (Some top_k) logits = Ok out /\
    Forall2 (fun row row' =>
               exists kth,
                 In kth row /\
                 row' = map (fun a => if logit_lt_dec a kth then NegInf else a) row /\
                 (length (filter (fun a => if logit_lt_dec kth a then true else false) row)
                  < k)%nat /\
                 (k <= length (filter (fun a => if logit_lt_dec a kth then false else true)
                                      row))%nat)
            logits out.
Proof.
  intros Hk HV Hne Hr k. unfold apply_top_k.
  destruct (Z.ltb_spec 0 top_k); [|lia].
  assert (Es : size1 logits = V).
  { destruct logits as [|row l]; [congruence|]. unfold size1. simpl.
    inversion Hr; assumption. }
  rewrite Es. fold k.
  assert (Hk1 : (1 <= k <= V)%nat) by (unfold k; lia).
  destruct (Nat.eqb_spec k 0); [lia|].
  eexists. split; [reflexivity|].
  clear Hne Es. induction Hr as [|row l Hrow _ IH]; simpl; constructor; [|exact IH].
  exists (last (topk_values row k) NegInf).
  destruct (kth_largest row k ltac:(lia)) as (Hin & Hlt & Hge).
  repeat split; assumption.
Qed.

Lemma apply_top_k_finite (top_k : option Z) (V : nat) (logits : list (list logit)) :
  (1 <= V)%nat -> logits <> [] -> rectangular V logits ->
  Forall (Exists is_finite) logits ->
  exists out,
    apply_top_k top_k logits = Ok out /\ length out = length logits /\
    Forall (Exists is_finite) out.
Proof.
  intros HV Hne Hr Hf. unfold apply_top_k.
  destruct top_k as [top_k|]; [|exists logits; auto].
  destruct (Z.ltb_spec 0 top_k); [|exists logits; auto].
  assert (Es : size1 logits = V).
  { destruct logits as [|row l]; [congruence|]. unfold size1. simpl.
    inversion Hr; assumption. }
  rewrite Es. set (k := Z.to_nat (Z.min top_k (Z.of_nat V))).
  assert (Hk1 : (1 <= k <= V)%nat) by (unfold k; lia).
  destruct (Nat.eqb_spec k 0); [lia|].
  eexists. split; [reflexivity|]. split; [apply length_map|].
  clear Hne Es. induction Hr as [|row l Hrow _ IH]; simpl; constructor.
  - inversion Hf as [|? ? Hrf _]; subst.
    destruct (kth_largest row k ltac:(lia)) as (Hin & _ & _).
    set (kth := last (topk_values row k) NegInf) in *.
    apply Exists_exists in Hrf as (f & Hfin & Hff).
    apply Exists_exists.
    destruct (logit_lt_dec f kth) as [Hlt|Hge].
    + exists kth. split.
      * apply in_map_iff. exists kth. split; [|exact Hin].
        destruct (logit_lt_dec kth kth) as [Hc|]; [|reflexivity].
        destruct (logit_lt_irrefl _ Hc).
      * destruct f, kth; simpl in *; tauto.
    + exists f. split; [|exact Hff].
      apply in_map_iff. exists f. split; [|exact Hfin].
      destruct (logit_lt_dec f kth); [contradiction|reflexivity].
  - apply IH. inversion Hf; assumption.
Qed.

Lemma apply_top_k_support (top_k : option Z) (logits out : list (list logit)) :
  apply_top_k top_k logits = Ok out ->
  Forall2 (fun row row' => forall j, is_finite (nth j row' NegInf) -> is_finite (nth j row NegInf))
          logits out.
Proof.
  assert (Hid : forall l : list (list logit),
             Forall2 (fun row row' => forall j, is_finite (nth j row' NegInf) ->
                                                is_finite (nth j row NegInf)) l l).
  { induction l; constructor; auto. }
  unfold apply_top_k. destruct top_k as [top_k|]; [|intros [= <-]; apply Hid].
  destruct (0 <? top_k)%Z; [|intros [= <-]; apply Hid].
  generalize (Z.to_nat (Z.min top_k (Z.of_nat (size1 logits)))). intros k.
  destruct (Nat.eqb k 0); [discriminate|]. intros [= <-].
  induction logits as [|row l IH]; simpl; [constructor|]. constructor; [|exact IH].
  intros j. set (kth := last _ NegInf).
  destruct (Nat.lt_ge_cases j (length row)) as [Hl|Hl].
  - rewrite (nth_indep _ NegInf ((fun a => if logit_lt_dec a kth then NegInf else a) NegInf))
      by (rewrite length_map; exact Hl).
    rewrite (map_nth (fun a => if logit_lt_dec a kth then NegInf else a)).
    destruct (logit_lt_dec (nth j row NegInf) kth); simpl; tauto.
  - rewrite nth_overflow by (rewrite length_map; exact Hl). simpl. tauto.
Qed.

Lemma mask_from_length (start : nat) (row : list logit) :
  length (mask_from start row) = length row.
Proof.
  unfold mask_from. rewrite length_app, length_map, length_firstn, length_skipn. lia.
Qed.

Lemma mask_from_beyond (start : nat) (row : list logit) (j : nat) :
  (start <= j)%nat -> nth j (mask_from start row) NegInf = NegInf.
Proof.
  intros Hj. unfold mask_from. rewrite app_nth2 by (rewrite length_firstn; lia).
  exact (map_nth (fun _ => NegInf) (skipn start row) NegInf _).
Qed.

Lemma sum_exp_logit_nonneg (row : list logit) : 0 <= sum (map exp_logit row).
Proof.
  induction row as [|a row IH]; simpl; [lra|].
  destruct a; simpl; [pose proof (exp_pos r)|]; lra.
Qed.

Lemma sum_exp_logit_pos (row : list logit) : Exists is_finite row -> 0 < sum (map exp_logit row).
Proof.
  induction 1 as [a row Ha|a row _ IH]; simpl.
  - pose proof (sum_exp_logit_nonneg row). destruct a; [|destruct Ha].
    simpl. pose proof (exp_pos r). lra.
  - destruct a; simpl; [pose proof (exp_pos r)|]; lra.
Qed.

Lemma softmax_logits_distribution (row : list logit) (p : list R) :
  softmax_logits row = Some p ->
  sum p = 1 /\ Forall (fun a => 0 <= a) p /\
  forall j, 0 < nth j p 0 -> is_finite (nth j row NegInf).
Proof.
  unfold softmax_logits. set (z := sum (map exp_logit row)).
  destruct (Req_dec_T z 0) as [|Hz]; [discriminate|]. intros [= <-].
  assert (Hpos : 0 < z) by (pose proof (sum_exp_logit_nonneg row); fold z in H; lra).
  split; [|split].
  - rewrite <- (map_map exp_logit (fun v => v * / z)).
    rewrite sum_map_scale. fold z. field. exact Hz.
  - apply Forall_forall. intros a Ha. apply in_map_iff in Ha as (b & <- & _).
    apply Rmult_le_pos; [|left; apply Rinv_0_lt_compat; exact Hpos].
    destruct b; simpl; [left; apply exp_pos|lra].
  - intros j Hj.
    destruct (Nat.lt_ge_cases j (length row)) as [Hl|Hl].
    + rewrite (nth_indep _ 0 (exp_logit NegInf / z)) in Hj by (rewrite length_map; exact Hl).
      rewrite (map_nth (fun a => exp_logit a / z)) in Hj.
      destruct (nth j row NegInf); [exact I|]. simpl in Hj. unfold Rdiv in Hj. lra.
    + rewrite nth_overflow in Hj by (rewrite length_map; exact Hl). lra.
Qed.

Lemma softmax_logits_Some (row : list logit) :
  Exists is_finite row -> exists p, softmax_logits row = Some p.
Proof.
  intros H. apply sum_exp_logit_pos in H. unfold softmax_logits.
  destruct (Req_dec_T _ 0) as [E|]; [lra|]. eexists; reflexivity.
Qed.

Lemma mapM_Forall2 {A B : Type} (f : A -> result B) (l : list A) (l' : list B) :
  mapM f l = Ok l' -> Forall2 (fun a b => f a = Ok b) l l'.
Proof.
  revert l'; induction l as [|a l IH]; intros l'; simpl.
  - intros [= <-]. constructor.
  - destruct (f a) as [b|] eqn:Ea; [|discriminate]. simpl.
    destruct (mapM f l) as [bs|]; [|discriminate]. simpl. intros [= <-].
    constructor; [exact Ea|]. apply IH. reflexivity.
Qed.

Lemma mapM_total {A B : Type} (f : A -> result B) (l : list A) :
  Forall (fun a => exists b, f a = Ok b) l -> exists l', mapM f l = Ok l'.
Proof.
  induction 1 as [|a l [b Eb] _ [bs Ebs]]; simpl.
  - eexists; reflexivity.
  - rewrite Eb. simpl. rewrite Ebs. simpl. eexists; reflexivity.
Qed.

Lemma last_In {A : Type} (l : list A) (d : A) : l <> [] -> In (last l d) l.
Proof.
  induction l as [|a l IH]; [congruence|]. intros _.
  destruct l as [|b l]; [left; reflexivity|].
  right. apply IH. discriminate.
Qed.

Lemma last_position_Ok (T V : nat) (logits : tensor3) :
  (1 <= T)%nat ->
  Forall (fun lb : mat => length lb = T /\ rectangular V lb) logits ->
  exists l, last_position logits = Ok l /\ length l = length logits /\ rectangular V l.
Proof.
  intros HT. unfold last_position. induction 1 as [|lb logits [Hl Hr] _ (l & El & Hll & Hrl)]; simpl.
  - exists []. repeat split. constructor.
  - destruct lb as [|r lb]; [simpl in Hl; lia|]. simpl bind. rewrite El. simpl.
    eexists. split; [reflexivity|]. split; [simpl; lia|].
    constructor; [|exact Hrl].
    unfold rectangular in Hr. rewrite Forall_forall in Hr.
    change (length (last (r :: lb) []) = V). apply Hr.
    apply last_In. discriminate.
Qed.

Lemma idx_cond_rectangular (ctx T : nat) (idx : list (list nat)) :
  idx <> [] -> rectangular T idx ->
  idx_cond ctx idx <> [] /\ length (idx_cond ctx idx) = length idx /\
  rectangular (Nat.min T ctx) (idx_cond ctx idx).
Proof.
  intros Hne Hr. unfold idx_cond.
  assert (Es : size1 idx = T).
  { destruct idx as [|row l]; [congruence|]. unfold size1. simpl. inversion Hr; assumption. }
  rewrite Es. split; [|split].
  - destruct idx; [congruence|discriminate].
  - apply length_map.
  - unfold rectangular in *. rewrite Forall_forall in *. intros row Hin.
    apply in_map_iff in Hin as (row0 & <- & Hin). rewrite length_skipn, (Hr _ Hin). lia.
Qed.

Lemma Forall2_Forall_r {A B : Type} (R : A -> B -> Prop) (Q : B -> Prop)
      (xs : list A) (ys : list B) :
  Forall2 R xs ys -> Forall (fun x => forall y, R x y -> Q y) xs -> Forall Q ys.
Proof.
  induction 1 as [|x y xs ys Hxy _ IH]; intros Hq; constructor.
  - inversion Hq; subst; auto.
  - apply IH. inversion Hq; assumption.
Qed.

Lemma step_logits_returns (use_vocab_mask : bool) (t : Z) (top_k : option Z) (temperature : R)
      (V : nat) (logits : mat) :
  (1 <= V)%nat -> logits <> [] -> rectangular V logits ->
  (use_vocab_mask = true -> (1 <= t)%Z) ->
  exists filtered,
    step_logits use_vocab_mask t top_k temperature logits = Ok filtered /\
    length filtered = length logits /\ Forall (Exists is_finite) filtered.
Proof.
  intros HV Hne Hr Ht. unfold step_logits.
  set (scaled := map (map (fun a => Fin (a / temperature))) logits).
  set (masked := if use_vocab_mask then _ else scaled).
  assert (Hl : length masked = length logits).
  { unfold masked, scaled. destruct use_vocab_mask; rewrite ?length_map; reflexivity. }
  assert (Hs : Forall (fun row => length row = V /\ Exists is_finite row) masked).
  { unfold masked, scaled. unfold rectangular in Hr. rewrite Forall_forall in *.
    intros row Hin. destruct use_vocab_mask.
    - apply in_map_iff in Hin as (row1 & <- & Hin).
      apply in_map_iff in Hin as (row0 & <- & Hin).
      rewrite length_map, mask_from_length, length_map. split; [apply Hr; exact Hin|].
      specialize (Hr _ Hin). specialize (Ht eq_refl).
      unfold slice_start. destruct (Z.ltb_spec t 0); [lia|].
      destruct (Z.to_nat t) as [|s] eqn:Et; [lia|].
      destruct row0 as [|a row0]; [simpl in Hr; lia|].
      simpl. apply Exists_cons_hd. exact I.
    - apply in_map_iff in Hin as (row0 & <- & Hin).
      rewrite length_map. split; [apply Hr; exact Hin|].
      specialize (Hr _ Hin).
      destruct row0 as [|a row0]; [simpl in Hr; lia|].
      simpl. apply Exists_cons_hd. exact I. }
  destruct (apply_top_k_finite top_k V masked HV) as (out & Eo & Hlo & Hfo).
  - intros E. rewrite E in Hl. destruct logits; [congruence|discriminate].
  - eapply Forall_impl; [|exact Hs]. intros row [H _]; exact H.
  - eapply Forall_impl; [|exact Hs]. intros row [_ H]; exact H.
  - exists out. repeat split; [exact Eo|congruence|exact Hfo].
Qed.

Lemma step_logits_masked (t : Z) (top_k : option Z) (temperature : R)
      (logits : mat) (filtered : list (list logit)) :
  (0 <= t)%Z ->
  step_logits true t top_k temperature logits = Ok filtered ->
  Forall (fun row => forall j, is_finite (nth j row NegInf) -> (j < Z.to_nat t)%nat) filtered.
Proof.
  intros Ht. unfold step_logits. intros E. apply apply_top_k_support in E.
  apply (Forall2_Forall_r _ _ _ _ E). apply Forall_forall. intros row Hin row' Hs j Hj.
  apply in_map_iff in Hin as (row1 & <- & _). apply Hs in Hj.
  unfold slice_start in Hj. destruct (Z.ltb_spec t 0); [lia|].
  destruct (Nat.lt_ge_cases j (Z.to_nat t)) as [|Hge]; [assumption|].
  rewrite mask_from_beyond in Hj by exact Hge. destruct Hj.
Qed.

Section GenerateRuns.

Variable St : Type.
Variable self_forward : St -> list (list nat) -> result (tensor3 * St).
Variable multinomial : St -> mat -> list nat * St.
Variable blocks : St -> list Block.
Variable element_size : nat.
Variable vocab_size : Z.
Variable config_ctx_len : nat.

Lemma generate_step_returns (V T : nat) (use_vocab_mask : bool) (t : Z) (top_k : option Z)
      (temperature : R) (st : St) (idx : list (list nat)) :
  model_accepts St self_forward config_ctx_len V ->
  sampler_one_per_row St multinomial ->
  (1 <= config_ctx_len)%nat -> (1 <= V)%nat ->
  (use_vocab_mask = true -> (1 <= t)%Z) ->
  idx <> [] -> rectangular T idx -> (1 <= T)%nat ->
  exists idx' st',
    generate_step St self_forward multinomial config_ctx_len use_vocab_mask t top_k temperature
                  st idx = Ok (idx', st') /\
    idx' <> [] /\ rectangular (S T) idx'.
Proof.
  intros Hmodel Hsampler Hctx HV Ht Hne Hr HT.
  destruct (idx_cond_rectangular config_ctx_len T idx Hne Hr) as (Hcne & Hcl & Hcr).
  destruct (Hmodel st _ (Nat.min T config_ctx_len) Hcne ltac:(lia) Hcr)
    as (logits & st0 & Ef & Hll & Hls).
  destruct (last_position_Ok (Nat.min T config_ctx_len) V logits ltac:(lia) Hls)
    as (l & El & Hl & Hlr).
  assert (Hlne : l <> []).
  { intros E. rewrite E in Hl. simpl in Hl.
    assert (length idx <> 0%nat) by (destruct idx; [congruence|discriminate]). lia. }
  destruct (step_logits_returns use_vocab_mask t top_k temperature V l HV Hlne Hlr Ht)
    as (filtered & Es & Hfl & Hff).
  destruct (mapM_total (fun row => match softmax_logits row with
                                   | Some p => Ok p
                                   | None => Raise RuntimeError
                                   end) filtered) as (probs & Ep).
  { eapply Forall_impl; [|exact Hff]. intros row Hrow.
    destruct (softmax_logits_Some row Hrow) as (p & ->). eexists; reflexivity. }
  pose proof (mapM_length _ _ _ Ep) as Hpl.
  pose proof (Hsampler st0 probs) as Hsl.
  assert (Hnl : length idx = length (fst (multinomial st0 probs))) by congruence.
  destruct (cat_tokens idx (fst (multinomial st0 probs))) as [idx'|] eqn:Ec.
  2:{ unfold cat_tokens in Ec. rewrite Hnl, Nat.eqb_refl in Ec. discriminate. }
  exists idx', (snd (multinomial st0 probs)).
  destruct (cat_tokens_rows _ _ _ Ec) as (_ & Hil & Hin).
  split; [|split].
  - unfold generate_step, sample. rewrite Ef. simpl. rewrite El. simpl. rewrite Es. simpl.
    rewrite Ep. simpl. destruct (multinomial st0 probs) as [idx_next st1]. simpl in *.
    rewrite Ec. reflexivity.
  - intros E. rewrite E in Hil. destruct idx; [congruence|discriminate].
  - unfold rectangular in *. rewrite Forall_forall in *. intros row Hrow.
    apply (In_nth _ _ []) in Hrow as (i & Hi & <-).
    rewrite Hin by lia. rewrite length_app, (Hr (nth i idx [])) by (apply nth_In; lia).
    simpl. lia.
Qed.

Lemma generate_loop_returns (V : nat) (use_vocab_mask : bool) (t : Z) (top_k : option Z)
      (temperature : R) :
  model_accepts St self_forward config_ctx_len V ->
  sampler_one_per_row St multinomial ->
  (1 <= config_ctx_len)%nat -> (1 <= V)%nat ->
  (use_vocab_mask = true -> (1 <= t)%Z) ->
  forall n st idx T,
    idx <> [] -> rectangular T idx -> (1 <= T)%nat ->
    exists idx' st',
      generate_loop St self_forward multinomial config_ctx_len n use_vocab_mask t top_k
                    temperature st idx = Ok (idx', st') /\
      rectangular (T + n) idx'.
Proof.
  intros Hmodel Hsampler Hctx HV Hmask.
  induction n as [|n IH]; intros st1 idx1 T1 Hne1 Hr1 HT1; simpl.
  - exists idx1, st1. rewrite Nat.add_0_r. split; [reflexivity|exact Hr1].
  - destruct (generate_step_returns V T1 use_vocab_mask t top_k temperature st1 idx1
                Hmodel Hsampler Hctx HV Hmask Hne1 Hr1 HT1) as (idx2 & st2 & E2 & Hne2 & Hr2).
    rewrite E2. simpl.
    destruct (IH st2 idx2 (S T1) Hne2 Hr2 ltac:(lia)) as (idx3 & st3 & E3 & Hr3).
    exists idx3, st3. split; [exact E3|].
    replace (T1 + S n)%nat with (S T1 + n)%nat by lia. exact Hr3.
Qed.


(** X26.  With the vocabulary mask active ([0 <= tiktoken_vocab_size <
    vocab_size]) and a sampler that only returns tokens of positive
    probability, every token that [generate] appends is below
    [tiktoken_vocab_size], whatever the logits of the forward pass, the
    temperature and [top_k] are. *)
Theorem generate_respects_vocab_mask (st st' : St) (idx idx' : list (list nat))
        (max_new_tokens : Z) (temperature : R) (top_k : option Z) (t : Z) (gb : R) :
  sampler_in_support St multinomial ->
  (0 <= t < vocab_size)%Z ->
  generate St self_forward multinomial blocks element_size vocab_size config_ctx_len
           st idx max_new_tokens temperature top_k (Some t) = Ok (idx', gb, st') ->
  forall i, (i < length idx)%nat ->
            exists new, nth i idx' [] = nth i idx [] ++ new /\
                        length new = Z.to_nat max_new_tokens /\
                        Forall (fun tok => (Z.of_nat tok < t)%Z) new.
Proof.
  intros Hsampler Ht. unfold generate.
  destruct (Z.ltb_spec t vocab_size); [|lia].
  destruct (generate_loop _ _ _ _ _ _ _ _ _ st idx) as [[idx1 st1]|] eqn:E; [|discriminate].
  simpl. intros [= <- <- <-].
  refine (proj2 (generate_loop_rows St self_forward multinomial config_ctx_len
                   (fun tok => (Z.of_nat tok < t)%Z) _ _ _ _ _ _ _ _ _ _ E)).
  clear E. intros st0 idx0 idx2 st2 E.
  apply generate_step_Ok in E
    as (logits & st3 & last_logits & filtered & probs & _ & _ & Es & Ep & _ & Ec).
  apply cat_tokens_rows in Ec as (Hnl & Hl & Hn). split; [exact Hl|].
  intros i Hi. eexists. split; [apply Hn; exact Hi|].
  apply step_logits_masked in Es; [|lia].
  apply mapM_Forall2 in Ep.
  assert (Hd : Forall (fun p => sum p = 1 /\ Forall (fun a => 0 <= a) p) probs).
  { apply (Forall2_Forall_r _ _ _ _ Ep). apply Forall_forall. intros row _ p Hp.
    destruct (softmax_logits row) as [p0|] eqn:Ep0; [|discriminate]. injection Hp as <-.
    destruct (softmax_logits_distribution _ _ Ep0) as (H1 & H2 & _). split; assumption. }
  pose proof (Hsampler st3 probs Hd) as Hsup.
  set (toks := fst (multinomial st3 probs)) in *.
  assert (Hpl : length filtered = length probs) by (eapply Forall2_length; exact Ep).
  assert (Htl : length probs = length toks) by (eapply Forall2_length; exact Hsup).
  assert (Hi' : (i < length filtered)%nat) by lia.
  assert (Hrow : softmax_logits (nth i filtered []) = Some (nth i probs [])).
  { clear -Ep Hi'. revert i Hi'. induction Ep as [|row p f ps Hp _ IH]; intros i Hi; simpl in Hi;
      [lia|].
    destruct i as [|i]; simpl.
    - destruct (softmax_logits row); [congruence|discriminate].
    - apply IH. lia. }
  assert (Hpos : 0 < nth (nth i toks 0%nat) (nth i probs []) 0).
  { clear -Hsup Hi Hnl. assert (Hi' : (i < length toks)%nat) by lia. clear Hi Hnl.
    revert i Hi'. induction Hsup as [|p tok ps ts Hp _ IH]; intros i Hi; simpl in Hi; [lia|].
    destruct i as [|i]; simpl; [exact Hp|]. apply IH. lia. }
  destruct (softmax_logits_distribution _ _ Hrow) as (_ & _ & Hfin).
  apply Hfin in Hpos. rewrite Forall_forall in Es.
  specialize (Es (nth i filtered []) (nth_In _ _ Hi') _ Hpos). lia.
Qed.

End GenerateRuns.

(** ** Generation: the example model *)

Lemma example_model_accepts (V ctx : nat) : model_accepts unit (example_self_forward V) ctx V.
Proof.
  intros st idx T _ _ Hr. unfold example_self_forward.
  eexists _, _. split; [reflexivity|]. split; [apply length_map|].
  unfold rectangular in *. rewrite Forall_forall in *. intros lb Hin.
  apply in_map_iff in Hin as (row & <- & Hin). rewrite length_map. split; [apply Hr; exact Hin|].
  apply Forall_forall. intros r Hr0. apply in_map_iff in Hr0 as (tok & <- & _).
  rewrite length_map, length_seq. reflexivity.
Qed.


Lemma example_sampler_one_per_row : sampler_one_per_row unit example_multinomial.
Proof. intros st probs. apply length_map. Qed.

Lemma first_positive_support (p : list R) :
  0 < sum p -> Forall (fun a => 0 <= a) p -> 0 < nth (first_positive p) p 0.
Proof.
  induction p as [|a p IH]; simpl; intros Hs Hn; [lra|].
  destruct (Rlt_dec 0 a) as [|Ha]; [assumption|].
  apply IH; inversion Hn; subst; [lra|assumption].
Qed.

Lemma example_sampler_in_support : sampler_in_support unit example_multinomial.
Proof.
  intros st probs. simpl. induction 1 as [|p ps [Hs Hn] _ IH]; simpl; constructor; [|exact IH].
  apply first_positive_support; [lra|exact Hn].
Qed.

(** The example model generates from the prompt [[5; 7]] with a context of
    one token. *)
Lemma example_generate_runs (max_new_tokens : Z) (top_k tiktoken_vocab_size : option Z) :
  (forall t, tiktoken_vocab_size = Some t -> (1 <= t)%Z) ->
  exists idx' st',
    generate unit (example_self_forward 2) example_multinomial (fun _ => []) 4 2 1
             tt [[5; 7]%nat] max_new_tokens 1 top_k tiktoken_vocab_size
    = Ok (idx', total_size_gb unit (fun _ => []) 4 st', st').
Proof.
  intros Ht. unfold generate.
  set (temp := if Rle_dec 1 0 then _ else _).
  set (mask := match tiktoken_vocab_size with Some t => (t <? 2)%Z | None => false end).
  set (t := match tiktoken_vocab_size with Some t => t | None => 0%Z end).
  assert (Hmask : mask = true -> (1 <= t)%Z).
  { unfold mask, t. destruct tiktoken_vocab_size as [t0|]; [|discriminate].
    intros _. apply Ht. reflexivity. }
  destruct (generate_loop_returns unit (example_self_forward 2) example_multinomial 1 2
              mask t top_k temp (example_model_accepts 2 1) example_sampler_one_per_row
              ltac:(lia) ltac:(lia) Hmask (Z.to_nat max_new_tokens) tt [[5; 7]%nat] 2%nat)
    as (idx' & st' & E & _).
  - discriminate.
  - repeat constructor.
  - lia.
  - exists idx', st'. rewrite E. reflexivity.
Qed.

Lemma generate_appends_tokens_witness :
  exists idx' gb st',
    generate unit (example_self_forward 2) example_multinomial (fun _ => []) 4 2 1
             tt [[5; 7]%nat] 3 1 (Some 1%Z) None = Ok (idx', gb, st') /\
    length idx' = 1%nat /\
    exists new, nth 0 idx' [] = [5; 7]%nat ++ new /\ length new = 3%nat.
Proof.
  destruct (example_generate_runs 3 (Some 1%Z) None) as (idx' & st' & E); [discriminate|].
  destruct (generate_appends_tokens unit (example_self_forward 2) example_multinomial
              (fun _ => []) 4 2 1 tt st' [[5; 7]%nat] idx' 3 1 (Some 1%Z) None _ E)
    as (Hl & Hr & _).
  exists idx', (total_size_gb unit (fun _ => []) 4 st'), st'. split; [exact E|]. split; [exact Hl|].
  destruct (Hr 0%nat ltac:(simpl; lia)) as (new & En & Hn).
  exists new. split; [exact En|exact Hn].
Defined.

Lemma apply_top_k_keeps_k_largest_witness :
  exists out,
    apply_top_k (Some 2%Z) [[Fin 1; Fin 3; Fin 2]] = Ok out /\
    Forall2 (fun row row' =>
               exists kth,
                 In kth row /\
                 row' = map (fun a => if logit_lt_dec a kth then NegInf else a) row /\
                 (length (filter (fun a => if logit_lt_dec kth a then true else false) row)
                  < 2)%nat /\
                 (2 <= length (filter (fun a => if logit_lt_dec a kth then false else true)
                                      row))%nat)
            [[Fin 1; Fin 3; Fin 2]] out.
Proof.
  apply (apply_top_k_keeps_k_largest 2 3 [[Fin 1; Fin 3; Fin 2]]).
  - lia.
  - lia.
  - discriminate.
  - repeat constructor.
Defined.


Lemma generate_respects_vocab_mask_witness :
  exists idx' gb st',
    generate unit (example_self_forward 2) example_multinomial (fun _ => []) 4 2 1
             tt [[5; 7]%nat] 3 1 None (Some 1%Z) = Ok (idx', gb, st') /\
    exists new, nth 0 idx' [] = [5; 7]%nat ++ new /\ length new = 3%nat /\
                Forall (fun tok => (Z.of_nat tok < 1)%Z) new.
Proof.
  destruct (example_generate_runs 3 None (Some 1%Z)) as (idx' & st' & E).
  { intros t [= <-]. lia. }
  exists idx', (total_size_gb unit (fun _ => []) 4 st'), st'. split; [exact E|].
  apply (generate_respects_vocab_mask unit (example_self_forward 2) example_multinomial
           (fun _ => []) 4 2 1 tt st' [[5; 7]%nat] idx' 3 1 None 1 _
           example_sampler_in_support ltac:(lia) E 0%nat).
  simpl. lia.
Defined.

(** ** The optimizers *)

Lemma assign_parameters_filter (ps mu ad : list parameter) :
  fold_left assign_parameter ps (mu, ad)
  = (mu ++ filter (fun p => requires_grad p
                            && (contains "blocks"%string (name p) && (2 <=? ndim p)%nat
                                && negb (existsb (fun pattern => contains pattern (name p))
                                                 muon_exclude_patterns))) ps,
     ad ++ filter (fun p => requires_grad p
                            && negb (contains "blocks"%string (name p) && (2 <=? ndim p)%nat
                                     && negb (existsb (fun pattern => contains pattern (name p))
                                                      muon_exclude_patterns))) ps).
Proof.
  revert mu ad; induction ps as [|p ps IH]; intros mu ad; cbn [fold_left filter].
  - rewrite !app_nil_r. reflexivity.
  - set (b := contains "blocks"%string (name p) && (2 <=? ndim p)%nat
              && negb (existsb (fun pattern => contains pattern (name p))
                               muon_exclude_patterns)).
    assert (E : assign_parameter (mu, ad) p
                = if requires_grad p
                  then if b then (mu ++ [p], ad) else (mu, ad ++ [p])
                  else (mu, ad)).
    { unfold assign_parameter, b. destruct (requires_grad p); reflexivity. }
    rewrite E. destruct (requires_grad p), b; cbn [andb negb];
      rewrite IH, <- ?app_assoc; reflexivity.
Qed.

Lemma existsb_false_Forall {A : Type} (f : A -> bool) (l : list A) :
  existsb f l = false <-> Forall (fun a => f a = false) l.
Proof.
  induction l as [|a l IH]; cbn [existsb].
  - split; [constructor|reflexivity].
  - rewrite orb_false_iff, IH. split.
    + intros [H1 H2]. constructor; assumption.
    + intros H. inversion H; subst. split; assumption.
Qed.

Lemma filter_split_perm {A : Type} (f g : A -> bool) (l : list A) :
  Permutation (filter (fun a => f a && g a) l ++ filter (fun a => f a && negb (g a)) l)
              (filter f l).
Proof.
  induction l as [|a l IH]; simpl; [constructor|].
  destruct (f a), (g a); simpl; try exact IH.
  - constructor. exact IH.
  - apply Permutation_sym, Permutation_cons_app, Permutation_sym, IH.
Qed.

(** X27.  [configure_optimizers] hands every trainable parameter to exactly
    one optimizer and a frozen one to none.  Muon gets the trainable
    parameters of at least two dimensions whose name contains [blocks] and
    none of the excluded patterns, AdamW all the others (so the scalars and
    the parameters of the token selection), and Muon is in the list that is
    returned only when it gets a parameter. *)
Theorem configure_optimizers_partition (named_parameters : list parameter)
        (weight_decay learning_rate : R) :
  let optimizers := configure_optimizers named_parameters weight_decay learning_rate in
  Permutation (muon_of optimizers ++ adamw_of optimizers)
              (filter requires_grad named_parameters) /\
  (forall p, In p (muon_of optimizers) <->
             In p named_parameters /\ requires_grad p = true /\
             contains "blocks"%string (name p) = true /\ (2 <= ndim p)%nat /\
             Forall (fun pattern => contains pattern (name p) = false) muon_exclude_patterns) /\
  (muon_of optimizers = [] ->
   optimizers = [AdamW (adamw_of optimizers) learning_rate (90 / 100, 95 / 100) weight_decay]) /\
  (muon_of optimizers <> [] ->
   optimizers = [Muon (muon_of optimizers) (2 / 100) (95 / 100);
                 AdamW (adamw_of optimizers) learning_rate (90 / 100, 95 / 100) weight_decay]).
Proof.
  intros optimizers. unfold optimizers, configure_optimizers.
  rewrite assign_parameters_filter. cbn [app]. cbv beta iota.
  set (mu := filter (fun p => requires_grad p
                              && (contains "blocks"%string (name p) && (2 <=? ndim p)%nat
                                  && negb (existsb (fun pattern => contains pattern (name p))
                                                   muon_exclude_patterns)))
                    named_parameters).
  set (ad := filter (fun p => requires_grad p
                              && negb (contains "blocks"%string (name p) && (2 <=? ndim p)%nat
                                       && negb (existsb
                                                  (fun pattern => contains pattern (name p))
                                                  muon_exclude_patterns)))
                    named_parameters).
  assert (Emu : forall o, o = match mu with
                              | [] => [AdamW ad learning_rate (90 / 100, 95 / 100) weight_decay]
                              | _ => [Muon mu (2 / 100) (95 / 100);
                                      AdamW ad learning_rate (90 / 100, 95 / 100) weight_decay]
                              end -> muon_of o = mu /\ adamw_of o = ad).
  { intros o ->. unfold muon_of, adamw_of. destruct mu; simpl; rewrite ?app_nil_r; auto. }
  destruct (Emu _ eq_refl) as [E1 E2]. rewrite E1, E2.
  split; [|split; [|split]].
  - exact (filter_split_perm requires_grad
             (fun p => contains "blocks"%string (name p) && (2 <=? ndim p)%nat
                       && negb (existsb (fun pattern => contains pattern (name p))
                                        muon_exclude_patterns))
             named_parameters).
  - intros p. unfold mu. rewrite filter_In.
    rewrite !andb_true_iff, negb_true_iff, Nat.leb_le.
    rewrite existsb_false_Forall. tauto.
  - intros ->. reflexivity.
  - intros Hne. destruct mu; [congruence|reflexivity].
Qed.

Lemma configure_optimizers_partition_witness :
  let scorer := {| name := "blocks.0.attn.importance_scorer.weight"%string; ndim := 2;
                   requires_grad := true |} in
  let proj := {| name := "blocks.0.attn.proj.weight"%string; ndim := 2;
                 requires_grad := true |} in
  let lamb_v := {| name := "blocks.0.attn.lamb_v"%string; ndim := 0; requires_grad := true |} in
  In proj (muon_of (configure_optimizers [scorer; proj; lamb_v] (1 / 10) (1 / 1000))) /\
  ~ In scorer (muon_of (configure_optimizers [scorer; proj; lamb_v] (1 / 10) (1 / 1000))) /\
  ~ In lamb_v (muon_of (configure_optimizers [scorer; proj; lamb_v] (1 / 10) (1 / 1000))).
Proof.
  intros scorer proj lamb_v.
  destruct (configure_optimizers_partition [scorer; proj; lamb_v] (1 / 10) (1 / 1000))
    as (_ & Hmu & _).
  split; [|split].
  - apply Hmu. split; [right; left; reflexivity|].
    split; [reflexivity|]. split; [reflexivity|]. split; [simpl; lia|].
    repeat constructor.
  - intros H. apply Hmu in H as (_ & _ & _ & _ & H).
    inversion H as [|? ? _ H']; subst. inversion H' as [|? ? E _]; subst. discriminate E.
  - intros H. apply Hmu in H as (_ & _ & _ & H & _). simpl in H. lia.
Defined.

(** ** Generation: a mask that leaves no token *)



Section GenerateRaises.

Variable St : Type.
Variable self_forward : St -> list (list nat) -> result (tensor3 * St).
Variable multinomial : St -> mat -> list nat * St.
Variable blocks : St -> list Block.
Variable element_size : nat.
Variable vocab_size : Z.
Variable config_ctx_len : nat.


End GenerateRaises.

